(** * The binlog relay write path of TiDB: sessionctx/binloginfo and the
      address validator of the pump client utilities.

    Go strings are byte sequences; they are modelled as lists of 8-bit
    characters.  Unsigned 32-bit globals are integers with the wrap-around
    written out.  Package-level variables live in an explicit world that the
    operations pass along. *)

From Stdlib Require Import String Ascii.
From Stdlib Require Import ZArith NArith List Bool Lia.
Import ListNotations.


(** ** Go strings *)

Definition gostring := list ascii.

(** A string literal of the source. *)
Definition lit (s : string) : gostring := list_ascii_of_string s.

Definition byte_val (c : ascii) : N := N_of_ascii c.

(** [lo <= c && c <= hi] on bytes. *)
Definition between (lo hi c : ascii) : bool :=
  (byte_val lo <=? byte_val c)%N && (byte_val c <=? byte_val hi)%N.

Definition gostring_eqb (a b : gostring) : bool :=
  if list_eq_dec ascii_dec a b then true else false.

(** Results of fallible calls: a value or an error. *)
Inductive result (E A : Type) : Type :=
| OK (a : A)
| Err (e : E).
Arguments OK {E A} a.
Arguments Err {E A} e.

(** [s[lo:hi]]: Go panics unless [lo <= hi <= len(s)]; a panic is [None]. *)
Definition slice (s : gostring) (lo hi : nat) : option gostring :=
  if (lo <=? hi) && (hi <=? length s)
  then Some (firstn (hi - lo) (skipn lo s))
  else None.

(** [s[:hi]] and [s[lo:]]. *)
Definition slice_to (s : gostring) (hi : nat) : option gostring := slice s 0 hi.
Definition slice_from (s : gostring) (lo : nat) : option gostring :=
  slice s lo (length s).

(** ** Package strings of the Go library, as far as the code calls it. *)
Module strings.

Fixpoint HasPrefix (s prefix : gostring) {struct prefix} : bool :=
  match prefix, s with
  | [], _ => true
  | p :: prefix', c :: s' => Ascii.eqb c p && HasPrefix s' prefix'
  | _ :: _, [] => false
  end.

(** [strings.Index]; Go's -1 is [None]. *)
Fixpoint Index (s substr : gostring) {struct s} : option nat :=
  if HasPrefix s substr then Some 0
  else match s with
       | [] => None
       | _ :: s' => option_map S (Index s' substr)
       end.

Definition Contains (s substr : gostring) : bool :=
  match Index s substr with Some _ => true | None => false end.

(** [strings.LastIndex]; Go's -1 is [None]. *)
Fixpoint LastIndex (s substr : gostring) {struct s} : option nat :=
  match s with
  | [] => if HasPrefix [] substr then Some 0 else None
  | _ :: s' =>
      match LastIndex s' substr with
      | Some i => Some (S i)
      | None => if HasPrefix s substr then Some 0 else None
      end
  end.

Definition HasSuffix (s suffix : gostring) : bool :=
  HasPrefix (rev s) (rev suffix).

(** [strings.Count(s, substr)] for a substring of one byte. *)
Definition Count (s : gostring) (c : ascii) : nat :=
  List.length (filter (Ascii.eqb c) s).

(** [strings.Split(s, sep)] for a separator of one byte, the only kind the
    code passes: one more piece than there are separators. *)
Fixpoint Split (s : gostring) (sep : ascii) : list gostring :=
  match s with
  | [] => [[]]
  | c :: s' =>
      if Ascii.eqb c sep then [] :: Split s' sep
      else match Split s' sep with
           | piece :: rest => (c :: piece) :: rest
           | [] => [[c]]
           end
  end.

(** [unicode.IsSpace] on the one-byte runes: tab, newline, vertical tab,
    form feed, carriage return, space. *)
Definition isSpace1 (c : ascii) : bool :=
  between "009" "013" c || Ascii.eqb c " ".

(** The two-byte encodings of U+0085 and U+00A0. *)
Definition isSpace2 (c1 c2 : ascii) : bool :=
  (byte_val c1 =? 194)%N && ((byte_val c2 =? 133)%N || (byte_val c2 =? 160)%N).

(** The three-byte encodings of U+1680, U+2000..U+200A, U+2028, U+2029,
    U+202F, U+205F and U+3000. *)
Definition isSpace3 (c1 c2 c3 : ascii) : bool :=
  let b1 := byte_val c1 in
  let b2 := byte_val c2 in
  let b3 := byte_val c3 in
  ((b1 =? 225) && (b2 =? 154) && (b3 =? 128))%N
  || ((b1 =? 226) && (b2 =? 128)
      && (((128 <=? b3) && (b3 <=? 138)) || (b3 =? 168) || (b3 =? 169) || (b3 =? 175)))%N
  || ((b1 =? 226) && (b2 =? 129) && (b3 =? 159))%N
  || ((b1 =? 227) && (b2 =? 128) && (b3 =? 128))%N.

(** [strings.TrimLeftFunc(s, unicode.IsSpace)]: drop leading runes that are
    white space.  A byte that starts no white-space encoding stops it. *)
Fixpoint TrimLeftSpace (s : gostring) : gostring :=
  match s with
  | [] => []
  | c1 :: s1 =>
      if isSpace1 c1 then TrimLeftSpace s1
      else match s1 with
           | [] => s
           | c2 :: s2 =>
               if isSpace2 c1 c2 then TrimLeftSpace s2
               else match s2 with
                    | [] => s
                    | c3 :: s3 =>
                        if isSpace3 c1 c2 c3 then TrimLeftSpace s3 else s
                    end
           end
  end.

(** The same from the right end, on the reversed string: the last rune is
    white space exactly when the string ends in one of the encodings. *)
Fixpoint TrimRightSpace_rev (r : gostring) : gostring :=
  match r with
  | [] => []
  | c1 :: r1 =>
      if isSpace1 c1 then TrimRightSpace_rev r1
      else match r1 with
           | [] => r
           | c2 :: r2 =>
               if isSpace2 c2 c1 then TrimRightSpace_rev r2
               else match r2 with
                    | [] => r
                    | c3 :: r3 =>
                        if isSpace3 c3 c2 c1 then TrimRightSpace_rev r3 else r
                    end
           end
  end.

Definition TrimSpace (s : gostring) : gostring :=
  rev (TrimRightSpace_rev (rev (TrimLeftSpace s))).

Definition isASCII (s : gostring) : bool :=
  forallb (fun c => (byte_val c <? 128)%N) s.

Definition isLower (c : ascii) : bool := between "a" "z" c.
Definition isUpper (c : ascii) : bool := between "A" "Z" c.

(** [c -= 'a' - 'A'] for a lower-case letter. *)
Definition upperByte (c : ascii) : ascii :=
  if isLower c then ascii_of_N (byte_val c - 32) else c.

(** [c += 'a' - 'A'] for an upper-case letter. *)
Definition lowerByte (c : ascii) : ascii :=
  if isUpper c then ascii_of_N (byte_val c + 32) else c.

Section Unicode.
(** [strings.Map(unicode.ToUpper, s)], the path of [ToUpper] for strings
    with a byte outside ASCII.  Its case tables are data of the Go
    library; the development holds for every such function. *)
Variable mapToUpper : gostring -> gostring.

(** [strings.ToUpper]: strings of ASCII bytes are mapped byte by byte (and
    returned as they are when no lower-case letter occurs), all others go
    through the rune mapping. *)
Definition ToUpper (s : gostring) : gostring :=
  if isASCII s then
    if existsb isLower s then map upperByte s else s
  else mapToUpper s.
End Unicode.

End strings.

(** ** Package regexp of the Go library, for the patterns the code uses.

    A pattern is a sequence of items, each a class of bytes that occurs once,
    any number of times ([*]) or at least once ([+]).  Repetition is greedy
    and gives back what it took when the rest of the pattern fails, and the
    search takes the leftmost position where the pattern matches: the
    leftmost-first rule of the library.  The classes and literals of these
    patterns are ASCII, so matching bytes is matching runes. *)
Module regexp.

Inductive quant : Type := One | Star | Plus.

Record item : Type := { cls : ascii -> bool; rep : quant }.

Definition Regexp : Type := list item.

(** The Perl class [\s] is [[\t\n\f\r ]], and [\d] is [[0-9]]. *)
Definition class_s (c : ascii) : bool :=
  Ascii.eqb c "009" || Ascii.eqb c "010" || Ascii.eqb c "012"
  || Ascii.eqb c "013" || Ascii.eqb c " ".

Definition class_d (c : ascii) : bool := between "0" "9" c.

Definition class_of_escape (x : ascii) : option (ascii -> bool) :=
  if Ascii.eqb x "s" then Some class_s
  else if Ascii.eqb x "d" then Some class_d
  else None.

(** Bytes with a meaning of their own in the syntax. *)
Definition isMeta (c : ascii) : bool :=
  existsb (Ascii.eqb c) (lit "\.+*?()|[]{}^$").

(** [regexp.Compile] on the part of the syntax made of literal bytes, [\s],
    [\d] and the postfix operators [*] and [+]; [None] is a compile error.  *)
Fixpoint Compile (expr : gostring) : option Regexp :=
  match expr with
  | [] => Some []
  | c :: rest =>
      let quantified (cl : ascii -> bool) (r : gostring) : option Regexp :=
        match r with
        | q :: r' =>
            if Ascii.eqb q "*" then
              option_map (cons {| cls := cl; rep := Star |}) (Compile r')
            else if Ascii.eqb q "+" then
              option_map (cons {| cls := cl; rep := Plus |}) (Compile r')
            else option_map (cons {| cls := cl; rep := One |}) (Compile r)
        | [] => Some [{| cls := cl; rep := One |}]
        end in
      if Ascii.eqb c "\" then
        match rest with
        | x :: rest' =>
            match class_of_escape x with
            | Some cl => quantified cl rest'
            | None => None
            end
        | [] => None
        end
      else if isMeta c then None
      else quantified (Ascii.eqb c) rest
  end.

(** The length of the preferred match of [re] at the start of [s]. *)
Fixpoint matchHere (re : Regexp) (s : gostring) {struct re} : option nat :=
  match re with
  | [] => Some 0
  | it :: re' =>
      let star :=
        fix star (s : gostring) : option nat :=
          match s with
          | c :: s' =>
              if cls it c then
                match star s' with
                | Some n => Some (S n)
                | None => matchHere re' s
                end
              else matchHere re' s
          | [] => matchHere re' []
          end in
      match rep it with
      | One =>
          match s with
          | c :: s' => if cls it c then option_map S (matchHere re' s') else None
          | [] => None
          end
      | Star => star s
      | Plus =>
          match s with
          | c :: s' => if cls it c then option_map S (star s') else None
          | [] => None
          end
      end
  end.

Fixpoint findFrom (re : Regexp) (s : gostring) (pos : nat) : option (nat * nat) :=
  match matchHere re s with
  | Some n => Some (pos, pos + n)
  | None =>
      match s with
      | [] => None
      | _ :: s' => findFrom re s' (S pos)
      end
  end.

(** [FindStringIndex] of a compiled pattern: the two-element slice [loc] of
    the leftmost match, or nil ([None]). *)
Definition FindStringIndex (re : Regexp) (s : gostring) : option (nat * nat) :=
  findFrom re s 0.

End regexp.

(** ** Package net/url of the Go library, as of Go 1.11: [Parse] and
       [String], with the escaping they rest on. *)
Module url.

Inductive encoding : Type :=
| encodePath
| encodePathSegment
| encodeHost
| encodeZone
| encodeUserPassword
| encodeQueryComponent
| encodeFragment.

Definition isHostMode (mode : encoding) : bool :=
  match mode with encodeHost | encodeZone => true | _ => false end.

Definition isQueryComponent (mode : encoding) : bool :=
  match mode with encodeQueryComponent => true | _ => false end.

(** The errors of the package: [EscapeError], [InvalidHostError], the error
    of an invalid port (with the offending text), and those made by
    [errors.New]. *)
Inductive urlerror : Type :=
| EscapeError (s : gostring)
| InvalidHostError (s : gostring)
| InvalidPortError (colonPort : gostring)
| errors_New (text : gostring).

(** [url.Error] *)
Record Error : Type := {
  Op : gostring;
  ErrURL : gostring;
  ErrCause : urlerror
}.

Record Userinfo : Type := {
  username : gostring;
  password : gostring;
  passwordSet : bool
}.

Record URL : Type := {
  Scheme : gostring;
  Opaque : gostring;
  User : option Userinfo;
  Host : gostring;
  Path : gostring;
  RawPath : gostring;
  ForceQuery : bool;
  RawQuery : gostring;
  Fragment : gostring
}.

Definition isAlpha (c : ascii) : bool := between "a" "z" c || between "A" "Z" c.
Definition isDigit (c : ascii) : bool := between "0" "9" c.
Definition oneOf (set : gostring) (c : ascii) : bool := existsb (Ascii.eqb c) set.

Definition ishex (c : ascii) : bool :=
  isDigit c || between "a" "f" c || between "A" "F" c.

Definition unhex (c : ascii) : N :=
  if isDigit c then byte_val c - 48
  else if between "a" "f" c then byte_val c - 97 + 10
  else if between "A" "F" c then byte_val c - 65 + 10
  else 0.

Definition dquote : ascii := ascii_of_N 34.

Definition shouldEscape (c : ascii) (mode : encoding) : bool :=
  if isAlpha c || isDigit c then false
  else if isHostMode mode && oneOf (lit "!$&'()*+,;=:[]<>" ++ [dquote]) c then false
  else if oneOf (lit "-_.~") c then false
  else if oneOf (lit "$&+,/:;=?@") c then
    match mode with
    | encodePath => Ascii.eqb c "?"
    | encodePathSegment => oneOf (lit "/;,?") c
    | encodeUserPassword => oneOf (lit "@/?:") c
    | encodeQueryComponent => true
    | encodeFragment => false
    | encodeHost | encodeZone => true
    end
  else true.

Definition hexDigit (n : N) : ascii :=
  nth (N.to_nat n) (lit "0123456789ABCDEF") "0"%char.

Fixpoint escape (s : gostring) (mode : encoding) : gostring :=
  match s with
  | [] => []
  | c :: s' =>
      if Ascii.eqb c " " && isQueryComponent mode then "+"%char :: escape s' mode
      else if shouldEscape c mode then
        "%"%char :: hexDigit (byte_val c / 16) :: hexDigit (byte_val c mod 16)
          :: escape s' mode
      else c :: escape s' mode
  end.

Definition pct25 (h1 h2 : ascii) : bool := Ascii.eqb h1 "2" && Ascii.eqb h2 "5".

(** [unescape]: the first offence from the left is the error. *)
Fixpoint unescape (s : gostring) (mode : encoding) : result urlerror gostring :=
  match s with
  | [] => OK []
  | c :: s1 =>
      if Ascii.eqb c "%" then
        match s1 with
        | h1 :: h2 :: s3 =>
            if ishex h1 && ishex h2 then
              let v := ascii_of_N (unhex h1 * 16 + unhex h2) in
              match mode with
              | encodeHost =>
                  if (unhex h1 <? 8)%N && negb (pct25 h1 h2)
                  then Err (EscapeError [c; h1; h2])
                  else match unescape s3 mode with
                       | OK t => OK (v :: t)
                       | Err e => Err e
                       end
              | encodeZone =>
                  if negb (pct25 h1 h2) && negb (Ascii.eqb v " ")
                     && shouldEscape v encodeHost
                  then Err (EscapeError [c; h1; h2])
                  else match unescape s3 mode with
                       | OK t => OK (v :: t)
                       | Err e => Err e
                       end
              | _ =>
                  match unescape s3 mode with
                  | OK t => OK (v :: t)
                  | Err e => Err e
                  end
              end
            else Err (EscapeError (firstn 3 s))
        | _ => Err (EscapeError (firstn 3 s))
        end
      else if Ascii.eqb c "+" then
        match unescape s1 mode with
        | OK t => OK ((if isQueryComponent mode then " "%char else "+"%char) :: t)
        | Err e => Err e
        end
      else if isHostMode mode && (byte_val c <? 128)%N && shouldEscape c encodeHost
      then Err (InvalidHostError [c])
      else match unescape s1 mode with
           | OK t => OK (c :: t)
           | Err e => Err e
           end
  end.

(** [getscheme]: the scheme and the rest, or the error of a leading colon. *)
Fixpoint getscheme_from (rawurl : gostring) (seen : gostring) (s : gostring)
  : result urlerror (gostring * gostring) :=
  match s with
  | [] => OK ([], rawurl)
  | c :: s' =>
      if isAlpha c then getscheme_from rawurl (seen ++ [c]) s'
      else if isDigit c || oneOf (lit "+-.") c then
        match seen with
        | [] => OK ([], rawurl)
        | _ => getscheme_from rawurl (seen ++ [c]) s'
        end
      else if Ascii.eqb c ":" then
        match seen with
        | [] => Err (errors_New (lit "missing protocol scheme"))
        | _ => OK (seen, s')
        end
      else OK ([], rawurl)
  end.

Definition getscheme (rawurl : gostring) : result urlerror (gostring * gostring) :=
  getscheme_from rawurl [] rawurl.

(** [split(s, c, cutc)] for a one-byte [c]. *)
Definition split (s : gostring) (c : ascii) (cutc : bool) : gostring * gostring :=
  match strings.Index s [c] with
  | None => (s, [])
  | Some i => (firstn i s, skipn (if cutc then S i else i) s)
  end.

Definition validOptionalPort (port : gostring) : bool :=
  match port with
  | [] => true
  | c :: digits => Ascii.eqb c ":" && forallb isDigit digits
  end.

Definition validUserinfo (s : gostring) : bool :=
  forallb (fun c => isAlpha c || isDigit c || oneOf (lit "-._:~!$&'()*+,;=%@") c) s.

Definition parseHost (host : gostring) : result urlerror gostring :=
  if strings.HasPrefix host (lit "[") then
    match strings.LastIndex host (lit "]") with
    | None => Err (errors_New (lit "missing ']' in host"))
    | Some i =>
        let colonPort := skipn (S i) host in
        if negb (validOptionalPort colonPort) then Err (InvalidPortError colonPort)
        else
          match strings.Index (firstn i host) (lit "%25") with
          | Some zone =>
              match unescape (firstn zone host) encodeHost with
              | Err e => Err e
              | OK host1 =>
                  match unescape (firstn (i - zone) (skipn zone host)) encodeZone with
                  | Err e => Err e
                  | OK host2 =>
                      match unescape (skipn i host) encodeHost with
                      | Err e => Err e
                      | OK host3 => OK (host1 ++ host2 ++ host3)
                      end
                  end
              end
          | None => unescape host encodeHost
          end
    end
  else unescape host encodeHost.

Definition parseAuthority (authority : gostring)
  : result urlerror (option Userinfo * gostring) :=
  match strings.LastIndex authority (lit "@") with
  | None =>
      match parseHost authority with
      | Err e => Err e
      | OK host => OK (None, host)
      end
  | Some i =>
      match parseHost (skipn (S i) authority) with
      | Err e => Err e
      | OK host =>
          let userinfo := firstn i authority in
          if negb (validUserinfo userinfo)
          then Err (errors_New (lit "net/url: invalid userinfo"))
          else if negb (strings.Contains userinfo (lit ":")) then
            match unescape userinfo encodeUserPassword with
            | Err e => Err e
            | OK name =>
                OK (Some {| username := name; password := []; passwordSet := false |},
                    host)
            end
          else
            let (name0, pass0) := split userinfo ":" true in
            match unescape name0 encodeUserPassword with
            | Err e => Err e
            | OK name =>
                match unescape pass0 encodeUserPassword with
                | Err e => Err e
                | OK pass =>
                    OK (Some {| username := name; password := pass;
                                passwordSet := true |}, host)
                end
            end
      end
  end.

(** [parse(rawurl, false)] *)
Definition parse (rawurl : gostring) : result urlerror URL :=
  if gostring_eqb rawurl (lit "*") then
    OK {| Scheme := []; Opaque := []; User := None; Host := []; Path := lit "*";
          RawPath := []; ForceQuery := false; RawQuery := []; Fragment := [] |}
  else
    match getscheme rawurl with
    | Err e => Err e
    | OK (scheme0, rest0) =>
        (* the scheme is made of ASCII bytes: ToLower maps it byte by byte *)
        let scheme := map strings.lowerByte scheme0 in
        let '(rest1, forceQuery, rawQuery) :=
          if strings.HasSuffix rest0 (lit "?") && (strings.Count rest0 "?" =? 1)
          then (removelast rest0, true, [])
          else let (r, q) := split rest0 "?" true in (r, false, q) in
        if negb (strings.HasPrefix rest1 (lit "/")) && negb (gostring_eqb scheme [])
        then
          OK {| Scheme := scheme; Opaque := rest1; User := None; Host := [];
                Path := []; RawPath := []; ForceQuery := forceQuery;
                RawQuery := rawQuery; Fragment := [] |}
        else if negb (strings.HasPrefix rest1 (lit "/"))
                && match strings.Index rest1 (lit ":"), strings.Index rest1 (lit "/") with
                   | Some colon, None => true
                   | Some colon, Some slash => colon <? slash
                   | None, _ => false
                   end
        then Err (errors_New (lit "first path segment in URL cannot contain colon"))
        else
          let authorityResult :=
            if (negb (gostring_eqb scheme []) || negb (strings.HasPrefix rest1 (lit "///")))
               && strings.HasPrefix rest1 (lit "//")
            then
              let (authority, rest2) := split (skipn 2 rest1) "/" false in
              match parseAuthority authority with
              | Err e => Err e
              | OK (user, host) => OK (user, host, rest2)
              end
            else OK (None, [], rest1) in
          match authorityResult with
          | Err e => Err e
          | OK (user, host, rest2) =>
              (* setPath *)
              match unescape rest2 encodePath with
              | Err e => Err e
              | OK path =>
                  OK {| Scheme := scheme; Opaque := []; User := user; Host := host;
                        Path := path;
                        RawPath := if gostring_eqb rest2 (escape path encodePath)
                                   then [] else rest2;
                        ForceQuery := forceQuery; RawQuery := rawQuery;
                        Fragment := [] |}
              end
          end
    end.

Definition setFragment (u : URL) (frag : gostring) : URL :=
  {| Scheme := Scheme u; Opaque := Opaque u; User := User u; Host := Host u;
     Path := Path u; RawPath := RawPath u; ForceQuery := ForceQuery u;
     RawQuery := RawQuery u; Fragment := frag |}.

(** [url.Parse] *)
Definition Parse (rawurl : gostring) : result Error URL :=
  let (u, frag) := split rawurl "#" true in
  match parse u with
  | Err e => Err {| Op := lit "parse"; ErrURL := u; ErrCause := e |}
  | OK url =>
      match frag with
      | [] => OK url
      | _ =>
          match unescape frag encodeFragment with
          | Err e => Err {| Op := lit "parse"; ErrURL := rawurl; ErrCause := e |}
          | OK f => OK (setFragment url f)
          end
      end
  end.

Definition Userinfo_String (u : Userinfo) : gostring :=
  escape (username u) encodeUserPassword
    ++ (if passwordSet u then ":"%char :: escape (password u) encodeUserPassword
        else []).

Definition validEncodedPath (s : gostring) : bool :=
  forallb (fun c => oneOf (lit "!$&'()*+,;=:@[]%") c || negb (shouldEscape c encodePath)) s.

Definition EscapedPath (u : URL) : gostring :=
  if negb (gostring_eqb (RawPath u) []) && validEncodedPath (RawPath u)
     && match unescape (RawPath u) encodePath with
        | OK p => gostring_eqb p (Path u)
        | Err _ => false
        end
  then RawPath u
  else if gostring_eqb (Path u) (lit "*") then lit "*"
  else escape (Path u) encodePath.

Definition isSome {A} (o : option A) : bool :=
  match o with Some _ => true | None => false end.

(** [(u *URL) String()] *)
Definition String (u : URL) : gostring :=
  let nonEmpty (s : gostring) := negb (gostring_eqb s []) in
  let buf1 := if nonEmpty (Scheme u) then Scheme u ++ lit ":" else [] in
  let buf2 :=
    if nonEmpty (Opaque u) then buf1 ++ Opaque u
    else
      let buf_a :=
        if nonEmpty (Scheme u) || nonEmpty (Host u) || isSome (User u) then
          buf1
            ++ (if nonEmpty (Host u) || nonEmpty (Path u) || isSome (User u)
                then lit "//" else [])
            ++ match User u with
               | Some ui => Userinfo_String ui ++ lit "@"
               | None => []
               end
            ++ (if nonEmpty (Host u) then escape (Host u) encodeHost else [])
        else buf1 in
      let path := EscapedPath u in
      let buf_b :=
        if nonEmpty path && negb (strings.HasPrefix path (lit "/")) && nonEmpty (Host u)
        then buf_a ++ lit "/" else buf_a in
      let buf_c :=
        match buf_b with
        | [] =>
            match strings.Index path (lit ":") with
            | Some i =>
                if strings.Contains (firstn i path) (lit "/") then buf_b
                else lit "./"
            | None => buf_b
            end
        | _ => buf_b
        end in
      buf_c ++ path in
  let buf3 :=
    if ForceQuery u || nonEmpty (RawQuery u) then buf2 ++ lit "?" ++ RawQuery u
    else buf2 in
  if nonEmpty (Fragment u) then buf3 ++ lit "#" ++ escape (Fragment u) encodeFragment
  else buf3.

End url.

(** ** Package net of the Go library: [SplitHostPort]. *)
Module net.

Definition missingPort : gostring := lit "missing port in address".
Definition tooManyColons : gostring := lit "too many colons in address".

(** [net.SplitHostPort]: host and port, or the reason of the [AddrError]. *)
Definition SplitHostPort (hostport : gostring) : result gostring (gostring * gostring) :=
  match strings.LastIndex hostport (lit ":") with
  | None => Err missingPort
  | Some i =>
      let bracketed :=
        match hostport with
        | c :: _ => Ascii.eqb c "["
        | [] => false
        end in
      let checked : result gostring (gostring * nat * nat) :=
        if bracketed then
          match strings.Index hostport (lit "]") with
          | None => Err (lit "missing ']' in address")
          | Some e =>
              if S e =? List.length hostport then Err missingPort
              else if S e =? i then OK (firstn (e - 1) (skipn 1 hostport), 1, S e)
              else if Ascii.eqb (nth (S e) hostport "000"%char) ":"
                   then Err tooManyColons
                   else Err missingPort
          end
        else
          let host := firstn i hostport in
          if strings.Contains host (lit ":") then Err tooManyColons
          else OK (host, 0, 0) in
      match checked with
      | Err why => Err why
      | OK (host, j, k) =>
          if strings.Contains (skipn j hostport) (lit "[")
          then Err (lit "unexpected '[' in address")
          else if strings.Contains (skipn k hostport) (lit "]")
          then Err (lit "unexpected ']' in address")
          else OK (host, skipn (S i) hostport)
      end
  end.

End net.

(** ** The address validator of the utilities package (package utils). *)
Module utils.

(** The errors of [ParseHostPortAddr]: the traced error of [url.Parse], or
    one made by [errors.Errorf] from a format and the candidate. *)
Inductive error : Type :=
| errors_Trace (e : url.Error)
| errors_Errorf (format : gostring) (arg : gostring).

Definition formatScheme : gostring :=
  lit "URL scheme must be http, https, unix, or unixs: %s".
Definition formatHostPort : gostring :=
  lit "URL address does not have the form " ++ [url.dquote] ++ lit "host:port"
    ++ [url.dquote] ++ lit ": %s".
Definition formatPath : gostring :=
  lit "URL must not contain a path: %s".

(** The body of the loop for one piece [str] of the input: the address to
    append, or the error to return. *)
Definition parseOne (str : gostring) : result error gostring :=
  let str := strings.TrimSpace str in
  let str := if negb (strings.Contains str (lit "http"))
             then lit "http://" ++ str       (* fmt.Sprintf("http://%s", str) *)
             else str in
  match url.Parse str with
  | Err e => Err (errors_Trace e)
  | OK u =>
      if negb (gostring_eqb (url.Scheme u) (lit "http"))
         && negb (gostring_eqb (url.Scheme u) (lit "https"))
         && negb (gostring_eqb (url.Scheme u) (lit "unix"))
         && negb (gostring_eqb (url.Scheme u) (lit "unixs"))
      then Err (errors_Errorf formatScheme str)
      else
        match net.SplitHostPort (url.Host u) with
        | Err _ => Err (errors_Errorf formatHostPort str)
        | OK _ =>
            if negb (gostring_eqb (url.Path u) [])
            then Err (errors_Errorf formatPath str)
            else OK (url.String u)
        end
  end.

(** The loop over the pieces, appending to [addrs] and returning at the
    first error. *)
Fixpoint parseLoop (strs : list gostring) (addrs : list gostring)
  : result error (list gostring) :=
  match strs with
  | [] => OK addrs
  | str :: rest =>
      match parseOne str with
      | Err e => Err e
      | OK a => parseLoop rest (addrs ++ [a])
      end
  end.

(** [ParseHostPortAddr] *)
Definition ParseHostPortAddr (s : gostring) : result error (list gostring) :=
  let strs := strings.Split s "," in
  parseLoop strs [].

End utils.

(** ** State passing for the package-level variables *)

(** A computation over a world [W]: it returns a value and the next world. *)
Definition M (W A : Type) : Type := W -> A * W.

Definition ret {W A} (a : A) : M W A := fun w => (a, w).

Definition bind {W A B} (m : M W A) (k : A -> M W B) : M W B :=
  fun w => let (a, w') := m w in k a w'.

Declare Scope go_scope.
Delimit Scope go_scope with go.
Notation "x <- m ;; k" := (bind m (fun x => k))
  (at level 61, m at next level, right associativity) : go_scope.
Notation "m ;;; k" := (bind m (fun _ => k))
  (at level 61, right associativity) : go_scope.

(** [uint32] arithmetic wraps around. *)
Definition uint32 (z : Z) : Z := (z mod 2 ^ 32)%Z.

(** ** sessionctx/binloginfo/binloginfo.go *)
Module binloginfo.

Local Open Scope Z_scope.

(** [binlog.BinlogType] of tipb. *)
Inductive BinlogType : Type :=
| BinlogType_Prewrite
| BinlogType_Commit
| BinlogType_Rollback
| BinlogType_PreDDL
| BinlogType_PostDDL.

(** [binlog.Binlog] of tipb; a struct literal leaves the fields it does not
    name at their zero values. *)
Record Binlog : Type := {
  Tp : BinlogType;
  StartTs : Z;
  CommitTs : Z;
  PrewriteKey : gostring;
  PrewriteValue : gostring;
  DdlQuery : gostring;
  DdlJobId : Z
}.

(** The package-level variables [skipBinlog] and [ignoreError], the
    critical-error metric, and the record of the relay calls made (newest
    first). *)
Record World : Type := {
  skipBinlog : Z;
  ignoreError : Z;
  CriticalErrorCounter : Z;
  pumpCalls : list Binlog
}.

(** Modelled from the spec: [metrics.CriticalErrorCounter] of the metrics
    package, which is not among the sources; the spec has it as a counter
    that a dropped or ignored write increments, so it is the sum of the
    amounts added. *)
Definition addCritical (n : Z) (w : World) : World :=
  {| skipBinlog := skipBinlog w;
     ignoreError := ignoreError w;
     CriticalErrorCounter := CriticalErrorCounter w + n;
     pumpCalls := pumpCalls w |}.

Definition CriticalErrorCounter_Add (n : Z) : M World unit :=
  fun w => (tt, addCritical n w).

(** The addresses the atomic operations are applied to. *)
Inductive addr : Type :=
| addr_skipBinlog      (* &skipBinlog *)
| addr_ignoreError.    (* &ignoreError *)

Definition load (a : addr) (w : World) : Z :=
  match a with
  | addr_skipBinlog => skipBinlog w
  | addr_ignoreError => ignoreError w
  end.

Definition store (a : addr) (v : Z) (w : World) : World :=
  match a with
  | addr_skipBinlog =>
      {| skipBinlog := v; ignoreError := ignoreError w;
         CriticalErrorCounter := CriticalErrorCounter w;
         pumpCalls := pumpCalls w |}
  | addr_ignoreError =>
      {| skipBinlog := skipBinlog w; ignoreError := v;
         CriticalErrorCounter := CriticalErrorCounter w;
         pumpCalls := pumpCalls w |}
  end.

(** sync/atomic *)
Definition LoadUint32 (a : addr) : M World Z :=
  fun w => (load a w, w).

Definition StoreUint32 (a : addr) (v : Z) : M World unit :=
  fun w => (tt, store a v w).

Definition CompareAndSwapUint32 (a : addr) (old new : Z) : M World bool :=
  fun w => if load a w =? old then (true, store a new w) else (false, w).

(** The relay client [pumpcli.PumpsClient] of tidb-tools, seen from this
    package: its [WriteBinlog] blocks, and returns nil or an error, of which
    the code reads the text [err.Error()].  While the call is in flight the
    other writers of the process run, so the call comes back with the world
    as they left it. *)
Record PumpsClient : Type := {
  pumps_WriteBinlog : Binlog -> World -> option gostring * World
}.

(** [info.Client.WriteBinlog(info.Data)], recorded in [pumpCalls]. *)
Definition recordCall (data : Binlog) (w : World) : World :=
  {| skipBinlog := skipBinlog w;
     ignoreError := ignoreError w;
     CriticalErrorCounter := CriticalErrorCounter w;
     pumpCalls := data :: pumpCalls w |}.

Definition Client_WriteBinlog (c : PumpsClient) (data : Binlog)
  : M World (option gostring) :=
  fun w =>
    let (err, w') := pumps_WriteBinlog c data w in
    (err, recordCall data w').

(** [BinlogInfo]: a nil [Client] is [None]. *)
Record BinlogInfo : Type := {
  Data : Binlog;
  Client : option PumpsClient
}.

(** The errors [WriteBinlog] returns: one made by [errors.New] or
    [errors.Errorf] with its text, or [terror.ErrCritical] generated with
    the relay error as its argument. *)
Inductive error : Type :=
| errors_New (text : gostring)
| ErrCritical_GenWithStackByArgs (arg : gostring).

Definition DisableSkipBinlogFlag : M World unit :=
  StoreUint32 addr_skipBinlog 0.

Definition SetIgnoreError (on : bool) : M World unit :=
  if on then StoreUint32 addr_ignoreError 1
  else StoreUint32 addr_ignoreError 0.

Open Scope go_scope.

(** [func (info *BinlogInfo) WriteBinlog(clusterID uint64) error]; a nil
    error is [None]. *)
Definition WriteBinlog (info : BinlogInfo) (clusterID : Z)
  : M World (option error) :=
  skip <- LoadUint32 addr_skipBinlog ;;
  if 0 <? skip then
    CriticalErrorCounter_Add 1 ;;;
    ret None
  else
    match Client info with
    | None => ret (Some (errors_New (lit "pumps client is nil")))
    | Some client =>
        err <- Client_WriteBinlog client (Data info) ;;
        match err with
        | Some e =>
            ignore <- LoadUint32 addr_ignoreError ;;
            if ignore =? 1 then
              CriticalErrorCounter_Add 1 ;;;
              CompareAndSwapUint32 addr_skipBinlog skip (uint32 (skip + 1)) ;;;
              ret None
            else if strings.Contains e (lit "received message larger than max") then
              ret (Some (errors_New
                           (lit "binlog data is too large (" ++ e ++ lit ")")))
            else
              ret (Some (ErrCritical_GenWithStackByArgs e))
        | None => ret None
        end
    end.

(** Writes one after the other, as one writer issues them. *)
Fixpoint WriteBinlogs (infos : list BinlogInfo) (clusterID : Z)
  : M World (list (option error)) :=
  match infos with
  | [] => ret []
  | info :: rest =>
      r <- WriteBinlog info clusterID ;;
      rs <- WriteBinlogs rest clusterID ;;
      ret (r :: rs)
  end.

Close Scope go_scope.

Definition specialPrefix : gostring := lit "/*!90000 ".

Definition shardPattern : gostring := lit "SHARD_ROW_ID_BITS\s*=\s*\d+".

(** Modelled from the spec: the transaction collaborator [kv.Transaction]
    of the kv package, which is not among the sources; the spec has it
    supply a key-value slot (the BinlogInfo option) into which the
    {event, client} pair is attached.  [BinlogInfo] is the key [kv.BinlogInfo],
    [OtherOption] stands for the other keys. *)
Inductive Option : Type :=
| kv_BinlogInfo
| kv_OtherOption (n : nat).

Inductive OptionValue : Type :=
| val_BinlogInfo (info : BinlogInfo)
| val_other (v : Z).

Record Transaction : Type := {
  options : Option -> option OptionValue
}.

Definition Option_eqb (a b : Option) : bool :=
  match a, b with
  | kv_BinlogInfo, kv_BinlogInfo => true
  | kv_OtherOption n, kv_OtherOption m => Nat.eqb n m
  | _, _ => false
  end.

(** [txn.SetOption(opt, val)] *)
Definition SetOption (txn : Transaction) (opt : Option) (val : OptionValue)
  : Transaction :=
  {| options := fun o => if Option_eqb o opt then Some val else options txn o |}.

Section Annotate.
Variable mapToUpper : gostring -> gostring.

(** [addSpecialComment]; [None] is a run-time panic (a slice out of range,
    or a call on the nil pattern of a failed compile). *)
Definition addSpecialComment (ddlQuery : gostring) : option gostring :=
  if strings.Contains ddlQuery specialPrefix then Some ddlQuery
  else
    let upperQuery := strings.ToUpper mapToUpper ddlQuery in
    match regexp.Compile shardPattern with
    | None => None
    | Some reg =>
        match regexp.FindStringIndex reg upperQuery with
        | None => Some ddlQuery
        | Some (lo, hi) =>
            match slice_to ddlQuery lo, slice ddlQuery lo hi, slice_from ddlQuery hi with
            | Some before, Some clause, Some after =>
                Some (before ++ specialPrefix ++ clause ++ lit " */" ++ after)
            | _, _, _ => None
            end
        end
    end.

(** [SetDDLBinlog]: the transaction it leaves, [None] when
    [addSpecialComment] panics. *)
Definition SetDDLBinlog (client : option PumpsClient) (txn : Transaction)
           (jobID : Z) (ddlQuery : gostring) : option Transaction :=
  match client with
  | None => Some txn
  | Some c =>
      match addSpecialComment ddlQuery with
      | None => None
      | Some ddlQuery' =>
          let info :=
            {| Data := {| Tp := BinlogType_Prewrite;
                          StartTs := 0;
                          CommitTs := 0;
                          PrewriteKey := [];
                          PrewriteValue := [];
                          DdlQuery := ddlQuery';
                          DdlJobId := jobID |};
               Client := Some c |} in
          Some (SetOption txn kv_BinlogInfo (val_BinlogInfo info))
      end
  end.
End Annotate.

End binloginfo.

(** Package time of the Go library: a [Duration] counts nanoseconds. *)
Module time.
Definition Nanosecond : Z := 1.
Definition Microsecond : Z := 1000 * Nanosecond.
Definition Millisecond : Z := 1000 * Microsecond.
Definition Second : Z := 1000 * Millisecond.
End time.

(** ** The earlier revision of package binloginfo (source part_001) *)
Module part_001.

Local Open Scope Z_scope.

(** The package-level variables [binlogWriteTimeout], [skipBinlog] and
    [ignoreError]. *)
Record World : Type := {
  binlogWriteTimeout : Z;
  skipBinlog : Z;
  ignoreError : Z
}.

(** [var binlogWriteTimeout = 15 * time.Second] *)
Definition initialWorld : World :=
  {| binlogWriteTimeout := 15 * time.Second; skipBinlog := 0; ignoreError := 0 |}.

(** [SetGRPCTimeout] *)
Definition SetGRPCTimeout (timeout : Z) : M World unit :=
  if timeout <? 300 * time.Millisecond then ret tt
  else fun w => (tt, {| binlogWriteTimeout := timeout;
                        skipBinlog := skipBinlog w;
                        ignoreError := ignoreError w |}).

(** The argument [client interface{}]: the nil interface, an interface that
    holds a [*PumpsClient] (a nil pointer or not), or one that holds a value
    of another type. *)
Inductive iface : Type :=
| iface_nil
| iface_PumpsClient (p : option binloginfo.PumpsClient)
| iface_other.

Definition specialPrefix : gostring := lit "/*!90000 ".

Section Annotate.
Variable mapToUpper : gostring -> gostring.

(** [addSpecialComment], the same text as in the later revision. *)
Definition addSpecialComment (ddlQuery : gostring) : option gostring :=
  if strings.Contains ddlQuery specialPrefix then Some ddlQuery
  else
    let upperQuery := strings.ToUpper mapToUpper ddlQuery in
    match regexp.Compile (lit "SHARD_ROW_ID_BITS\s*=\s*\d+") with
    | None => None
    | Some reg =>
        match regexp.FindStringIndex reg upperQuery with
        | None => Some ddlQuery
        | Some (lo, hi) =>
            match slice_to ddlQuery lo, slice ddlQuery lo hi, slice_from ddlQuery hi with
            | Some before, Some clause, Some after =>
                Some (before ++ specialPrefix ++ clause ++ lit " */" ++ after)
            | _, _, _ => None
            end
        end
    end.

(** [SetDDLBinlog]: the transaction it leaves; [None] is a panic, of
    [addSpecialComment] or of the type assertion on [client]. *)
Definition SetDDLBinlog (client : iface) (txn : binloginfo.Transaction)
           (jobID : Z) (ddlQuery : gostring) : option binloginfo.Transaction :=
  match client with
  | iface_nil => Some txn
  | _ =>
      match addSpecialComment ddlQuery with
      | None => None
      | Some ddlQuery' =>
          match client with
          | iface_PumpsClient p =>
              let info :=
                {| binloginfo.Data :=
                     {| binloginfo.Tp := binloginfo.BinlogType_Prewrite;
                        binloginfo.StartTs := 0;
                        binloginfo.CommitTs := 0;
                        binloginfo.PrewriteKey := [];
                        binloginfo.PrewriteValue := [];
                        binloginfo.DdlQuery := ddlQuery';
                        binloginfo.DdlJobId := jobID |};
                   binloginfo.Client := p |} in
              Some (binloginfo.SetOption txn binloginfo.kv_BinlogInfo
                      (binloginfo.val_BinlogInfo info))
          | _ => None
          end
      end
  end.
End Annotate.

End part_001.

(** ** An excerpt of the case tables of package unicode

    For the examples a rune mapping is needed.  This one upper-cases the
    ASCII letters, U+0131 (dotless i, bytes C4 B1, upper case [I]) and U+0250
    (turned a, bytes C9 90, upper case U+2C6F, bytes E2 B1 AF), and keeps every
    other byte; it is [strings.Map(unicode.ToUpper, s)] on the texts whose
    other runes have no upper case of their own. *)
Module unicode.

Fixpoint mapToUpper (s : gostring) : gostring :=
  match s with
  | [] => []
  | c1 :: s1 =>
      match s1 with
      | c2 :: s2 =>
          if (byte_val c1 =? 196)%N && (byte_val c2 =? 177)%N
          then "I"%char :: mapToUpper s2
          else if (byte_val c1 =? 201)%N && (byte_val c2 =? 144)%N
          then ascii_of_N 226 :: ascii_of_N 177 :: ascii_of_N 175 :: mapToUpper s2
          else strings.upperByte c1 :: mapToUpper s1
      | [] => [strings.upperByte c1]
      end
  end.

(** The UTF-8 encodings of U+0131 and U+0250. *)
Definition dotless_i : gostring := [ascii_of_N 196; ascii_of_N 177].
Definition turned_a : gostring := [ascii_of_N 201; ascii_of_N 144].

End unicode.

(** * Definitions for the statements

    The words of the claims, and the sample values of the examples. *)

(** ** For the write coordinator *)
Module CoordinatorDefs.
Import binloginfo.
Local Open Scope Z_scope.

(** The text by which the code recognises an oversized message. *)
Definition tooLarge : gostring := lit "received message larger than max".

(** An error that is not the critical one. *)
Definition nonFatal (e : error) : Prop :=
  match e with
  | errors_New _ => True
  | ErrCritical_GenWithStackByArgs _ => False
  end.

(** A relay client whose every call fails with the given text and changes
    nothing. *)
Definition failingClient (text : gostring) : PumpsClient :=
  {| pumps_WriteBinlog := fun _ w => (Some text, w) |}.

Definition grpcTooLarge : gostring :=
  lit "rpc error: code = ResourceExhausted desc = grpc: received message larger than max (5242880 vs. 4194304)".

Definition sampleBinlog : Binlog :=
  {| Tp := BinlogType_Prewrite; StartTs := 7; CommitTs := 0; PrewriteKey := [];
     PrewriteValue := []; DdlQuery := []; DdlJobId := 0 |}.

Definition sampleInfo (text : gostring) : BinlogInfo :=
  {| Data := sampleBinlog; Client := Some (failingClient text) |}.

Definition closedWorld (ignore : Z) : World :=
  {| skipBinlog := 0; ignoreError := ignore; CriticalErrorCounter := 0;
     pumpCalls := [] |}.

Definition openWorld : World :=
  {| skipBinlog := 1; ignoreError := 1; CriticalErrorCounter := 0;
     pumpCalls := [] |}.

(** A relay client during whose failing call another writer makes its own
    write of [inner], from entry to return. *)
Definition overlappedClient (inner : BinlogInfo) (text : gostring) : PumpsClient :=
  {| pumps_WriteBinlog := fun _ w => (Some text, snd (WriteBinlog inner 1 w)) |}.

End CoordinatorDefs.

(** ** For the patterns *)
Module RegexpDefs.
Import regexp.

(** The item of a literal byte. *)
Definition litItem (c : ascii) : item := {| cls := Ascii.eqb c; rep := One |}.

(** The same class, repeated any number of times. *)
Definition starItem (it : item) : item := {| cls := cls it; rep := Star |}.

Definition allOf (it : item) (cs : gostring) : Prop :=
  Forall (fun c => cls it c = true) cs.

(** The texts a pattern stands for, item by item. *)
Inductive matches : Regexp -> gostring -> Prop :=
| matches_nil : matches [] []
| matches_one it re c t :
    rep it = One -> cls it c = true -> matches re t -> matches (it :: re) (c :: t)
| matches_star it re cs t :
    rep it = Star -> allOf it cs -> matches re t -> matches (it :: re) (cs ++ t)
| matches_plus it re c cs t :
    rep it = Plus -> cls it c = true -> allOf it cs -> matches re t ->
    matches (it :: re) (c :: cs ++ t).

End RegexpDefs.

(** ** For the DDL annotator *)
Module AnnotatorDefs.
Import binloginfo.

(** The compiled form of the pattern: the literal bytes of the keyword, then
    [\s*], [=], [\s*], [\d+]. *)
Definition shardRegexp : regexp.Regexp :=
  map RegexpDefs.litItem (lit "SHARD_ROW_ID_BITS")
  ++ [ {| regexp.cls := regexp.class_s; regexp.rep := regexp.Star |};
       {| regexp.cls := Ascii.eqb "="; regexp.rep := regexp.One |};
       {| regexp.cls := regexp.class_s; regexp.rep := regexp.Star |};
       {| regexp.cls := regexp.class_d; regexp.rep := regexp.Plus |} ].

(** The event [SetDDLBinlog] attaches. *)
Definition ddlInfo (client : option PumpsClient) (jobID : Z) (query : gostring)
  : BinlogInfo :=
  {| Data := {| Tp := BinlogType_Prewrite; StartTs := 0%Z; CommitTs := 0%Z;
                PrewriteKey := []; PrewriteValue := [];
                DdlQuery := query; DdlJobId := jobID |};
     Client := client |}.

(** A transaction with no option set, and a client that reports success. *)
Definition emptyTransaction : Transaction := {| options := fun _ => None |}.

Definition emptyClient : PumpsClient :=
  {| pumps_WriteBinlog := fun _ w => (None, w) |}.

(** The statements of the examples: a table named by the one rune, then the
    clause. *)
Definition alterTable (name : gostring) : gostring :=
  lit "alter table " ++ name ++ lit " shard_row_id_bits=4".

(** The clause in the words of the spec: the keyword in any letter case,
    optional white space, the equals sign, optional white space, digits. *)
Inductive isClause : gostring -> Prop :=
| isClause_intro (kw ws1 ws2 digits : gostring) :
    map strings.upperByte kw = lit "SHARD_ROW_ID_BITS" ->
    Forall (fun c => regexp.class_s c = true) ws1 ->
    Forall (fun c => regexp.class_s c = true) ws2 ->
    Forall (fun c => regexp.class_d c = true) digits ->
    digits <> [] ->
    isClause (kw ++ ws1 ++ lit "=" ++ ws2 ++ digits).

End AnnotatorDefs.

(** ** For the address validator *)
Module ValidatorDefs.
Import utils.

(** The candidate as it is handed to the URI parser. *)
Definition normalize (str : gostring) : gostring :=
  let str := strings.TrimSpace str in
  if negb (strings.Contains str (lit "http")) then lit "http://" ++ str else str.

Definition allowedScheme (scheme : gostring) : bool :=
  gostring_eqb scheme (lit "http") || gostring_eqb scheme (lit "https")
  || gostring_eqb scheme (lit "unix") || gostring_eqb scheme (lit "unixs").

Definition invalidScheme (str : gostring) : error := errors_Errorf formatScheme str.
Definition invalidHostPort (str : gostring) : error := errors_Errorf formatHostPort str.
Definition unexpectedPath (str : gostring) : error := errors_Errorf formatPath str.

(** A candidate that passes every check of the loop body. *)
Definition passes (str : gostring) : Prop := exists a, parseOne str = OK a.

(** The bytes of a host name or an IPv4 address. *)
Definition hostByte (c : ascii) : bool :=
  url.isAlpha c || url.isDigit c || url.oneOf (lit "-.") c.

(** The bytes of a host:port. *)
Definition addrByte (c : ascii) : bool := hostByte c || Ascii.eqb c ":".

Definition differs (x : ascii) (s : gostring) : Prop :=
  Forall (fun c => Ascii.eqb c x = false) s.

(** [strings.Join(pieces, ",")] *)
Fixpoint joinComma (pieces : list gostring) : gostring :=
  match pieces with
  | [] => []
  | a :: rest =>
      match rest with
      | [] => a
      | _ :: _ => a ++ ","%char :: joinComma rest
      end
  end.

(** A candidate as it is written in the list: a host and a port of plain
    bytes, with white space around. *)
Record candidate : Type := {
  lead : gostring;
  chost : gostring;
  cport : gostring;
  trail : gostring
}.

Definition hostport (c : candidate) : gostring := chost c ++ lit ":" ++ cport c.

Definition written (c : candidate) : gostring := lead c ++ hostport c ++ trail c.

Definition endpoint (c : candidate) : gostring := lit "http://" ++ hostport c.

Definition plainCandidate (c : candidate) : Prop :=
  Forall (fun b => strings.isSpace1 b = true) (lead c)
  /\ Forall (fun b => hostByte b = true) (chost c)
  /\ Forall (fun b => url.isDigit b = true) (cport c)
  /\ Forall (fun b => strings.isSpace1 b = true) (trail c)
  /\ strings.Contains (hostport c) (lit "http") = false.

End ValidatorDefs.

(** ** More of the write coordinator *)
Module CoordinatorMore.
Import binloginfo.
Local Open Scope Z_scope.
Local Open Scope go_scope.

(** A relay client that keeps a property of the world: whatever runs while
    its call is in flight leaves the property standing. *)
Definition keeps (P : World -> Prop) (c : PumpsClient) : Prop :=
  forall data w, P w -> P (snd (pumps_WriteBinlog c data w)).

(** A relay client during whose calls nothing else touches the world. *)
Definition quiet (c : PumpsClient) : Prop :=
  forall data w, snd (pumps_WriteBinlog c data w) = w.

(** The clients of an event keep [P]; an event without client has none. *)
Definition clientKeeps (P : World -> Prop) (info : BinlogInfo) : Prop :=
  match Client info with
  | Some c => keeps P c
  | None => True
  end.

(** The event has a client, and a quiet one. *)
Definition hasQuietClient (info : BinlogInfo) : Prop :=
  exists c, Client info = Some c /\ quiet c.

(** What one goroutine may do to the breaker, one call after the other. *)
Inductive call : Type :=
| call_WriteBinlog (info : BinlogInfo) (clusterID : Z)
| call_DisableSkipBinlogFlag
| call_SetIgnoreError (on : bool).

Definition runCall (c : call) : M World unit :=
  match c with
  | call_WriteBinlog info clusterID => WriteBinlog info clusterID ;;; ret tt
  | call_DisableSkipBinlogFlag => DisableSkipBinlogFlag
  | call_SetIgnoreError on => SetIgnoreError on
  end.

Fixpoint runCalls (cs : list call) (w : World) : World :=
  match cs with
  | [] => w
  | c :: rest => runCalls rest (snd (runCall c w))
  end.

Definition callKeeps (P : World -> Prop) (c : call) : Prop :=
  match c with
  | call_WriteBinlog info _ => clientKeeps P info
  | _ => True
  end.

(** The breaker is closed or tripped once. *)
Definition skipIsFlag (w : World) : Prop := skipBinlog w = 0 \/ skipBinlog w = 1.

End CoordinatorMore.

(** ** [WriteBinlog] of the earlier revision (source part_001), over the same
       package-level variables; it does not touch [binlogWriteTimeout]. *)
Module part_001_write.
Import binloginfo.
Local Open Scope Z_scope.
Local Open Scope go_scope.

(** [BinlogInfo]: the pointers [Data] and [Client], either of which may be
    nil.  The earlier revision reads fields of [Data] itself. *)
Record BinlogInfo : Type := {
  Data : option Binlog;
  Client : option PumpsClient
}.

(** The errors it returns: one made by [errors.New], or [terror.ErrCritical]
    generated with the relay error as its argument. *)
Inductive error : Type :=
| errors_New (text : gostring)
| ErrCritical_GenByArgs (arg : gostring).

(** What follows the first [log.Debugf], for the event data it has read. *)
Definition writeData (client : PumpsClient) (data : Binlog) (skip : Z)
  : M World (option error) :=
  err <- Client_WriteBinlog client data ;;
  match err with
  | Some e =>
      ignore <- LoadUint32 addr_ignoreError ;;
      if ignore =? 1 then
        CriticalErrorCounter_Add 1 ;;;
        CompareAndSwapUint32 addr_skipBinlog skip (uint32 (skip + 1)) ;;;
        ret None
      else
        ret (Some (ErrCritical_GenByArgs e))
  | None => ret None
  end.

(** [func (info *BinlogInfo) WriteBinlog(clusterID uint64) error]; [None] is
    the panic of a nil dereference: the arguments [info.Data.StartTs] and
    [info.Data.Tp] of the [log.Debugf] before the relay call are evaluated
    whatever the log level. *)
Definition WriteBinlog (info : BinlogInfo) (clusterID : Z)
  : World -> option (option error * World) :=
  fun w =>
    let (skip, w0) := LoadUint32 addr_skipBinlog w in
    if 0 <? skip then
      Some ((CriticalErrorCounter_Add 1 ;;; ret None) w0)
    else
      match Client info with
      | None => Some (Some (errors_New (lit "pump client is nil")), w0)
      | Some client =>
          match Data info with
          | None => None
          | Some data => Some (writeData client data skip w0)
          end
      end.

(** An event of the later revision, whose data the model takes as there, as
    the earlier revision gets it. *)
Definition earlier (info : binloginfo.BinlogInfo) : BinlogInfo :=
  {| Data := Some (binloginfo.Data info); Client := binloginfo.Client info |}.

End part_001_write.

(** ** The shared client handle of binloginfo.go

    [pumpsClient] is guarded by the read-write lock [pumpsClientLock].  A call
    that would wait for the lock for ever, or that unlocks a lock it does not
    hold (a fatal error of the run time), has no result: [None]. *)
Module pumpshandle.
Import binloginfo.
Local Open Scope Z_scope.

(** [sync.RWMutex]: the number of read locks held, and whether the write
    lock is held. *)
Record RWMutex : Type := { readers : nat; writer : bool }.

Definition unlocked : RWMutex := {| readers := 0; writer := false |}.

(** The package-level variables [pumpsClient] and [pumpsClientLock], the
    variable [variable.ProcessGeneralLog], and the number of calls made so far
    to the constructors of the relay client and to its [InitLogger]. *)
Record Store : Type := {
  pumpsClient : option PumpsClient;
  pumpsClientLock : RWMutex;
  ProcessGeneralLog : Z;
  constructed : nat;
  loggerInits : nat
}.

(** A computation on the store that may have no result. *)
Definition H (A : Type) : Type := Store -> option (A * Store).

Definition hret {A} (a : A) : H A := fun s => Some (a, s).

Definition hbind {A B} (m : H A) (k : A -> H B) : H B :=
  fun s => match m s with
           | Some (a, s') => k a s'
           | None => None
           end.

Declare Scope handle_scope.
Delimit Scope handle_scope with handle.
Notation "x <- m ;; k" := (hbind m (fun x => k))
  (at level 61, m at next level, right associativity) : handle_scope.
Notation "m ;;; k" := (hbind m (fun _ => k))
  (at level 61, right associativity) : handle_scope.
Local Open Scope handle_scope.

Definition withLock (l : RWMutex) (s : Store) : Store :=
  {| pumpsClient := pumpsClient s; pumpsClientLock := l;
     ProcessGeneralLog := ProcessGeneralLog s;
     constructed := constructed s; loggerInits := loggerInits s |}.

Definition withClient (c : option PumpsClient) (s : Store) : Store :=
  {| pumpsClient := c; pumpsClientLock := pumpsClientLock s;
     ProcessGeneralLog := ProcessGeneralLog s;
     constructed := constructed s; loggerInits := loggerInits s |}.

(** The store at the start of the program: no client, the lock free. *)
Definition freeStore : Store :=
  {| pumpsClient := None; pumpsClientLock := unlocked; ProcessGeneralLog := 0;
     constructed := 0; loggerInits := 0 |}.

(** [pumpsClientLock.RLock()] waits while the write lock is held. *)
Definition RLock : H unit :=
  fun s =>
    let l := pumpsClientLock s in
    if writer l then None
    else Some (tt, withLock {| readers := S (readers l); writer := false |} s).

(** [pumpsClientLock.RUnlock()] *)
Definition RUnlock : H unit :=
  fun s =>
    let l := pumpsClientLock s in
    match readers l with
    | O => None
    | S n => Some (tt, withLock {| readers := n; writer := writer l |} s)
    end.

(** [pumpsClientLock.Lock()] waits while any lock is held. *)
Definition Lock : H unit :=
  fun s =>
    let l := pumpsClientLock s in
    if writer l then None
    else match readers l with
         | O => Some (tt, withLock {| readers := 0; writer := true |} s)
         | S _ => None
         end.

(** [pumpsClientLock.Unlock()] *)
Definition Unlock : H unit :=
  fun s =>
    let l := pumpsClientLock s in
    if writer l then Some (tt, withLock {| readers := readers l; writer := false |} s)
    else None.

(** [GetPumpsClient] *)
Definition GetPumpsClient : H (option PumpsClient) :=
  RLock ;;;
  client <- (fun s => Some (pumpsClient s, s)) ;;
  RUnlock ;;;
  hret client.

(** [SetPumpsClient] *)
Definition SetPumpsClient (client : option PumpsClient) : H unit :=
  Lock ;;;
  (fun s => Some (tt, withClient client s)) ;;;
  Unlock.

(** [pd.SecurityOption] *)
Record SecurityOption : Type := {
  CAPath : gostring;
  CertPath : gostring;
  KeyPath : gostring
}.

(** Modelled from the spec: the configuration collaborator
    [config.GetGlobalConfig()] of the config package, which is not among the
    sources; the spec has it supply the replication enable mode, the auto-mode
    flag, timeout strings and security paths, read-only from here.  The
    fields are those the code reads. *)
Record Config : Type := {
  Path : gostring;
  Binlog_BinlogSocket : gostring;
  Binlog_WriteTimeout : gostring;
  Binlog_AutoMode : bool;
  Binlog_Enable : bool;
  Security_ClusterSSLCA : gostring;
  Security_ClusterSSLCert : gostring;
  Security_ClusterSSLKey : gostring
}.

(** [variable.SysVar], with the fields the code reads. *)
Record SysVar : Type := {
  Scope : Z;
  Value : gostring
}.

Section Collaborators.
(** The global configuration. *)
Variable globalConfig : Config.
(** [timeutil.ParseDuration] *)
Variable ParseDuration : gostring -> Z.
(** [pumpcli.NewPumpsClient] and [pumpcli.NewLocalPumpsClient]: the client
    and the error they return, either of which may be nil. *)
Variable NewPumpsClient :
  gostring -> Z -> SecurityOption -> option PumpsClient * option gostring.
Variable NewLocalPumpsClient :
  gostring -> gostring -> Z -> SecurityOption -> option PumpsClient * option gostring.
(** [pumpcli.InitLogger] on the log settings of the configuration. *)
Variable InitLogger : Config -> option gostring.
(** [variable.GetSysVar], the names [variable.TiDBLogBin] and
    [variable.LogBin], and the flag [variable.ScopeSession]. *)
Variable GetSysVar : gostring -> SysVar.
Variable TiDBLogBin : gostring.
Variable LogBin : gostring.
Variable ScopeSession : Z.

(** [CreatePumpsClient] *)
Definition CreatePumpsClient : H (option PumpsClient * option gostring) :=
  fun s =>
    let securityOption :=
      {| CAPath := Security_ClusterSSLCA globalConfig;
         CertPath := Security_ClusterSSLCert globalConfig;
         KeyPath := Security_ClusterSSLKey globalConfig |} in
    let result :=
      if (List.length (Binlog_BinlogSocket globalConfig) =? 0)%nat then
        NewPumpsClient (Path globalConfig)
          (ParseDuration (Binlog_WriteTimeout globalConfig)) securityOption
      else
        NewLocalPumpsClient (Path globalConfig) (Binlog_BinlogSocket globalConfig)
          (ParseDuration (Binlog_WriteTimeout globalConfig)) securityOption in
    Some (result,
          {| pumpsClient := pumpsClient s; pumpsClientLock := pumpsClientLock s;
             ProcessGeneralLog := ProcessGeneralLog s;
             constructed := S (constructed s); loggerInits := loggerInits s |}).

(** What the constructor of the configured kind returns. *)
Definition constructorResult : option PumpsClient * option gostring :=
  match CreatePumpsClient freeStore with
  | Some (r, _) => r
  | None => (None, None)
  end.

(** [pumpcli.InitLogger(config.GetGlobalConfig().Log.ToLogConfig())] *)
Definition callInitLogger : H (option gostring) :=
  fun s =>
    Some (InitLogger globalConfig,
          {| pumpsClient := pumpsClient s; pumpsClientLock := pumpsClientLock s;
             ProcessGeneralLog := ProcessGeneralLog s;
             constructed := constructed s; loggerInits := S (loggerInits s) |}).

(** [GetOrCreatePumpsClient] *)
Definition GetOrCreatePumpsClient : H (option PumpsClient) :=
  client <- GetPumpsClient ;;
  match client with
  | Some _ => hret client
  | None =>
      RLock ;;;
      created <- CreatePumpsClient ;;
      RUnlock ;;;
      match snd created with
      | Some _ => hret None
      | None =>
          err <- callInitLogger ;;
          match err with
          | Some _ => hret None
          | None =>
              SetPumpsClient (fst created) ;;;
              hret (fst created)
          end
      end
  end.

(** [atomic.StoreUint32(&variable.ProcessGeneralLog, 1)] *)
Definition storeProcessGeneralLog (v : Z) : H unit :=
  fun s =>
    Some (tt, {| pumpsClient := pumpsClient s; pumpsClientLock := pumpsClientLock s;
                 ProcessGeneralLog := v;
                 constructed := constructed s; loggerInits := loggerInits s |}).

(** [GetPumpsClientByLogBin] *)
Definition GetPumpsClientByLogBin : H (option PumpsClient) :=
  let tidbLogBin := GetSysVar TiDBLogBin in
  let logBin := GetSysVar LogBin in
  if ((Z.land (Scope logBin) ScopeSession =? 1) && gostring_eqb (Value logBin) (lit "1"))
     || (gostring_eqb (Value logBin) (lit "auto")
         && (Z.land (Scope tidbLogBin) ScopeSession =? 1)
         && gostring_eqb (Value tidbLogBin) (lit "1"))
  then
    storeProcessGeneralLog 1 ;;;
    GetOrCreatePumpsClient
  else hret None.

End Collaborators.

End pumpshandle.

(** A configuration without socket, a constructor that succeeds, and a
    logger that starts. *)
Module HandleDefs.
Import binloginfo pumpshandle.

Definition sampleConfig : Config :=
  {| Path := lit "127.0.0.1:2379"; Binlog_BinlogSocket := [];
     Binlog_WriteTimeout := lit "15s"; Binlog_AutoMode := false; Binlog_Enable := true;
     Security_ClusterSSLCA := []; Security_ClusterSSLCert := [];
     Security_ClusterSSLKey := [] |}.

Definition sampleGetOrCreate : H (option PumpsClient) :=
  GetOrCreatePumpsClient sampleConfig (fun _ => 15000000000%Z)
    (fun _ _ _ => (Some AnnotatorDefs.emptyClient, None))
    (fun _ _ _ _ => (None, Some (lit "no socket")))
    (fun _ => None).

End HandleDefs.

(** ** [GetPrewriteValue] of binloginfo.go *)
Module prewrite.
Local Open Scope Z_scope.

(** [binlog.PrewriteValue] of tipb, the mutations as their encoded bytes. *)
Record PrewriteValue : Type := {
  SchemaVersion : Z;
  Mutations : list gostring
}.

(** The slot [TxnCtx.Binlog interface{}]: the nil interface, an interface
    that holds a [*binlog.PrewriteValue] (a nil pointer or not), or one that
    holds a value of another type. *)
Inductive BinlogSlot : Type :=
| slot_nil
| slot_PrewriteValue (p : option PrewriteValue)
| slot_other.

(** The session variables of the context [ctx], as far as the code reads
    them: the transaction context [TxnCtx] with its binlog slot and schema
    version. *)
Record Context : Type := {
  TxnCtx_Binlog : BinlogSlot;
  TxnCtx_SchemaVersion : Z
}.

(** [GetPrewriteValue]: the pointer returned (nil is [None]) and the context
    as it is left. *)
Definition GetPrewriteValue (ctx : Context) (createIfNotExists : bool)
  : option PrewriteValue * Context :=
  let '(v, ok) :=
    match TxnCtx_Binlog ctx with
    | slot_PrewriteValue p => (p, true)
    | _ => (None, false)
    end in
  if negb ok && createIfNotExists then
    let schemaVer := TxnCtx_SchemaVersion ctx in
    let v := {| SchemaVersion := schemaVer; Mutations := [] |} in
    (Some v, {| TxnCtx_Binlog := slot_PrewriteValue (Some v);
                TxnCtx_SchemaVersion := TxnCtx_SchemaVersion ctx |})
  else (v, ctx).

End prewrite.

(** ** Calls of [SetGRPCTimeout] one after the other (source part_001) *)
Module TimeoutMore.
Import part_001.
Local Open Scope Z_scope.

Fixpoint SetGRPCTimeouts (timeouts : list Z) (w : World) : World :=
  match timeouts with
  | [] => w
  | t :: rest => SetGRPCTimeouts rest (snd (SetGRPCTimeout t w))
  end.

(** The timeouts of a list that [SetGRPCTimeout] takes. *)
Definition accepted (timeouts : list Z) : list Z :=
  filter (fun t => 300 * time.Millisecond <=? t) timeouts.

End TimeoutMore.

(** ** Candidates with a scheme or a path, for the statements on the
    address validator *)
Module ValidatorMore.
Import utils ValidatorDefs.

(** An address that starts with one of the four schemes and [://]. *)
Definition schemeQualified (a : gostring) : Prop :=
  exists scheme rest, allowedScheme scheme = true /\ a = scheme ++ lit "://" ++ rest.

(** The bytes of a host:port and the slash. *)
Definition uriByte (c : ascii) : bool := addrByte c || Ascii.eqb c "/".

(** The schemes that hold the text "http". *)
Definition webScheme (scheme : gostring) : Prop :=
  scheme = lit "http" \/ scheme = lit "https".

End ValidatorMore.

(** * The write coordinator and its breaker *)
Module WriteCoordinator.
Import binloginfo CoordinatorDefs.
Local Open Scope Z_scope.

Lemma WriteBinlog_open (info : BinlogInfo) (cid : Z) (w : World) :
  0 < skipBinlog w ->
  WriteBinlog info cid w = (None, addCritical 1 w).
Proof.
  intros Hskip. unfold WriteBinlog, bind, LoadUint32, CriticalErrorCounter_Add, ret.
  cbn [load].
  destruct (0 <? skipBinlog w) eqn:E; [reflexivity | apply Z.ltb_ge in E; lia].
Qed.

(** What a write does once the breaker is closed and a client is set: the
    relay call, then the classification of its result. *)
Lemma WriteBinlog_closed (info : BinlogInfo) (cid : Z) (c : PumpsClient)
      (w w1 : World) (err : option gostring) :
  skipBinlog w = 0 ->
  Client info = Some c ->
  pumps_WriteBinlog c (Data info) w = (err, w1) ->
  WriteBinlog info cid w =
    match err with
    | None => (None, recordCall (Data info) w1)
    | Some e =>
        if ignoreError w1 =? 1 then
          (None,
           snd (CompareAndSwapUint32 addr_skipBinlog 0 1
                  (addCritical 1 (recordCall (Data info) w1))))
        else if strings.Contains e tooLarge then
          (Some (errors_New (lit "binlog data is too large (" ++ e ++ lit ")")),
           recordCall (Data info) w1)
        else
          (Some (ErrCritical_GenWithStackByArgs e), recordCall (Data info) w1)
    end.
Proof.
  intros Hskip Hc Hcall.
  unfold WriteBinlog, bind, LoadUint32, Client_WriteBinlog, ret.
  cbn [load]. rewrite Hskip, Hc. cbn [Z.ltb Z.compare].
  rewrite Hcall.
  destruct err as [e|]; [|reflexivity].
  cbn [load recordCall ignoreError].
  destruct (ignoreError w1 =? 1).
  - unfold CriticalErrorCounter_Add.
    change (uint32 (0 + 1)) with 1.
    destruct (CompareAndSwapUint32 _ _ _ _); reflexivity.
  - fold tooLarge. destruct (strings.Contains e tooLarge); reflexivity.
Qed.

Lemma WriteBinlogs_open (infos : list BinlogInfo) (cid : Z) (w : World) :
  0 < skipBinlog w ->
  WriteBinlogs infos cid w =
    (repeat None (List.length infos),
     addCritical (Z.of_nat (List.length infos)) w).
Proof.
  revert w. induction infos as [|info rest IH]; intros w Hskip.
  - cbn. unfold ret, addCritical. destruct w; cbn. do 2 f_equal. lia.
  - cbn [WriteBinlogs]. unfold bind.
    rewrite WriteBinlog_open by assumption.
    rewrite IH by (cbn; assumption).
    unfold ret, addCritical. cbn [List.length repeat skipBinlog ignoreError CriticalErrorCounter pumpCalls].
    do 2 f_equal. lia.
Qed.

(** With the breaker closed and a client set, the relay is called: the call
    is the newest in the record, whatever the classification of its result. *)
Lemma WriteBinlog_closed_calls (info : BinlogInfo) (cid : Z) (c : PumpsClient)
      (w : World) :
  skipBinlog w = 0 ->
  Client info = Some c ->
  pumpCalls (snd (WriteBinlog info cid w))
  = Data info :: pumpCalls (snd (pumps_WriteBinlog c (Data info) w)).
Proof.
  intros Hskip Hc.
  destruct (pumps_WriteBinlog c (Data info) w) as [err w1] eqn:Hcall.
  rewrite (WriteBinlog_closed info cid c w w1 err Hskip Hc Hcall).
  destruct err as [e|]; [|reflexivity].
  destruct (ignoreError w1 =? 1).
  - unfold CompareAndSwapUint32. cbn [load addCritical recordCall skipBinlog].
    destruct (skipBinlog w1 =? 0); reflexivity.
  - destruct (strings.Contains e tooLarge); reflexivity.
Qed.

(** C2.  While the skip counter is above zero a write returns nil at once,
    adds one to the critical-error counter and does not call the relay
    client (the record of calls is as before, whatever client the event
    carries); so does every later write of a sequence, the counter staying
    as it is.  [DisableSkipBinlogFlag] stores zero, and the next write with a
    client calls the relay again. *)
Theorem breaker_open_short_circuits (w : World) :
  0 < skipBinlog w ->
  (forall info cid,
      WriteBinlog info cid w = (None, addCritical 1 w)
      /\ CriticalErrorCounter (snd (WriteBinlog info cid w)) = CriticalErrorCounter w + 1
      /\ pumpCalls (snd (WriteBinlog info cid w)) = pumpCalls w
      /\ skipBinlog (snd (WriteBinlog info cid w)) = skipBinlog w)
  /\ (forall infos cid,
         let (results, w') := WriteBinlogs infos cid w in
         results = repeat None (List.length infos)
         /\ CriticalErrorCounter w' = CriticalErrorCounter w + Z.of_nat (List.length infos)
         /\ pumpCalls w' = pumpCalls w
         /\ skipBinlog w' = skipBinlog w)
  /\ skipBinlog (snd (DisableSkipBinlogFlag w)) = 0
  /\ (forall info cid c,
         Client info = Some c ->
         let w0 := snd (DisableSkipBinlogFlag w) in
         pumpCalls (snd (WriteBinlog info cid w0))
         = Data info :: pumpCalls (snd (pumps_WriteBinlog c (Data info) w0))).
Proof.
  intros Hskip. split; [|split; [|split]].
  - intros info cid. rewrite WriteBinlog_open by assumption. cbn. auto.
  - intros infos cid. rewrite WriteBinlogs_open by assumption. cbn. auto.
  - reflexivity.
  - intros info cid c Hc w0. now apply WriteBinlog_closed_calls.
Qed.

(** C3.  With the breaker closed and a client set, when the relay call
    fails: if the ignore-error flag reads 1, the write returns nil, adds one
    to the critical-error counter and makes one compare-and-swap on the skip
    counter from the value read at entry to that value plus one, so the
    counter is raised only if it still holds the value read; if the flag
    does not read 1 and the error is not the oversized-message one, the
    write returns the critical error made from the relay error. *)
Theorem relay_failure_classified (info : BinlogInfo) (cid : Z) (c : PumpsClient)
        (w w1 : World) (e : gostring) :
  skipBinlog w = 0 ->
  Client info = Some c ->
  pumps_WriteBinlog c (Data info) w = (Some e, w1) ->
  (ignoreError w1 = 1 ->
     fst (WriteBinlog info cid w) = None
     /\ CriticalErrorCounter (snd (WriteBinlog info cid w)) = CriticalErrorCounter w1 + 1
     /\ skipBinlog (snd (WriteBinlog info cid w)) =
          (if skipBinlog w1 =? skipBinlog w then skipBinlog w + 1 else skipBinlog w1)
     /\ pumpCalls (snd (WriteBinlog info cid w)) = Data info :: pumpCalls w1)
  /\ (ignoreError w1 <> 1 ->
      strings.Contains e tooLarge = false ->
      WriteBinlog info cid w =
        (Some (ErrCritical_GenWithStackByArgs e), recordCall (Data info) w1)).
Proof.
  intros Hskip Hc Hcall.
  rewrite (WriteBinlog_closed info cid c w w1 (Some e) Hskip Hc Hcall).
  split.
  - intros Hign. rewrite Hign, Hskip. cbn [Z.eqb Pos.eqb fst snd].
    unfold CompareAndSwapUint32. cbn [load addCritical recordCall skipBinlog].
    destruct (skipBinlog w1 =? 0); cbn; auto.
  - intros Hign Hsmall.
    destruct (ignoreError w1 =? 1) eqn:E; [apply Z.eqb_eq in E; contradiction|].
    rewrite Hsmall. reflexivity.
Qed.

(** Two writers fail at the same time with errors ignored: the second one's
    write runs while the first one's relay call is in flight.  Both add to
    the critical-error counter, and the skip counter is raised once: the
    compare-and-swap of the first finds the counter changed. *)
Lemma overlapped_failures_trip_once :
  let text := lit "context deadline exceeded" in
  let first := {| Data := sampleBinlog;
                  Client := Some (overlappedClient (sampleInfo text) text) |} in
  fst (WriteBinlog first 1 (closedWorld 1)) = None
  /\ skipBinlog (snd (WriteBinlog first 1 (closedWorld 1))) = 1
  /\ CriticalErrorCounter (snd (WriteBinlog first 1 (closedWorld 1))) = 2.
Proof. repeat split. Qed.

(** C1, as the code has it.  With the breaker closed, a client set and the
    ignore-error flag not reading 1, when the relay call fails with an error
    whose text reports an oversized message, the write returns a non-fatal
    error that says the binlog data is too large, and stores nothing: the
    skip counter is what the relay call left. *)
Theorem oversized_payload_not_ignored (info : BinlogInfo) (cid : Z) (c : PumpsClient)
        (w w1 : World) (e : gostring) :
  skipBinlog w = 0 ->
  Client info = Some c ->
  pumps_WriteBinlog c (Data info) w = (Some e, w1) ->
  strings.Contains e tooLarge = true ->
  ignoreError w1 <> 1 ->
  fst (WriteBinlog info cid w)
    = Some (errors_New (lit "binlog data is too large (" ++ e ++ lit ")"))
  /\ (forall err, fst (WriteBinlog info cid w) = Some err -> nonFatal err)
  /\ snd (WriteBinlog info cid w) = recordCall (Data info) w1
  /\ skipBinlog (snd (WriteBinlog info cid w)) = skipBinlog w1.
Proof.
  intros Hskip Hc Hcall Hlarge Hign.
  rewrite (WriteBinlog_closed info cid c w w1 (Some e) Hskip Hc Hcall).
  destruct (ignoreError w1 =? 1) eqn:E; [apply Z.eqb_eq in E; contradiction|].
  rewrite Hlarge. cbn [fst snd]. repeat split.
  intros err H. inversion H. exact I.
Qed.

Lemma breaker_open_short_circuits_witness :
  WriteBinlog (sampleInfo grpcTooLarge) 1 openWorld = (None, addCritical 1 openWorld).
Proof.
  apply (breaker_open_short_circuits openWorld); reflexivity.
Defined.

Lemma relay_failure_classified_witness :
  fst (WriteBinlog (sampleInfo (lit "context deadline exceeded")) 1 (closedWorld 1)) = None
  /\ skipBinlog (snd (WriteBinlog (sampleInfo (lit "context deadline exceeded")) 1
                        (closedWorld 1))) = 1.
Proof.
  destruct (relay_failure_classified (sampleInfo (lit "context deadline exceeded")) 1
              (failingClient (lit "context deadline exceeded"))
              (closedWorld 1) (closedWorld 1) (lit "context deadline exceeded")
              eq_refl eq_refl eq_refl) as [H _].
  destruct (H eq_refl) as (H1 & _ & H3 & _).
  split; [exact H1 | exact H3].
Defined.

Lemma oversized_payload_not_ignored_witness :
  fst (WriteBinlog (sampleInfo grpcTooLarge) 1 (closedWorld 0))
    = Some (errors_New (lit "binlog data is too large (" ++ grpcTooLarge ++ lit ")"))
  /\ skipBinlog (snd (WriteBinlog (sampleInfo grpcTooLarge) 1 (closedWorld 0))) = 0.
Proof.
  destruct (oversized_payload_not_ignored (sampleInfo grpcTooLarge) 1
              (failingClient grpcTooLarge) (closedWorld 0) (closedWorld 0)
              grpcTooLarge eq_refl eq_refl eq_refl) as (H1 & _ & _ & H4).
  - reflexivity.
  - discriminate.
  - split; [exact H1 | exact H4].
Defined.

(** C1 as stated fails when the ignore-error flag is set: the breaker is
    closed, the client is set and the relay reports an oversized message,
    yet the write returns nil and the skip counter goes from 0 to 1. *)
Lemma oversized_payload_ignored_counterexample :
  skipBinlog (closedWorld 1) = 0
  /\ Client (sampleInfo grpcTooLarge) = Some (failingClient grpcTooLarge)
  /\ pumps_WriteBinlog (failingClient grpcTooLarge) sampleBinlog (closedWorld 1)
       = (Some grpcTooLarge, closedWorld 1)
  /\ strings.Contains grpcTooLarge tooLarge = true
  /\ fst (WriteBinlog (sampleInfo grpcTooLarge) 1 (closedWorld 1)) = None
  /\ skipBinlog (snd (WriteBinlog (sampleInfo grpcTooLarge) 1 (closedWorld 1))) = 1.
Proof.
  repeat split.
Qed.

End WriteCoordinator.

(** * Facts about the library models *)
Module StringFacts.

Lemma HasPrefix_app (p rest : gostring) : strings.HasPrefix (p ++ rest) p = true.
Proof.
  induction p as [|c p IH]; [reflexivity|].
  cbn. now rewrite Ascii.eqb_refl, IH.
Qed.

Lemma HasPrefix_inv (p s : gostring) :
  strings.HasPrefix s p = true -> exists rest, s = p ++ rest.
Proof.
  revert s. induction p as [|c p IH]; intros s H.
  - now exists s.
  - destruct s as [|d s]; [discriminate|].
    cbn in H. apply andb_true_iff in H as [Hc Hp].
    apply Ascii.eqb_eq in Hc. subst d.
    destruct (IH s Hp) as [rest ->]. now exists rest.
Qed.

Lemma Contains_app (a p b : gostring) : strings.Contains (a ++ p ++ b) p = true.
Proof.
  unfold strings.Contains.
  induction a as [|c a IH].
  - cbn [app]. destruct (p ++ b) eqn:E; cbn [strings.Index];
      rewrite <- E, HasPrefix_app; reflexivity.
  - cbn [app strings.Index].
    destruct (strings.HasPrefix (c :: a ++ p ++ b) p); [reflexivity|].
    destruct (strings.Index (a ++ p ++ b) p); [reflexivity | discriminate].
Qed.

Lemma Contains_inv (s p : gostring) :
  strings.Contains s p = true -> exists a b, s = a ++ p ++ b.
Proof.
  unfold strings.Contains.
  induction s as [|c s IH]; cbn [strings.Index]; intros H.
  - destruct (strings.HasPrefix [] p) eqn:E; [|discriminate].
    apply HasPrefix_inv in E as [rest E]. now exists [], rest.
  - destruct (strings.HasPrefix (c :: s) p) eqn:E.
    + apply HasPrefix_inv in E as [rest E]. now exists [], rest.
    + destruct (strings.Index s p) eqn:E'; [|discriminate].
      destruct (IH eq_refl) as (a & b & ->). now exists (c :: a), b.
Qed.

Lemma upperByte_length (s : gostring) :
  List.length (map strings.upperByte s) = List.length s.
Proof. apply length_map. Qed.

(** On ASCII text [ToUpper] keeps the length, whatever the rune tables. *)
Lemma ToUpper_ascii_length (up : gostring -> gostring) (s : gostring) :
  strings.isASCII s = true ->
  List.length (strings.ToUpper up s) = List.length s.
Proof.
  intros H. unfold strings.ToUpper. rewrite H.
  destruct (existsb strings.isLower s); [apply length_map | reflexivity].
Qed.

Lemma ToUpper_ascii (up : gostring -> gostring) (s : gostring) :
  strings.isASCII s = true ->
  strings.ToUpper up s = map strings.upperByte s.
Proof.
  intros H. unfold strings.ToUpper. rewrite H.
  destruct (existsb strings.isLower s) eqn:E; [reflexivity|].
  clear H. induction s as [|c s IH]; [reflexivity|].
  cbn in E. apply orb_false_iff in E as [Ec Es].
  cbn. unfold strings.upperByte at 1. rewrite Ec. f_equal. auto.
Qed.

Lemma slice_some (s : gostring) (lo hi : nat) :
  lo <= hi -> hi <= List.length s ->
  slice s lo hi = Some (firstn (hi - lo) (skipn lo s)).
Proof.
  intros H1 H2. unfold slice.
  apply Nat.leb_le in H1, H2. now rewrite H1, H2.
Qed.

(** The three slices the annotator takes put the text together again. *)
Lemma slices_partition (s : gostring) (lo hi : nat) :
  lo <= hi -> hi <= List.length s ->
  slice_to s lo = Some (firstn lo s)
  /\ slice s lo hi = Some (firstn (hi - lo) (skipn lo s))
  /\ slice_from s hi = Some (skipn hi s)
  /\ firstn lo s ++ firstn (hi - lo) (skipn lo s) ++ skipn hi s = s.
Proof.
  intros H1 H2. unfold slice_to, slice_from.
  rewrite !slice_some by lia.
  rewrite Nat.sub_0_r. cbn [skipn].
  repeat split.
  - f_equal. rewrite firstn_all2; [reflexivity|]. rewrite length_skipn. lia.
  - replace (skipn hi s) with (skipn (hi - lo) (skipn lo s)).
    + now rewrite !firstn_skipn.
    + rewrite skipn_skipn. f_equal. lia.
Qed.

End StringFacts.

Module RegexpFacts.
Import regexp RegexpDefs.

(** A match does not reach beyond the text. *)
Lemma matchHere_le (re : Regexp) :
  forall s n, matchHere re s = Some n -> n <= List.length s.
Proof.
  induction re as [|it re' IH]; intros s n H.
  - cbn in H. inversion H. lia.
  - cbn [matchHere] in H.
    set (star := fix star (s : gostring) : option nat :=
           match s with
           | c :: s' =>
               if cls it c then
                 match star s' with
                 | Some n => Some (S n)
                 | None => matchHere re' s
                 end
               else matchHere re' s
           | [] => matchHere re' []
           end) in H.
    assert (Hstar : forall t m, star t = Some m -> m <= List.length t).
    { induction t as [|c t IHt]; intros m Hm; cbn in Hm.
      - now apply IH in Hm.
      - destruct (cls it c).
        + destruct (star t) as [k|] eqn:E.
          * inversion Hm. subst. specialize (IHt k eq_refl). cbn. lia.
          * now apply IH in Hm.
        + now apply IH in Hm. }
    destruct (rep it).
    + destruct s as [|c s]; [discriminate|].
      destruct (cls it c); [|discriminate].
      destruct (matchHere re' s) as [k|] eqn:E; [|discriminate].
      inversion H. subst. apply IH in E. cbn. lia.
    + now apply Hstar.
    + destruct s as [|c s]; [discriminate|].
      destruct (cls it c); [|discriminate].
      destruct (star s) as [k|] eqn:E; [|discriminate].
      inversion H. subst. apply Hstar in E. cbn. lia.
Qed.

Lemma findFrom_bounds (re : Regexp) :
  forall s pos lo hi,
    findFrom re s pos = Some (lo, hi) ->
    pos <= lo /\ lo <= hi /\ hi <= pos + List.length s.
Proof.
  induction s as [|c s IH]; intros pos lo hi H; cbn [findFrom] in H.
  - destruct (matchHere re []) as [n|] eqn:E; [|discriminate].
    inversion H. subst. apply matchHere_le in E. cbn in *. lia.
  - destruct (matchHere re (c :: s)) as [n|] eqn:E.
    + inversion H. subst. apply matchHere_le in E. cbn in *. lia.
    + apply IH in H. cbn. lia.
Qed.

Lemma FindStringIndex_bounds (re : Regexp) (s : gostring) (lo hi : nat) :
  FindStringIndex re s = Some (lo, hi) -> lo <= hi /\ hi <= List.length s.
Proof.
  intros H. apply findFrom_bounds in H. lia.
Qed.

Lemma matchHere_One (it : item) (re : Regexp) (s : gostring) :
  rep it = One ->
  matchHere (it :: re) s =
    match s with
    | c :: s' => if cls it c then option_map S (matchHere re s') else None
    | [] => None
    end.
Proof. intros H. cbn [matchHere]. now rewrite H. Qed.

Lemma matchHere_Star (it : item) (re : Regexp) (s : gostring) :
  rep it = Star ->
  matchHere (it :: re) s =
    match s with
    | c :: s' =>
        if cls it c then
          match matchHere (it :: re) s' with
          | Some n => Some (S n)
          | None => matchHere re s
          end
        else matchHere re s
    | [] => matchHere re []
    end.
Proof.
  intros H. destruct it as [p r]. cbn in H. subst r.
  destruct s; reflexivity.
Qed.

Lemma matchHere_Plus (it : item) (re : Regexp) (s : gostring) :
  rep it = Plus ->
  matchHere (it :: re) s =
    match s with
    | c :: s' => if cls it c then option_map S (matchHere (starItem it :: re) s') else None
    | [] => None
    end.
Proof.
  intros H. destruct it as [p r]. cbn in H. subst r.
  destruct s; reflexivity.
Qed.

Lemma firstn_add (A : Type) (k j : nat) (s : list A) :
  firstn (k + j) s = firstn k s ++ firstn j (skipn k s).
Proof.
  revert s. induction k as [|k IH]; intros s; [reflexivity|].
  destruct s as [|c s]; cbn; [now rewrite firstn_nil | now rewrite IH].
Qed.

(** What a repetition took: some bytes of the class, then the rest of the pattern. *)
Lemma star_split (it : item) (re : Regexp) :
  rep it = Star ->
  forall s m, matchHere (it :: re) s = Some m ->
    exists k n, m = k + n /\ allOf it (firstn k s) /\ matchHere re (skipn k s) = Some n.
Proof.
  intros Hrep. induction s as [|c s IH]; intros m H; rewrite matchHere_Star in H by assumption.
  - exists 0, m. repeat split; [constructor | exact H].
  - destruct (cls it c) eqn:Ec.
    + destruct (matchHere (it :: re) s) as [n'|] eqn:E.
      * inversion H. subst m. destruct (IH n' eq_refl) as (k & n & -> & Hall & Hrest).
        exists (S k), n. repeat split; [constructor; assumption | exact Hrest].
      * exists 0, m. repeat split; [constructor | exact H].
    + exists 0, m. repeat split; [constructor | exact H].
Qed.

Lemma matchHere_sound (re : Regexp) :
  forall s n, matchHere re s = Some n -> matches re (firstn n s).
Proof.
  induction re as [|it re IH]; intros s n H.
  - cbn in H. inversion H. constructor.
  - destruct (rep it) eqn:Hrep.
    + rewrite matchHere_One in H by assumption.
      destruct s as [|c s]; [discriminate|].
      destruct (cls it c) eqn:Ec; [|discriminate].
      destruct (matchHere re s) as [k|] eqn:E; [|discriminate].
      inversion H. subst n. cbn [firstn]. apply matches_one; auto.
    + destruct (star_split it re Hrep s n H) as (k & j & -> & Hall & Hrest).
      rewrite firstn_add. apply matches_star; auto.
    + rewrite matchHere_Plus in H by assumption.
      destruct s as [|c s]; [discriminate|].
      destruct (cls it c) eqn:Ec; [|discriminate].
      destruct (matchHere (starItem it :: re) s) as [m|] eqn:E; [|discriminate].
      inversion H. subst n.
      destruct (star_split (starItem it) re eq_refl s m E) as (k & j & -> & Hall & Hrest).
      cbn [firstn]. rewrite firstn_add. apply matches_plus; auto.
Qed.

(** A repetition succeeds wherever the rest of the pattern does. *)
Lemma star_after (it : item) (re : Regexp) (s : gostring) :
  rep it = Star ->
  (exists n, matchHere re s = Some n) ->
  forall cs, allOf it cs -> exists m, matchHere (it :: re) (cs ++ s) = Some m.
Proof.
  intros Hrep Hs.
  assert (H0 : exists m, matchHere (it :: re) s = Some m).
  { rewrite matchHere_Star by assumption.
    destruct s as [|c s]; [exact Hs|].
    destruct (cls it c); [|exact Hs].
    destruct (matchHere (it :: re) s); [eauto | exact Hs]. }
  induction 1 as [|c cs Hc _ IH]; [exact H0|].
  cbn [app]. rewrite matchHere_Star by assumption. rewrite Hc.
  destruct IH as [m ->]. eauto.
Qed.

Lemma matchHere_complete (re : Regexp) (t : gostring) :
  matches re t -> forall rest, exists n, matchHere re (t ++ rest) = Some n.
Proof.
  induction 1 as [|it re c t Hrep Hc _ IH|it re cs t Hrep Hcs _ IH
                  |it re c cs t Hrep Hc Hcs _ IH]; intros rest.
  - now exists 0.
  - cbn [app]. rewrite matchHere_One by assumption. rewrite Hc.
    destruct (IH rest) as [n ->]. cbn. eauto.
  - rewrite <- app_assoc. apply star_after; auto.
  - cbn [app]. rewrite matchHere_Plus by assumption. rewrite Hc.
    rewrite <- app_assoc.
    destruct (star_after (starItem it) re (t ++ rest) eq_refl (IH rest) cs Hcs) as [m ->].
    cbn. eauto.
Qed.

(** The search returns the first offset at which the pattern matches. *)
Lemma findFrom_some (re : Regexp) :
  forall s pos lo hi,
    findFrom re s pos = Some (lo, hi) ->
    exists i n, lo = pos + i /\ hi = lo + n /\ i <= List.length s
                /\ matchHere re (skipn i s) = Some n
                /\ forall j, j < i -> matchHere re (skipn j s) = None.
Proof.
  induction s as [|c s IH]; intros pos lo hi H; cbn [findFrom] in H.
  - destruct (matchHere re []) as [n|] eqn:E; [|discriminate].
    inversion H. subst. exists 0, n. repeat split; auto; try lia.
  - destruct (matchHere re (c :: s)) as [n|] eqn:E.
    + inversion H. subst. exists 0, n. repeat split; auto; cbn; lia.
    + destruct (IH _ _ _ H) as (i & n & -> & -> & Hi & Hm & Hfirst).
      exists (S i), n. repeat split; try lia; [cbn; lia | exact Hm |].
      intros [|j] Hj; [exact E | apply Hfirst; lia].
Qed.

Lemma findFrom_none (re : Regexp) :
  forall s pos, findFrom re s pos = None ->
    forall j, matchHere re (skipn j s) = None.
Proof.
  induction s as [|c s IH]; intros pos H j; cbn [findFrom] in H.
  - destruct (matchHere re []) eqn:E; [discriminate|]. now rewrite skipn_nil.
  - destruct (matchHere re (c :: s)) eqn:E; [discriminate|].
    destruct j as [|j]; [exact E | cbn; eapply IH; eassumption].
Qed.

Lemma matches_nil_inv (u : gostring) : matches [] u -> u = [].
Proof. now inversion 1. Qed.

Lemma matches_one_inv (it : item) (re : Regexp) (u : gostring) :
  rep it = One -> matches (it :: re) u ->
  exists c t, u = c :: t /\ cls it c = true /\ matches re t.
Proof. intros Hrep H. inversion H; subst; try congruence. eauto. Qed.

Lemma matches_star_inv (it : item) (re : Regexp) (u : gostring) :
  rep it = Star -> matches (it :: re) u ->
  exists cs t, u = cs ++ t /\ allOf it cs /\ matches re t.
Proof. intros Hrep H. inversion H; subst; try congruence. eauto. Qed.

Lemma matches_plus_inv (it : item) (re : Regexp) (u : gostring) :
  rep it = Plus -> matches (it :: re) u ->
  exists c cs t, u = c :: cs ++ t /\ cls it c = true /\ allOf it cs /\ matches re t.
Proof. intros Hrep H. inversion H; subst; try congruence. eauto 7. Qed.

Lemma matches_literal (w : gostring) (re : Regexp) (u : gostring) :
  matches (map litItem w ++ re) u <-> exists u', u = w ++ u' /\ matches re u'.
Proof.
  revert u. induction w as [|c w IH]; intros u; cbn [map app].
  - split; [eauto | now intros (u' & -> & H)].
  - split.
    + intros H. apply matches_one_inv in H as (d & t & -> & Hd & Ht); [|reflexivity].
      cbn [cls litItem] in Hd. apply Ascii.eqb_eq in Hd. subst d.
      apply IH in Ht as (u' & -> & Hu'). eauto.
    + intros (u' & -> & Hu'). cbn [app]. apply matches_one; [reflexivity | apply Ascii.eqb_refl |].
      apply IH. eauto.
Qed.

End RegexpFacts.

(** * The DDL annotator *)
Module Annotator.
Import binloginfo regexp RegexpDefs AnnotatorDefs.
Import StringFacts RegexpFacts.

Lemma Compile_shardPattern : regexp.Compile shardPattern = Some shardRegexp.
Proof. reflexivity. Qed.

Lemma upperByte_class_s (c : ascii) : class_s (strings.upperByte c) = class_s c.
Proof. destruct c as [[] [] [] [] [] [] [] []]; reflexivity. Qed.

Lemma upperByte_class_d (c : ascii) : class_d (strings.upperByte c) = class_d c.
Proof. destruct c as [[] [] [] [] [] [] [] []]; reflexivity. Qed.

Lemma upperByte_equals (c : ascii) : strings.upperByte c = "="%char -> c = "="%char.
Proof. destruct c as [[] [] [] [] [] [] [] []]; cbn; congruence. Qed.

Lemma Forall_upper (P : ascii -> bool) (l : gostring) :
  (forall c, P (strings.upperByte c) = P c) ->
  Forall (fun c => P c = true) (map strings.upperByte l) <-> Forall (fun c => P c = true) l.
Proof.
  intros HP. rewrite Forall_map. split; apply Forall_impl; intros c; now rewrite HP.
Qed.

Lemma isClause_matches (t : gostring) :
  isClause t <-> matches shardRegexp (map strings.upperByte t).
Proof.
  unfold shardRegexp. split.
  - intros [kw ws1 ws2 digits Hkw H1 H2 Hd Hne].
    rewrite !map_app, Hkw. apply matches_literal. eexists. split; [reflexivity|].
    apply matches_star; [reflexivity | now apply Forall_upper; [apply upperByte_class_s|] |].
    cbn [lit list_ascii_of_string map app].
    apply matches_one; [reflexivity | reflexivity |].
    apply matches_star; [reflexivity | now apply Forall_upper; [apply upperByte_class_s|] |].
    destruct digits as [|d ds]; [contradiction|]. inversion Hd; subst.
    cbn [map]. rewrite <- (app_nil_r (map _ ds)).
    apply matches_plus; [reflexivity | cbn; now rewrite upperByte_class_d | | constructor].
    now apply Forall_upper; [apply upperByte_class_d|].
  - intros H. apply matches_literal in H as (u1 & Hu & H).
    apply matches_star_inv in H as (ws1 & u2 & -> & H1 & H); [|reflexivity].
    apply matches_one_inv in H as (e & u3 & -> & He & H); [|reflexivity].
    apply matches_star_inv in H as (ws2 & u4 & -> & H2 & H); [|reflexivity].
    apply matches_plus_inv in H as (d & ds & u5 & -> & Hd & Hds & H); [|reflexivity].
    apply matches_nil_inv in H. subst u5. rewrite app_nil_r in Hu.
    cbn [cls] in He. apply Ascii.eqb_eq in He. subst e.
    apply map_eq_app in Hu as (kw & r1 & -> & Hkw & Hu).
    apply map_eq_app in Hu as (w1 & r2 & -> & Hw1 & Hu).
    apply map_eq_cons in Hu as (e & r3 & -> & He & Hu).
    apply map_eq_app in Hu as (w2 & r4 & -> & Hw2 & Hu).
    apply upperByte_equals in He. subst e.
    change ("="%char :: w2 ++ r4) with (lit "=" ++ w2 ++ r4).
    constructor.
    + exact Hkw.
    + subst ws1. unfold allOf in H1. cbn [cls] in H1.
      apply (Forall_upper class_s); [apply upperByte_class_s | exact H1].
    + subst ws2. unfold allOf in H2. cbn [cls] in H2.
      apply (Forall_upper class_s); [apply upperByte_class_s | exact H2].
    + apply (Forall_upper class_d); [apply upperByte_class_d|].
      rewrite Hu. constructor; assumption.
    + intros ->. discriminate.
Qed.

Section WithTables.
Variable up : gostring -> gostring.

(** The annotator written with the compiled pattern. *)
Lemma addSpecialComment_unfold (q : gostring) :
  addSpecialComment up q =
    if strings.Contains q specialPrefix then Some q
    else match regexp.FindStringIndex shardRegexp (strings.ToUpper up q) with
         | None => Some q
         | Some (lo, hi) =>
             match slice_to q lo, slice q lo hi, slice_from q hi with
             | Some before, Some clause, Some after =>
                 Some (before ++ specialPrefix ++ clause ++ lit " */" ++ after)
             | _, _, _ => None
             end
         end.
Proof.
  unfold addSpecialComment. rewrite Compile_shardPattern. reflexivity.
Qed.

Lemma addSpecialComment_marked (q : gostring) :
  strings.Contains q specialPrefix = true -> addSpecialComment up q = Some q.
Proof.
  intros H. rewrite addSpecialComment_unfold, H. reflexivity.
Qed.

(** Whatever the annotator returns carries the marker or is its input. *)
Lemma addSpecialComment_result (q r : gostring) :
  addSpecialComment up q = Some r ->
  r = q \/ strings.Contains r specialPrefix = true.
Proof.
  rewrite addSpecialComment_unfold.
  destruct (strings.Contains q specialPrefix); [intros H; inversion H; auto|].
  destruct (regexp.FindStringIndex shardRegexp (strings.ToUpper up q)) as [[lo hi]|];
    [|intros H; inversion H; auto].
  destruct (slice_to q lo) as [a|]; [|discriminate].
  destruct (slice q lo hi) as [b|]; [|discriminate].
  destruct (slice_from q hi) as [c|]; [|discriminate].
  intros H. right.
  replace r with (a ++ specialPrefix ++ (b ++ lit " */" ++ c));
    [apply Contains_app | injection H as H'; exact H'].
Qed.

(** The annotator returns whenever upper-casing keeps the length of the
    statement, as it does on ASCII text. *)
Lemma addSpecialComment_total (q : gostring) :
  List.length (strings.ToUpper up q) = List.length q ->
  exists r, addSpecialComment up q = Some r.
Proof.
  intros Hlen. rewrite addSpecialComment_unfold.
  destruct (strings.Contains q specialPrefix); [eauto|].
  destruct (regexp.FindStringIndex shardRegexp (strings.ToUpper up q))
    as [[lo hi]|] eqn:E; [|eauto].
  apply FindStringIndex_bounds in E. rewrite Hlen in E.
  destruct (slices_partition q lo hi) as (-> & -> & -> & _); [lia..|].
  eauto.
Qed.

(** C4.  Annotating twice is annotating once: the second pass returns what
    the first returned (and where the first pass panics there is nothing
    to pass on); a statement that already holds the marker [/*!90000 ] is
    returned as it is; on ASCII text the annotator always returns. *)
Theorem addSpecialComment_idempotent (q : gostring) :
  match addSpecialComment up q with
  | Some r => addSpecialComment up r
  | None => None
  end = addSpecialComment up q
  /\ (strings.Contains q specialPrefix = true -> addSpecialComment up q = Some q)
  /\ (strings.isASCII q = true -> exists r, addSpecialComment up q = Some r).
Proof.
  split; [|split].
  - destruct (addSpecialComment up q) as [r|] eqn:E; [|reflexivity].
    destruct (addSpecialComment_result q r E) as [-> | H].
    + exact E.
    + now apply addSpecialComment_marked.
  - apply addSpecialComment_marked.
  - intros H. apply addSpecialComment_total. now apply ToUpper_ascii_length.
Qed.

(** X23.  [SetDDLBinlog] where the annotation returns.  With a nil client
    it returns the transaction as it got it, whatever the query.  With a
    client it sets the BinlogInfo option, and no other, to the Prewrite
    event with the annotated query, the job id and the client, if the
    annotation returns, as it does on ASCII text; it panics if the
    annotation does.  The earlier revision annotates in the same way; it
    returns the transaction untouched for the nil interface only: for an
    interface that holds a client pointer, nil or not, it sets the option
    to the event with that pointer, and for one that holds anything else it
    panics. *)
Theorem SetDDLBinlog_sets_option (txn : Transaction) (jobID : Z) (q : gostring) :
  SetDDLBinlog up None txn jobID q = Some txn
  /\ (forall c,
         match addSpecialComment up q with
         | Some q' =>
             exists txn',
             SetDDLBinlog up (Some c) txn jobID q = Some txn'
             /\ options txn' kv_BinlogInfo
                = Some (val_BinlogInfo (ddlInfo (Some c) jobID q'))
             /\ Tp (Data (ddlInfo (Some c) jobID q')) = BinlogType_Prewrite
             /\ (forall o, o <> kv_BinlogInfo -> options txn' o = options txn o)
         | None => SetDDLBinlog up (Some c) txn jobID q = None
         end)
  /\ (strings.isASCII q = true -> exists q', addSpecialComment up q = Some q')
  /\ part_001.SetDDLBinlog up part_001.iface_nil txn jobID q = Some txn
  /\ (forall p,
         match addSpecialComment up q with
         | Some q' =>
             exists txn',
             part_001.SetDDLBinlog up (part_001.iface_PumpsClient p) txn jobID q
               = Some txn'
             /\ options txn' kv_BinlogInfo = Some (val_BinlogInfo (ddlInfo p jobID q'))
             /\ (forall o, o <> kv_BinlogInfo -> options txn' o = options txn o)
         | None =>
             part_001.SetDDLBinlog up (part_001.iface_PumpsClient p) txn jobID q = None
         end)
  /\ part_001.SetDDLBinlog up part_001.iface_other txn jobID q = None.
Proof.
  assert (Hother : forall val o, o <> kv_BinlogInfo ->
            options (SetOption txn kv_BinlogInfo val) o = options txn o).
  { intros val o Ho. cbn. destruct o; [contradiction | reflexivity]. }
  repeat split.
  - intros c. unfold SetDDLBinlog.
    destruct (addSpecialComment up q) as [q'|]; [|reflexivity].
    eexists. split; [reflexivity|]. split; [reflexivity|]. split; [reflexivity|].
    apply Hother.
  - intros H. apply addSpecialComment_total. now apply ToUpper_ascii_length.
  - intros p. unfold part_001.SetDDLBinlog.
    change (part_001.addSpecialComment up q) with (addSpecialComment up q).
    destruct (addSpecialComment up q) as [q'|]; [|reflexivity].
    eexists. split; [reflexivity|]. split; [reflexivity|].
    apply Hother.
  - unfold part_001.SetDDLBinlog.
    now destruct (part_001.addSpecialComment up q).
Qed.

(** Where a clause stands in the statement, the pattern matches in the
    upper-cased copy at the same offset. *)
Lemma clause_found (a text b : gostring) :
  isClause text ->
  exists n,
    matchHere shardRegexp (skipn (List.length a) (map strings.upperByte (a ++ text ++ b)))
    = Some n.
Proof.
  intros H. rewrite !map_app, skipn_app, length_map, Nat.sub_diag.
  rewrite skipn_all2 by (rewrite length_map; lia).
  cbn [skipn app]. apply matchHere_complete. now apply isClause_matches.
Qed.

(** On ASCII statements without the marker the annotator does what C5 says:
    if a clause occurs, the marker comment is put around the first one, the
    text before and after it is as it was (later clauses included); if none
    occurs, the statement is returned as it is. *)
Theorem annotate_ascii_statement (q : gostring) :
  strings.isASCII q = true ->
  strings.Contains q specialPrefix = false ->
  ((exists a text b, q = a ++ text ++ b /\ isClause text) ->
   exists before text after,
     q = before ++ text ++ after
     /\ isClause text
     /\ (forall a' text' b', q = a' ++ text' ++ b' -> isClause text' ->
                             List.length before <= List.length a')
     /\ addSpecialComment up q
        = Some (before ++ specialPrefix ++ text ++ lit " */" ++ after))
  /\ ((forall a text b, q = a ++ text ++ b -> ~ isClause text) ->
      addSpecialComment up q = Some q).
Proof.
  intros Hascii Hmark.
  rewrite addSpecialComment_unfold, Hmark, ToUpper_ascii by assumption.
  destruct (regexp.FindStringIndex shardRegexp (map strings.upperByte q))
    as [[lo hi]|] eqn:Efind.
  - apply findFrom_some in Efind as (i & n & Hlo & -> & Hi & Hm & Hfirst).
    cbn in Hlo. subst i. rewrite length_map in Hi.
    pose proof (matchHere_le _ _ _ Hm) as Hn.
    rewrite length_skipn, length_map in Hn.
    destruct (slices_partition q lo (lo + n)) as (-> & -> & -> & Hq); [lia..|].
    replace (lo + n - lo) with n in * by lia.
    assert (Hclause : isClause (firstn n (skipn lo q))).
    { apply isClause_matches. rewrite <- firstn_map, <- skipn_map.
      now apply matchHere_sound. }
    assert (Hgoal :
      exists before text after,
        q = before ++ text ++ after
        /\ isClause text
        /\ (forall a' text' b', q = a' ++ text' ++ b' -> isClause text' ->
                                List.length before <= List.length a')
        /\ Some (firstn lo q ++ specialPrefix ++ firstn n (skipn lo q) ++ lit " */"
                   ++ skipn (lo + n) q)
           = Some (before ++ specialPrefix ++ text ++ lit " */" ++ after)).
    { exists (firstn lo q), (firstn n (skipn lo q)), (skipn (lo + n) q).
      repeat split; [now symmetry | exact Hclause |].
      intros a' text' b' Hq' Hc'.
      rewrite firstn_length_le by lia.
      destruct (Nat.le_gt_cases lo (List.length a')) as [|Hlt]; [assumption|].
      destruct (clause_found a' text' b' Hc') as [m Hm'].
      rewrite <- Hq', (Hfirst _ Hlt) in Hm'. discriminate. }
    split; [intros _; exact Hgoal|].
    intros Hnone. exfalso. apply (Hnone _ _ _ (eq_sym Hq) Hclause).
  - split; [|reflexivity].
    intros (a & text & b & Hq & Hc). exfalso.
    destruct (clause_found a text b Hc) as [m Hm].
    rewrite <- Hq in Hm.
    rewrite (findFrom_none _ _ _ Efind) in Hm. discriminate.
Qed.
End WithTables.

Lemma annotation_of_sample :
  addSpecialComment unicode.mapToUpper (lit "ALTER TABLE t SHARD_ROW_ID_BITS=4")
  = Some (lit "ALTER TABLE t /*!90000 SHARD_ROW_ID_BITS=4 */")
  /\ addSpecialComment unicode.mapToUpper
       (lit "create table t (a int) shard_row_id_bits = 4, shard_row_id_bits=5")
     = Some (lit "create table t (a int) /*!90000 shard_row_id_bits = 4 */, shard_row_id_bits=5")
  /\ addSpecialComment unicode.mapToUpper (lit "create table t (a int)")
     = Some (lit "create table t (a int)").
Proof. split; [|split]; vm_compute; reflexivity. Qed.

Lemma addSpecialComment_idempotent_witness :
  addSpecialComment unicode.mapToUpper (lit "ALTER TABLE t /*!90000 SHARD_ROW_ID_BITS=4 */")
  = Some (lit "ALTER TABLE t /*!90000 SHARD_ROW_ID_BITS=4 */").
Proof.
  destruct (addSpecialComment_idempotent unicode.mapToUpper
              (lit "ALTER TABLE t /*!90000 SHARD_ROW_ID_BITS=4 */")) as (_ & H & _).
  apply H. vm_compute. reflexivity.
Defined.

Lemma SetDDLBinlog_sets_option_witness :
  (exists q',
      addSpecialComment unicode.mapToUpper (lit "ALTER TABLE t SHARD_ROW_ID_BITS=4")
      = Some q')
  /\ (exists txn',
         SetDDLBinlog unicode.mapToUpper (Some emptyClient) emptyTransaction 42%Z
           (lit "ALTER TABLE t SHARD_ROW_ID_BITS=4") = Some txn'
         /\ options txn' kv_BinlogInfo
            = Some (val_BinlogInfo
                      (ddlInfo (Some emptyClient) 42%Z
                         (lit "ALTER TABLE t /*!90000 SHARD_ROW_ID_BITS=4 */")))
         /\ options txn' (kv_OtherOption 1) = None)
  /\ (exists txn',
         part_001.SetDDLBinlog unicode.mapToUpper
           (part_001.iface_PumpsClient (Some emptyClient)) emptyTransaction 42%Z
           (lit "ALTER TABLE t SHARD_ROW_ID_BITS=4") = Some txn'
         /\ options txn' kv_BinlogInfo
            = Some (val_BinlogInfo
                      (ddlInfo (Some emptyClient) 42%Z
                         (lit "ALTER TABLE t /*!90000 SHARD_ROW_ID_BITS=4 */")))
         /\ options txn' (kv_OtherOption 1) = None).
Proof.
  destruct (SetDDLBinlog_sets_option unicode.mapToUpper emptyTransaction 42%Z
              (lit "ALTER TABLE t SHARD_ROW_ID_BITS=4"))
    as (_ & Hset & Hascii & _ & Hearlier & _).
  split; [|split].
  - apply Hascii. vm_compute. reflexivity.
  - specialize (Hset emptyClient).
    rewrite (proj1 annotation_of_sample) in Hset.
    destruct Hset as (txn' & Hret & Hopt & _ & Hframe).
    exists txn'. split; [exact Hret|]. split; [exact Hopt|].
    rewrite Hframe by discriminate. reflexivity.
  - specialize (Hearlier (Some emptyClient)).
    rewrite (proj1 annotation_of_sample) in Hearlier.
    destruct Hearlier as (txn' & Hret & Hopt & Hframe).
    exists txn'. split; [exact Hret|]. split; [exact Hopt|].
    rewrite Hframe by discriminate. reflexivity.
Defined.

(** C5 at its failing inputs.  The offsets of the match are taken in the
    upper-cased copy and used in the statement itself.  Where upper-casing
    shortens the text before the clause (U+0131 takes two bytes, its upper
    case one) the comment opens one byte early and closes before the digit;
    where it lengthens the text (U+0250 takes two bytes, its upper case
    three) the slice runs past the end and the call panics.  On the ASCII
    spelling the comment is around the clause. *)
Theorem annotation_offsets_from_upper_copy :
  addSpecialComment unicode.mapToUpper (alterTable unicode.dotless_i)
  = Some (lit "alter table " ++ unicode.dotless_i
            ++ lit "/*!90000  shard_row_id_bits= */4")
  /\ addSpecialComment unicode.mapToUpper (alterTable unicode.turned_a) = None
  /\ addSpecialComment unicode.mapToUpper (alterTable (lit "t"))
     = Some (lit "alter table t /*!90000 shard_row_id_bits=4 */").
Proof.
  split; [|split]; vm_compute; reflexivity.
Qed.

(** C8 at its failing inputs.  With a client and the statement of C5 whose
    upper case is longer than the text, the annotation panics, so
    [SetDDLBinlog] panics before it reaches [SetOption] and no option is
    set, in either revision.  In the earlier revision an interface that
    holds a nil client pointer is not the nil interface: the option is set,
    to an event that has no client.  On the ASCII spelling of the same
    statement the option is set to the event with the annotated query, and
    with the nil client the transaction is returned as it is, whatever the
    query. *)
Theorem SetDDLBinlog_panics_before_SetOption :
  SetDDLBinlog unicode.mapToUpper (Some emptyClient) emptyTransaction 7%Z
    (alterTable unicode.turned_a) = None
  /\ part_001.SetDDLBinlog unicode.mapToUpper
       (part_001.iface_PumpsClient (Some emptyClient)) emptyTransaction 7%Z
       (alterTable unicode.turned_a) = None
  /\ option_map (fun txn => options txn kv_BinlogInfo)
       (part_001.SetDDLBinlog unicode.mapToUpper (part_001.iface_PumpsClient None)
          emptyTransaction 7%Z (alterTable (lit "t")))
     = Some (Some (val_BinlogInfo
                     (ddlInfo None 7%Z
                        (lit "alter table t /*!90000 shard_row_id_bits=4 */"))))
  /\ option_map (fun txn => options txn kv_BinlogInfo)
       (SetDDLBinlog unicode.mapToUpper (Some emptyClient) emptyTransaction 7%Z
          (alterTable (lit "t")))
     = Some (Some (val_BinlogInfo
                     (ddlInfo (Some emptyClient) 7%Z
                        (lit "alter table t /*!90000 shard_row_id_bits=4 */"))))
  /\ option_map (fun txn => options txn kv_BinlogInfo)
       (SetDDLBinlog unicode.mapToUpper None emptyTransaction 7%Z
          (alterTable unicode.turned_a))
     = Some None.
Proof.
  split; [|split; [|split; [|split]]]; vm_compute; reflexivity.
Qed.

(** Both revisions have the same annotator. *)
Lemma addSpecialComment_same (up : gostring -> gostring) (q : gostring) :
  part_001.addSpecialComment up q = addSpecialComment up q.
Proof. reflexivity. Qed.

End Annotator.

(** * The timeout setter of the earlier revision *)
Module Timeout.
Import part_001.
Local Open Scope Z_scope.

(** C10.  [SetGRPCTimeout t] leaves the binlog write timeout (and the other
    variables) as they are when [t] is below 300 milliseconds, and makes
    the timeout exactly [t] otherwise. *)
Theorem SetGRPCTimeout_threshold (t : Z) (w : World) :
  300 * time.Millisecond = 300000000
  /\ (t < 300 * time.Millisecond -> snd (SetGRPCTimeout t w) = w)
  /\ (300 * time.Millisecond <= t ->
      binlogWriteTimeout (snd (SetGRPCTimeout t w)) = t
      /\ skipBinlog (snd (SetGRPCTimeout t w)) = skipBinlog w
      /\ ignoreError (snd (SetGRPCTimeout t w)) = ignoreError w).
Proof.
  unfold SetGRPCTimeout. split; [reflexivity|]. split; intros H.
  - apply Z.ltb_lt in H. rewrite H. reflexivity.
  - apply Z.ltb_ge in H. rewrite H. cbn. auto.
Qed.

Lemma SetGRPCTimeout_threshold_witness :
  snd (SetGRPCTimeout (299 * time.Millisecond) initialWorld) = initialWorld
  /\ binlogWriteTimeout (snd (SetGRPCTimeout (300 * time.Millisecond) initialWorld))
     = 300 * time.Millisecond.
Proof.
  split.
  - apply (SetGRPCTimeout_threshold (299 * time.Millisecond) initialWorld).
    reflexivity.
  - apply (SetGRPCTimeout_threshold (300 * time.Millisecond) initialWorld).
    discriminate.
Defined.

End Timeout.

(** * The address validator *)
Module AddressValidator.
Import utils ValidatorDefs.

Lemma gostring_eqb_eq (a b : gostring) : gostring_eqb a b = true <-> a = b.
Proof.
  unfold gostring_eqb. destruct (list_eq_dec ascii_dec a b); split; congruence.
Qed.

Lemma parseOne_unfold (str : gostring) :
  parseOne str =
    match url.Parse (normalize str) with
    | Err e => Err (errors_Trace e)
    | OK u =>
        if negb (allowedScheme (url.Scheme u)) then Err (invalidScheme (normalize str))
        else match net.SplitHostPort (url.Host u) with
             | Err _ => Err (invalidHostPort (normalize str))
             | OK _ =>
                 if negb (gostring_eqb (url.Path u) [])
                 then Err (unexpectedPath (normalize str))
                 else OK (url.String u)
             end
    end.
Proof.
  unfold parseOne, normalize, allowedScheme.
  destruct (url.Parse _) as [u|e]; [|reflexivity].
  now rewrite !negb_orb.
Qed.

Lemma parseLoop_acc (strs : list gostring) :
  forall acc,
    parseLoop strs acc =
      match parseLoop strs [] with
      | OK l => OK (acc ++ l)
      | Err e => Err e
      end.
Proof.
  induction strs as [|str rest IH]; intros acc; cbn [parseLoop].
  - now rewrite app_nil_r.
  - destruct (parseOne str) as [a|e]; [|reflexivity].
    rewrite (IH (acc ++ [a])), (IH ([] ++ [a])).
    destruct (parseLoop rest []); [|reflexivity].
    now rewrite <- app_assoc.
Qed.

Lemma parseLoop_cons (str : gostring) (rest : list gostring) :
  parseLoop (str :: rest) [] =
    match parseOne str with
    | Err e => Err e
    | OK a => match parseLoop rest [] with
              | OK l => OK (a :: l)
              | Err e => Err e
              end
    end.
Proof.
  cbn [parseLoop]. destruct (parseOne str) as [a|e]; [|reflexivity].
  now rewrite parseLoop_acc.
Qed.

(** Success: one address per piece, in order. *)
Lemma parseLoop_ok (strs : list gostring) :
  forall addrs,
    parseLoop strs [] = OK addrs ->
    Forall2 (fun str a => parseOne str = OK a) strs addrs.
Proof.
  induction strs as [|str rest IH]; intros addrs H.
  - cbn in H. inversion H. constructor.
  - rewrite parseLoop_cons in H.
    destruct (parseOne str) as [a|e] eqn:E; [|discriminate].
    destruct (parseLoop rest []) as [l|e]; [|discriminate].
    inversion H. subst. constructor; auto.
Qed.

(** Failure: the error of the first piece that fails. *)
Lemma parseLoop_err (strs : list gostring) :
  forall e,
    parseLoop strs [] = Err e ->
    exists pre str post,
      strs = pre ++ str :: post /\ Forall passes pre /\ parseOne str = Err e.
Proof.
  induction strs as [|str rest IH]; intros e H.
  - discriminate.
  - rewrite parseLoop_cons in H.
    destruct (parseOne str) as [a|e'] eqn:E.
    + destruct (parseLoop rest []) as [l|e'']; [discriminate|].
      inversion H. subst e''.
      destruct (IH e eq_refl) as (pre & c & post & -> & Hpre & Hc).
      exists (str :: pre), c, post. repeat split; auto.
      constructor; [now exists a | assumption].
    + inversion H. subst. exists [], str, rest. repeat split; auto.
Qed.

Lemma parseLoop_first_failure (pre : list gostring) (str : gostring)
      (post : list gostring) (e : error) :
  Forall passes pre -> parseOne str = Err e ->
  parseLoop (pre ++ str :: post) [] = Err e.
Proof.
  intros Hpre Hstr. induction Hpre as [|c pre [a Ha] _ IH].
  - cbn [app]. now rewrite parseLoop_cons, Hstr.
  - cbn [app]. now rewrite parseLoop_cons, Ha, IH.
Qed.

(** A piece that fails makes the whole call fail. *)
Lemma parseLoop_fails (strs : list gostring) (str : gostring) (e : error) :
  In str strs -> parseOne str = Err e -> exists e', parseLoop strs [] = Err e'.
Proof.
  induction strs as [|c rest IH]; intros Hin Hstr; [contradiction|].
  rewrite parseLoop_cons.
  destruct (parseOne c) as [a|e'] eqn:E; [|eauto].
  destruct Hin as [-> | Hin]; [congruence|].
  destruct (IH Hin Hstr) as [e' ->]. eauto.
Qed.

(** An empty candidate becomes [http://], whose host is empty. *)
Lemma parseOne_empty (str : gostring) :
  strings.TrimSpace str = [] ->
  parseOne str = Err (invalidHostPort (lit "http://")).
Proof.
  intros H. unfold parseOne. rewrite H. reflexivity.
Qed.

Lemma Split_nonempty (s : gostring) (sep : ascii) : strings.Split s sep <> [].
Proof.
  destruct s as [|c s]; cbn; [discriminate|].
  destruct (Ascii.eqb c sep); [discriminate|].
  destruct (strings.Split s sep); discriminate.
Qed.

Lemma Split_sep (s : gostring) (sep : ascii) :
  strings.Split (sep :: s) sep = [] :: strings.Split s sep.
Proof. cbn. now rewrite Ascii.eqb_refl. Qed.

(** Splitting a text around a separator splits both sides. *)
Lemma Split_app (a b : gostring) (sep : ascii) :
  strings.Split (a ++ sep :: b) sep = strings.Split a sep ++ strings.Split b sep.
Proof.
  induction a as [|c a IH]; cbn [app].
  - now rewrite Split_sep.
  - cbn [strings.Split]. destruct (Ascii.eqb c sep).
    + now rewrite IH.
    + rewrite IH.
      destruct (strings.Split a sep) eqn:E; [now apply Split_nonempty in E|].
      reflexivity.
Qed.

Lemma parseLoop_all_pass (strs : list gostring) :
  Forall passes strs -> exists addrs, parseLoop strs [] = OK addrs.
Proof.
  induction 1 as [|c rest [a Ha] _ [l Hl]].
  - now exists [].
  - exists (a :: l). now rewrite parseLoop_cons, Ha, Hl.
Qed.

(** C7, as the code has it.  Each candidate is checked in this order: the
    URI parse (its error is returned, traced), the scheme (invalid-scheme
    error unless it is http, https, unix or unixs), the host (invalid
    host-port error unless it splits as host:port), the path (unexpected-path
    error unless it is empty).  The call returns the error of the first
    candidate, in input order, that fails a check; when every candidate
    passes it succeeds with one address per candidate, in input order,
    duplicates kept. *)
Theorem ParseHostPortAddr_first_offender (s : gostring) :
  (forall str,
      (forall pe, url.Parse (normalize str) = Err pe ->
                  parseOne str = Err (errors_Trace pe))
      /\ (forall u, url.Parse (normalize str) = OK u ->
            (allowedScheme (url.Scheme u) = false ->
             parseOne str = Err (invalidScheme (normalize str)))
            /\ (allowedScheme (url.Scheme u) = true ->
                (forall why, net.SplitHostPort (url.Host u) = Err why ->
                             parseOne str = Err (invalidHostPort (normalize str)))
                /\ (forall hp, net.SplitHostPort (url.Host u) = OK hp ->
                      (url.Path u <> [] ->
                       parseOne str = Err (unexpectedPath (normalize str)))
                      /\ (url.Path u = [] -> parseOne str = OK (url.String u))))))
  /\ (forall e, ParseHostPortAddr s = Err e ->
        exists pre str post,
          strings.Split s "," = pre ++ str :: post
          /\ Forall passes pre /\ parseOne str = Err e)
  /\ (forall pre str post e,
        strings.Split s "," = pre ++ str :: post ->
        Forall passes pre -> parseOne str = Err e ->
        ParseHostPortAddr s = Err e)
  /\ (Forall passes (strings.Split s ",") -> exists addrs, ParseHostPortAddr s = OK addrs)
  /\ (forall addrs, ParseHostPortAddr s = OK addrs ->
        Forall2 (fun str a => parseOne str = OK a) (strings.Split s ",") addrs
        /\ List.length addrs = List.length (strings.Split s ",")).
Proof.
  split; [|split; [|split; [|split]]].
  - intros str. rewrite parseOne_unfold. split.
    + intros pe ->. reflexivity.
    + intros u ->. split; [intros ->; reflexivity|].
      intros ->. cbn [negb]. split.
      * intros why ->. reflexivity.
      * intros hp ->. split.
        -- intros Hp. destruct (gostring_eqb (url.Path u) []) eqn:E;
             [apply gostring_eqb_eq in E; contradiction | reflexivity].
        -- intros ->. reflexivity.
  - intros e H. now apply parseLoop_err.
  - intros pre str post e Hs Hpre Hstr. unfold ParseHostPortAddr.
    rewrite Hs. now apply parseLoop_first_failure.
  - apply parseLoop_all_pass.
  - intros addrs H. apply parseLoop_ok in H. split; [assumption|].
    symmetry. eapply Forall2_length; eassumption.
Qed.

Lemma ParseHostPortAddr_first_offender_witness :
  ParseHostPortAddr (lit "pd1:2379,[::1,ftp://pd3") =
    Err (errors_Trace
           {| url.Op := lit "parse";
              url.ErrURL := lit "http://[::1";
              url.ErrCause := url.errors_New (lit "missing ']' in host") |}).
Proof.
  destruct (ParseHostPortAddr_first_offender (lit "pd1:2379,[::1,ftp://pd3"))
    as (_ & _ & H & _).
  apply (H [lit "pd1:2379"] (lit "[::1") [lit "ftp://pd3"]).
  - reflexivity.
  - repeat constructor. exists (lit "http://pd1:2379"). reflexivity.
  - reflexivity.
Defined.

(** C7 as stated fails on a candidate that the URI parser rejects: no
    scheme, host or path is parsed, yet the call does not succeed, it
    returns the traced parse error.  It also fails on the order of the
    report: the second candidate below has a parsed scheme outside the
    set, and the call reports the host of the first one. *)
Lemma ParseHostPortAddr_classes_counterexample :
  ParseHostPortAddr (lit "[::1") =
    Err (errors_Trace
           {| url.Op := lit "parse";
              url.ErrURL := lit "http://[::1";
              url.ErrCause := url.errors_New (lit "missing ']' in host") |})
  /\ (exists u, url.Parse (normalize (lit "myhttp:80")) = OK u
                /\ allowedScheme (url.Scheme u) = false)
  /\ ParseHostPortAddr (lit "a,myhttp:80") = Err (invalidHostPort (lit "http://a")).
Proof.
  split; [reflexivity|]. split; [|reflexivity].
  eexists. split; reflexivity.
Qed.

(** C9, as the code has it.  An input with an empty candidate (a piece that
    is empty once trimmed) never succeeds: so the empty string, and every
    input with a leading, trailing or doubled comma.  The error is the
    invalid host-port error for [http://] when every candidate before the
    empty one passes, as for the empty string and after a leading comma. *)
Theorem empty_candidate_never_succeeds (s : gostring) :
  (forall c, In c (strings.Split s ",") -> strings.TrimSpace c = [] ->
             exists e, ParseHostPortAddr s = Err e)
  /\ (forall pre c post,
        strings.Split s "," = pre ++ c :: post ->
        Forall passes pre -> strings.TrimSpace c = [] ->
        ParseHostPortAddr s = Err (invalidHostPort (lit "http://")))
  /\ ParseHostPortAddr [] = Err (invalidHostPort (lit "http://"))
  /\ ParseHostPortAddr (lit "," ++ s) = Err (invalidHostPort (lit "http://"))
  /\ (exists e, ParseHostPortAddr (s ++ lit ",") = Err e)
  /\ (forall rest, exists e, ParseHostPortAddr (s ++ lit ",," ++ rest) = Err e).
Proof.
  assert (Hin : forall t, In [] (strings.Split t ",") ->
                          exists e, ParseHostPortAddr t = Err e).
  { intros t H. unfold ParseHostPortAddr.
    apply (parseLoop_fails _ [] (invalidHostPort (lit "http://")) H).
    now apply parseOne_empty. }
  split; [|split; [|split; [|split; [|split]]]].
  - intros c Hc Hempty. unfold ParseHostPortAddr.
    apply (parseLoop_fails _ c (invalidHostPort (lit "http://")) Hc).
    now apply parseOne_empty.
  - intros pre c post Hs Hpre Hempty. unfold ParseHostPortAddr. rewrite Hs.
    apply parseLoop_first_failure; [assumption | now apply parseOne_empty].
  - reflexivity.
  - unfold ParseHostPortAddr. cbn [lit list_ascii_of_string app].
    rewrite Split_sep, parseLoop_cons. reflexivity.
  - apply Hin. cbn [lit list_ascii_of_string]. rewrite Split_app.
    apply in_or_app. right. now left.
  - intros rest. apply Hin. cbn [lit list_ascii_of_string app].
    rewrite Split_app, Split_sep. apply in_or_app. right. now left.
Qed.

Lemma empty_candidate_never_succeeds_witness :
  ParseHostPortAddr (lit "pd1:2379,  ,pd3:2379") = Err (invalidHostPort (lit "http://")).
Proof.
  destruct (empty_candidate_never_succeeds (lit "pd1:2379,  ,pd3:2379"))
    as (_ & H & _).
  apply (H [lit "pd1:2379"] (lit "  ") [lit "pd3:2379"]).
  - reflexivity.
  - repeat constructor. exists (lit "http://pd1:2379"). reflexivity.
  - reflexivity.
Defined.

(** C9 as stated fails when a candidate before the empty one is rejected
    for another reason: the input has a trailing comma, and the error is
    not the invalid host-port one. *)
Lemma empty_candidate_error_counterexample :
  In [] (strings.Split (lit "ftp://h:1,") ",")
  /\ ParseHostPortAddr (lit "ftp://h:1,") = Err (unexpectedPath (lit "http://ftp://h:1"))
  /\ unexpectedPath (lit "http://ftp://h:1") <> invalidHostPort (lit "http://").
Proof.
  split; [cbn; auto|]. split; [reflexivity | discriminate].
Qed.

Ltac all_bytes c := destruct c as [[] [] [] [] [] [] [] []]; cbn; try reflexivity; try discriminate.

Lemma addrByte_facts (c : ascii) :
  addrByte c = true ->
  (byte_val c <? 128)%N = true
  /\ strings.isSpace1 c = false
  /\ url.shouldEscape c url.encodeHost = false
  /\ Forall (fun x => Ascii.eqb c x = false) (lit "#?/@[]%+,").
Proof.
  all_bytes c; intros _; repeat split; repeat constructor.
Qed.

Lemma hostByte_facts (c : ascii) :
  hostByte c = true -> addrByte c = true /\ Ascii.eqb c ":" = false.
Proof. all_bytes c; intros _; split; reflexivity. Qed.

Lemma isDigit_hostByte (c : ascii) : url.isDigit c = true -> hostByte c = true.
Proof. unfold hostByte. intros ->. now rewrite orb_true_r. Qed.

Lemma Index_byte_none (x : ascii) (s : gostring) :
  differs x s -> strings.Index s [x] = None.
Proof.
  induction 1 as [|c s Hc _ IH]; [reflexivity|].
  cbn. rewrite Hc. cbn. now rewrite IH.
Qed.

Lemma Contains_byte_none (x : ascii) (s : gostring) :
  differs x s -> strings.Contains s [x] = false.
Proof. intros H. unfold strings.Contains. now rewrite Index_byte_none. Qed.

Lemma LastIndex_byte_none (x : ascii) (s : gostring) :
  differs x s -> strings.LastIndex s [x] = None.
Proof.
  induction 1 as [|c s Hc _ IH]; [reflexivity|].
  cbn. rewrite IH, Hc. reflexivity.
Qed.

Lemma LastIndex_byte_last (x : ascii) (a b : gostring) :
  differs x b -> strings.LastIndex (a ++ x :: b) [x] = Some (List.length a).
Proof.
  intros Hb. induction a as [|c a IH].
  - cbn. rewrite (LastIndex_byte_none x b Hb), Ascii.eqb_refl. reflexivity.
  - cbn [app strings.LastIndex List.length]. now rewrite IH.
Qed.

Lemma Count_byte_none (x : ascii) (s : gostring) :
  differs x s -> strings.Count s x = 0.
Proof.
  unfold strings.Count. induction 1 as [|c s Hc _ IH]; [reflexivity|].
  cbn. rewrite Ascii.eqb_sym, Hc. exact IH.
Qed.

Lemma addr_differs (s : gostring) (x : ascii) :
  Forall (fun c => addrByte c = true) s -> In x (lit "#?/@[]%+,") -> differs x s.
Proof.
  intros Hs Hx. unfold differs. eapply Forall_impl; [|exact Hs].
  intros c Hc. cbn beta in Hc. apply addrByte_facts in Hc as (_ & _ & _ & Hall).
  rewrite Forall_forall in Hall. now apply Hall.
Qed.

Lemma unescape_host_plain (s : gostring) :
  Forall (fun c => addrByte c = true) s -> url.unescape s url.encodeHost = OK s.
Proof.
  induction 1 as [|c s Hc _ IH]; [reflexivity|].
  apply addrByte_facts in Hc as (Hlow & _ & Hesc & Hall).
  rewrite Forall_forall in Hall.
  assert (Hpct : Ascii.eqb c "%" = false) by (apply Hall; cbn; tauto).
  assert (Hplus : Ascii.eqb c "+" = false) by (apply Hall; cbn; tauto).
  cbn [url.unescape]. rewrite Hpct, Hplus. cbn [url.isHostMode].
  rewrite Hlow, Hesc, IH. reflexivity.
Qed.

Lemma escape_host_plain (s : gostring) :
  Forall (fun c => addrByte c = true) s -> url.escape s url.encodeHost = s.
Proof.
  induction 1 as [|c s Hc _ IH]; [reflexivity|].
  apply addrByte_facts in Hc as (_ & _ & Hesc & _).
  cbn [url.escape url.isQueryComponent]. rewrite andb_false_r, Hesc, IH. reflexivity.
Qed.

Lemma TrimLeftSpace_plain (c : ascii) (s : gostring) :
  (byte_val c <? 128)%N = true -> strings.isSpace1 c = false ->
  strings.TrimLeftSpace (c :: s) = c :: s.
Proof.
  intros Hlow Hsp. cbn [strings.TrimLeftSpace]. rewrite Hsp.
  assert (H2 : forall c2, strings.isSpace2 c c2 = false).
  { intros c2. unfold strings.isSpace2.
    destruct (byte_val c =? 194)%N eqn:E; [|reflexivity].
    apply N.eqb_eq in E. rewrite E in Hlow. discriminate. }
  assert (H3 : forall c2 c3, strings.isSpace3 c c2 c3 = false).
  { intros c2 c3. unfold strings.isSpace3. apply N.ltb_lt in Hlow.
    destruct (byte_val c =? 225)%N eqn:E1; [apply N.eqb_eq in E1; lia|].
    destruct (byte_val c =? 226)%N eqn:E2; [apply N.eqb_eq in E2; lia|].
    destruct (byte_val c =? 227)%N eqn:E3; [apply N.eqb_eq in E3; lia|].
    reflexivity. }
  destruct s as [|c2 [|c3 s]]; rewrite ?H2, ?H3; reflexivity.
Qed.

Lemma TrimRightSpace_rev_plain (c : ascii) (r : gostring) :
  (byte_val c <? 128)%N = true -> strings.isSpace1 c = false ->
  strings.TrimRightSpace_rev (c :: r) = c :: r.
Proof.
  intros Hlow Hsp. cbn [strings.TrimRightSpace_rev]. rewrite Hsp.
  apply N.ltb_lt in Hlow.
  assert (H2 : forall c2, strings.isSpace2 c2 c = false).
  { intros c2. unfold strings.isSpace2.
    destruct (byte_val c =? 133)%N eqn:E1; [apply N.eqb_eq in E1; lia|].
    destruct (byte_val c =? 160)%N eqn:E2; [apply N.eqb_eq in E2; lia|].
    now rewrite andb_false_r. }
  assert (H3 : forall c3 c2, strings.isSpace3 c3 c2 c = false).
  { intros c3 c2. unfold strings.isSpace3.
    destruct (byte_val c =? 128)%N eqn:E1; [apply N.eqb_eq in E1; lia|].
    destruct (128 <=? byte_val c)%N eqn:E0; [apply N.leb_le in E0; lia|].
    destruct (byte_val c =? 168)%N eqn:E2; [apply N.eqb_eq in E2; lia|].
    destruct (byte_val c =? 169)%N eqn:E3; [apply N.eqb_eq in E3; lia|].
    destruct (byte_val c =? 175)%N eqn:E4; [apply N.eqb_eq in E4; lia|].
    destruct (byte_val c =? 159)%N eqn:E5; [apply N.eqb_eq in E5; lia|].
    cbn. now rewrite !andb_false_r. }
  destruct r as [|c2 [|c3 r]]; rewrite ?H2, ?H3; reflexivity.
Qed.

(** Text without white space at its ends is its own trimming. *)
Lemma TrimSpace_plain (s : gostring) :
  Forall (fun c => addrByte c = true) s -> strings.TrimSpace s = s.
Proof.
  intros Hs. unfold strings.TrimSpace.
  destruct s as [|c s]; [reflexivity|].
  assert (Hc : addrByte c = true) by now inversion Hs.
  apply addrByte_facts in Hc as (Hlow & Hsp & _).
  rewrite TrimLeftSpace_plain by assumption.
  destruct (rev (c :: s)) as [|d r] eqn:E.
  - apply (f_equal (@List.length _)) in E. rewrite length_rev in E. discriminate.
  - assert (Hd : addrByte d = true).
    { rewrite Forall_forall in Hs. apply Hs. apply in_rev. rewrite E. now left. }
    apply addrByte_facts in Hd as (Hlow' & Hsp' & _).
    rewrite TrimRightSpace_rev_plain by assumption.
    now rewrite <- E, rev_involutive.
Qed.

Lemma differs_app (x : ascii) (a b : gostring) :
  differs x a -> differs x b -> differs x (a ++ b).
Proof. intros Ha Hb. apply Forall_app. now split. Qed.

Lemma HasPrefix_bracket (hp : gostring) :
  Forall (fun c => addrByte c = true) hp -> strings.HasPrefix hp (lit "[") = false.
Proof.
  intros H. destruct hp as [|c hp]; [reflexivity|].
  inversion H as [|? ? Hc _]. subst.
  apply addrByte_facts in Hc as (_ & _ & _ & Hall). rewrite Forall_forall in Hall.
  cbn. rewrite (Hall "["%char) by (cbn; tauto). reflexivity.
Qed.

(** The URI that [http://] and a plain host:port parse to. *)
Lemma Parse_http_plain (hp : gostring) :
  Forall (fun c => addrByte c = true) hp ->
  url.Parse (lit "http://" ++ hp) =
    OK {| url.Scheme := lit "http"; url.Opaque := []; url.User := None;
          url.Host := hp; url.Path := []; url.RawPath := [];
          url.ForceQuery := false; url.RawQuery := []; url.Fragment := [] |}.
Proof.
  intros Hhp.
  assert (Hd : forall x, In x (lit "#?/@[]%+,") -> differs x hp)
    by (intros x Hx; now apply addr_differs).
  unfold url.Parse, url.split.
  rewrite (Index_byte_none "#" (lit "http://" ++ hp))
    by (apply differs_app; [repeat constructor | apply Hd; cbn; tauto]).
  unfold url.parse.
  change (gostring_eqb (lit "http://" ++ hp) (lit "*")) with false.
  change (url.getscheme (lit "http://" ++ hp)) with
    (@OK url.urlerror _ (lit "http", lit "//" ++ hp)).
  cbv iota beta.
  rewrite (Count_byte_none "?" (lit "//" ++ hp))
    by (apply differs_app; [repeat constructor | apply Hd; cbn; tauto]).
  cbn [Nat.eqb]. rewrite andb_false_r.
  unfold url.split.
  rewrite (Index_byte_none "?" (lit "//" ++ hp))
    by (apply differs_app; [repeat constructor | apply Hd; cbn; tauto]).
  cbv iota beta.
  change (strings.HasPrefix (lit "//" ++ hp) (lit "/")) with true.
  change (strings.HasPrefix (lit "//" ++ hp) (lit "//")) with true.
  change (map strings.lowerByte (lit "http")) with (lit "http").
  change (gostring_eqb (lit "http") []) with false.
  cbn [negb andb orb].
  change (skipn 2 (lit "//" ++ hp)) with hp.
  rewrite (Index_byte_none "/" hp) by (apply Hd; cbn; tauto).
  unfold url.parseAuthority.
  change (lit "@") with ["@"%char].
  rewrite (LastIndex_byte_none "@" hp) by (apply Hd; cbn; tauto).
  unfold url.parseHost. rewrite HasPrefix_bracket by assumption.
  rewrite unescape_host_plain by assumption.
  reflexivity.
Qed.

Lemma Split_one (sep : ascii) (s : gostring) :
  differs sep s -> strings.Split s sep = [s].
Proof.
  induction 1 as [|c s Hc _ IH]; [reflexivity|].
  cbn. now rewrite Hc, IH.
Qed.

Lemma host_port_bytes (host port : gostring) :
  Forall (fun c => hostByte c = true) host ->
  Forall (fun c => url.isDigit c = true) port ->
  Forall (fun c => addrByte c = true) (host ++ lit ":" ++ port)
  /\ differs ":" host /\ differs ":" port.
Proof.
  intros Hh Hp. repeat split.
  - apply Forall_app. split; [|constructor; [reflexivity|]].
    + eapply Forall_impl; [|exact Hh]. intros c Hc. now apply hostByte_facts.
    + eapply Forall_impl; [|exact Hp]. intros c Hc.
      now apply hostByte_facts, isDigit_hostByte.
  - eapply Forall_impl; [|exact Hh]. intros c Hc. now apply hostByte_facts.
  - eapply Forall_impl; [|exact Hp]. intros c Hc.
    now apply hostByte_facts, isDigit_hostByte.
Qed.

Lemma SplitHostPort_plain (host port : gostring) :
  Forall (fun c => hostByte c = true) host ->
  Forall (fun c => url.isDigit c = true) port ->
  net.SplitHostPort (host ++ lit ":" ++ port) = OK (host, port).
Proof.
  intros Hh Hp.
  destruct (host_port_bytes host port Hh Hp) as (Hall & Hhost & Hport).
  assert (Hd : forall x, In x (lit "#?/@[]%+,") -> differs x (host ++ lit ":" ++ port))
    by (intros x Hx; now apply addr_differs).
  unfold net.SplitHostPort.
  change (lit ":") with [":"%char]. cbn [app].
  rewrite (LastIndex_byte_last ":" host port Hport).
  assert (Hfirst : match host ++ ":"%char :: port with
                   | c :: _ => Ascii.eqb c "["
                   | [] => false
                   end = false).
  { pose proof (HasPrefix_bracket _ Hall) as H. cbn [lit list_ascii_of_string app] in H.
    destruct (host ++ ":"%char :: port) as [|c r]; [reflexivity|].
    cbn in H. now rewrite andb_true_r in H. }
  rewrite Hfirst.
  rewrite firstn_app, Nat.sub_diag, firstn_all, app_nil_r.
  rewrite (Contains_byte_none ":" host Hhost).
  rewrite !skipn_O. change (lit "[") with ["["%char]. change (lit "]") with ["]"%char].
  rewrite !Contains_byte_none by (apply Hd; cbn; tauto).
  replace (skipn (S (List.length host)) (host ++ ":"%char :: port)) with port; [reflexivity|].
  clear. induction host as [|c h IH]; [reflexivity | exact IH].
Qed.

Lemma String_http_plain (hp : gostring) :
  hp <> [] ->
  Forall (fun c => addrByte c = true) hp ->
  url.String {| url.Scheme := lit "http"; url.Opaque := []; url.User := None;
                url.Host := hp; url.Path := []; url.RawPath := [];
                url.ForceQuery := false; url.RawQuery := []; url.Fragment := [] |}
  = lit "http://" ++ hp.
Proof.
  intros Hne Hhp. unfold url.String, url.EscapedPath.
  cbn [url.Scheme url.Opaque url.User url.Host url.Path url.RawPath url.ForceQuery
       url.RawQuery url.Fragment].
  rewrite escape_host_plain by assumption.
  destruct hp as [|c hp]; [contradiction|].
  cbn. now rewrite app_nil_r.
Qed.

(** A host:port of plain bytes that does not hold the text "http" comes out
    with the scheme http. *)
Theorem plain_host_port_gets_http (host port : gostring) :
  Forall (fun c => hostByte c = true) host ->
  Forall (fun c => url.isDigit c = true) port ->
  strings.Contains (host ++ lit ":" ++ port) (lit "http") = false ->
  ParseHostPortAddr (host ++ lit ":" ++ port)
  = OK [lit "http://" ++ host ++ lit ":" ++ port].
Proof.
  intros Hh Hp Hno.
  destruct (host_port_bytes host port Hh Hp) as (Hall & _ & _).
  unfold ParseHostPortAddr.
  rewrite Split_one by (apply addr_differs; [assumption | cbn; tauto]).
  rewrite parseLoop_cons. cbn [parseLoop].
  unfold parseOne. rewrite TrimSpace_plain by assumption. rewrite Hno. cbn [negb].
  rewrite Parse_http_plain by assumption.
  cbn [url.Scheme url.Host url.Path].
  rewrite SplitHostPort_plain by assumption.
  rewrite String_http_plain; [reflexivity | | assumption].
  destruct host; discriminate.
Qed.

Lemma isSpace1_not_comma (b : ascii) :
  strings.isSpace1 b = true -> Ascii.eqb b "," = false.
Proof. all_bytes b. Qed.

Lemma TrimLeftSpace_lead (ws s : gostring) :
  Forall (fun b => strings.isSpace1 b = true) ws ->
  strings.TrimLeftSpace (ws ++ s) = strings.TrimLeftSpace s.
Proof.
  induction 1 as [|b ws Hb _ IH]; [reflexivity|].
  cbn [app strings.TrimLeftSpace]. now rewrite Hb.
Qed.

Lemma TrimRightSpace_rev_lead (ws r : gostring) :
  Forall (fun b => strings.isSpace1 b = true) ws ->
  strings.TrimRightSpace_rev (ws ++ r) = strings.TrimRightSpace_rev r.
Proof.
  induction 1 as [|b ws Hb _ IH]; [reflexivity|].
  cbn [app strings.TrimRightSpace_rev]. now rewrite Hb.
Qed.

(** Trimming takes the white space around a plain text away. *)
Lemma TrimSpace_padded (w1 s w2 : gostring) :
  Forall (fun b => strings.isSpace1 b = true) w1 ->
  Forall (fun b => strings.isSpace1 b = true) w2 ->
  Forall (fun b => addrByte b = true) s ->
  strings.TrimSpace (w1 ++ s ++ w2) = s.
Proof.
  intros H1 H2 Hs.
  assert (Hplain : strings.TrimSpace s = s) by now apply TrimSpace_plain.
  unfold strings.TrimSpace in *.
  rewrite TrimLeftSpace_lead by assumption.
  destruct s as [|c s].
  - cbn [app]. clear Hplain.
    replace (strings.TrimLeftSpace w2) with (@nil ascii); [reflexivity|].
    clear -H2. rewrite <- (app_nil_r w2). rewrite TrimLeftSpace_lead by assumption.
    reflexivity.
  - assert (Hc : addrByte c = true) by now inversion Hs.
    apply addrByte_facts in Hc as (Hlow & Hsp & _).
    cbn [app]. rewrite TrimLeftSpace_plain in * by assumption.
    change (c :: s ++ w2) with ((c :: s) ++ w2).
    rewrite rev_app_distr, TrimRightSpace_rev_lead; [exact Hplain|].
    now apply Forall_rev.
Qed.

Lemma parseOne_plain (str host port : gostring) :
  strings.TrimSpace str = host ++ lit ":" ++ port ->
  Forall (fun c => hostByte c = true) host ->
  Forall (fun c => url.isDigit c = true) port ->
  strings.Contains (host ++ lit ":" ++ port) (lit "http") = false ->
  parseOne str = OK (lit "http://" ++ host ++ lit ":" ++ port).
Proof.
  intros Htrim Hh Hp Hno.
  destruct (host_port_bytes host port Hh Hp) as (Hall & _ & _).
  unfold parseOne. rewrite Htrim, Hno. cbn [negb].
  rewrite Parse_http_plain by assumption.
  cbn [url.Scheme url.Host url.Path].
  rewrite SplitHostPort_plain by assumption.
  rewrite String_http_plain; [reflexivity | | assumption].
  destruct host; discriminate.
Qed.

Lemma parseOne_written (c : candidate) :
  plainCandidate c -> parseOne (written c) = OK (endpoint c).
Proof.
  intros (H1 & Hh & Hp & H2 & Hno).
  apply parseOne_plain; try assumption.
  apply (TrimSpace_padded (lead c) (hostport c) (trail c)); try assumption.
  exact (proj1 (host_port_bytes _ _ Hh Hp)).
Qed.

Lemma written_no_comma (c : candidate) :
  plainCandidate c -> differs "," (written c).
Proof.
  intros (H1 & Hh & Hp & H2 & _). unfold written.
  apply differs_app; [|apply differs_app].
  - eapply Forall_impl; [|exact H1]. intros b. apply isSpace1_not_comma.
  - apply addr_differs; [exact (proj1 (host_port_bytes _ _ Hh Hp)) | cbn; tauto].
  - eapply Forall_impl; [|exact H2]. intros b. apply isSpace1_not_comma.
Qed.

Lemma Split_joinComma (pieces : list gostring) :
  pieces <> [] -> Forall (differs ",") pieces ->
  strings.Split (joinComma pieces) "," = pieces.
Proof.
  intros Hne H. induction H as [|a rest Ha Hrest IH]; [contradiction|].
  destruct rest as [|b rest].
  - cbn [joinComma]. now apply Split_one.
  - change (joinComma (a :: b :: rest)) with (a ++ ","%char :: joinComma (b :: rest)).
    rewrite Split_app, Split_one by assumption.
    rewrite IH by discriminate. reflexivity.
Qed.

Lemma parseLoop_map (cands : list candidate) :
  Forall plainCandidate cands ->
  parseLoop (map written cands) [] = OK (map endpoint cands).
Proof.
  induction 1 as [|c rest Hc _ IH]; [reflexivity|].
  cbn [map]. now rewrite parseLoop_cons, parseOne_written, IH.
Qed.

(** A list of plain host:port candidates, none holding the text "http",
    comes out as the same hosts and ports under the scheme http, in the
    order of the input, the white space around each candidate dropped. *)
Theorem plain_candidates_get_http (cands : list candidate) :
  cands <> [] ->
  Forall plainCandidate cands ->
  ParseHostPortAddr (joinComma (map written cands)) = OK (map endpoint cands).
Proof.
  intros Hne Hall. unfold ParseHostPortAddr.
  rewrite Split_joinComma.
  - now apply parseLoop_map.
  - destruct cands; [contradiction | discriminate].
  - apply Forall_map. eapply Forall_impl; [|exact Hall].
    intros c. apply written_no_comma.
Qed.

(** C6 at its failing inputs.  The test before the prefix is for the
    substring "http", not for a scheme: a host:port whose host contains it
    is parsed without the prefix and rejected for its scheme, and a
    candidate with the scheme unix is given the prefix and rejected for its
    path. *)
Theorem scheme_test_is_substring_http :
  ParseHostPortAddr (lit "myhttp:80") = Err (invalidScheme (lit "myhttp:80"))
  /\ ParseHostPortAddr (lit "unix://127.0.0.1:2379")
     = Err (unexpectedPath (lit "http://unix://127.0.0.1:2379"))
  /\ ParseHostPortAddr (lit "127.0.0.1:2379") = OK [lit "http://127.0.0.1:2379"].
Proof.
  repeat split.
Qed.

End AddressValidator.

(** * More of the write coordinator *)
Module CoordinatorFacts.
Import binloginfo CoordinatorDefs CoordinatorMore WriteCoordinator.
Local Open Scope Z_scope.

(** X1.  With the breaker closed, an event without client makes the write
    return the error of the missing client at once: nothing is counted,
    nothing is stored and no relay is called, whatever the ignore flag. *)
Theorem no_client_is_an_error (info : BinlogInfo) (cid : Z) (w : World) :
  skipBinlog w = 0 ->
  Client info = None ->
  WriteBinlog info cid w = (Some (errors_New (lit "pumps client is nil")), w).
Proof.
  intros Hskip Hc. unfold WriteBinlog, bind, LoadUint32, ret. cbn [load].
  rewrite Hskip, Hc. reflexivity.
Qed.

Lemma no_client_is_an_error_witness :
  WriteBinlog {| Data := sampleBinlog; Client := None |} 1 (closedWorld 1)
  = (Some (errors_New (lit "pumps client is nil")), closedWorld 1).
Proof.
  apply (no_client_is_an_error {| Data := sampleBinlog; Client := None |} 1 (closedWorld 1));
    reflexivity.
Defined.

(** X2.  A write returns an error only with the breaker closed, and then only
    for a missing client or for a relay failure met with the ignore flag not
    at 1: an open breaker and an ignored failure never surface. *)
Theorem error_only_when_closed (info : BinlogInfo) (cid : Z) (w : World) (err : error) :
  fst (WriteBinlog info cid w) = Some err ->
  skipBinlog w <= 0
  /\ (Client info = None
      \/ exists c e w1,
           Client info = Some c
           /\ pumps_WriteBinlog c (Data info) w = (Some e, w1)
           /\ ignoreError w1 <> 1).
Proof.
  unfold WriteBinlog, bind, LoadUint32, Client_WriteBinlog, CriticalErrorCounter_Add, ret.
  cbn [load].
  destruct (0 <? skipBinlog w) eqn:Hs; [discriminate|].
  apply Z.ltb_ge in Hs. intros H. split; [assumption|].
  destruct (Client info) as [c|]; [|now left].
  right. destruct (pumps_WriteBinlog c (Data info) w) as [[e|] w1] eqn:Hcall;
    [|discriminate].
  exists c, e, w1. split; [reflexivity|]. split; [exact Hcall|].
  change (ignoreError (recordCall (Data info) w1)) with (ignoreError w1) in H.
  destruct (ignoreError w1 =? 1) eqn:E.
  - destruct (CompareAndSwapUint32 _ _ _ _). discriminate.
  - now apply Z.eqb_neq in E.
Qed.

Lemma error_only_when_closed_witness :
  skipBinlog (closedWorld 0) <= 0
  /\ (Client (sampleInfo grpcTooLarge) = None
      \/ exists c e w1,
           Client (sampleInfo grpcTooLarge) = Some c
           /\ pumps_WriteBinlog c (Data (sampleInfo grpcTooLarge)) (closedWorld 0)
              = (Some e, w1)
           /\ ignoreError w1 <> 1).
Proof.
  exact (error_only_when_closed (sampleInfo grpcTooLarge) 1 (closedWorld 0)
           (errors_New (lit "binlog data is too large (" ++ grpcTooLarge ++ lit ")"))
           eq_refl).
Defined.

Lemma quiet_keeps (P : World -> Prop) (c : PumpsClient) : quiet c -> keeps P c.
Proof. intros Hq data w Hw. now rewrite Hq. Qed.

Lemma WriteBinlog_keeps_flag (info : BinlogInfo) (cid : Z) (w : World) :
  skipIsFlag w -> clientKeeps skipIsFlag info ->
  skipIsFlag (snd (WriteBinlog info cid w)).
Proof.
  intros [H0 | H1] Hk.
  - destruct (Client info) as [c|] eqn:Hc.
    + destruct (pumps_WriteBinlog c (Data info) w) as [err w1] eqn:Hcall.
      assert (Hw1 : skipIsFlag w1).
      { unfold clientKeeps in Hk. rewrite Hc in Hk.
        specialize (Hk (Data info) w (or_introl H0)). now rewrite Hcall in Hk. }
      rewrite (WriteBinlog_closed info cid c w w1 err H0 Hc Hcall).
      destruct err as [e|]; [|exact Hw1].
      destruct (ignoreError w1 =? 1).
      * unfold CompareAndSwapUint32, skipIsFlag.
        cbn [load addCritical recordCall skipBinlog].
        destruct (skipBinlog w1 =? 0) eqn:E; cbn; [now right | exact Hw1].
      * destruct (strings.Contains e tooLarge); exact Hw1.
    + unfold WriteBinlog, bind, LoadUint32, ret. cbn [load].
      rewrite H0, Hc. now left.
  - rewrite WriteBinlog_open by lia. now right.
Qed.

(** X3.  The skip counter is a flag: from a world where it is 0 or 1, no
    sequence of writes, resets and settings of the ignore flag takes it
    anywhere else, as long as what runs during the relay calls keeps it so
    (other writers of this package do). *)
Theorem skip_counter_is_a_flag (calls : list call) (w : World) :
  Forall (callKeeps skipIsFlag) calls ->
  skipIsFlag w ->
  skipIsFlag (runCalls calls w).
Proof.
  intros Hcalls. revert w.
  induction Hcalls as [|c rest Hc _ IH]; intros w Hw; [exact Hw|].
  cbn [runCalls]. apply IH.
  destruct c as [info cid| |on].
  - unfold runCall, bind, ret.
    pose proof (WriteBinlog_keeps_flag info cid w Hw Hc) as H.
    destruct (WriteBinlog info cid w). exact H.
  - now left.
  - destruct on; exact Hw.
Qed.

(** An overlapping writer of this package keeps the flag when its own relay
    client does. *)
Lemma overlapped_keeps_flag (inner : BinlogInfo) (text : gostring) :
  clientKeeps skipIsFlag inner -> keeps skipIsFlag (overlappedClient inner text).
Proof.
  intros Hk data w Hw.
  change (skipIsFlag (snd (WriteBinlog inner 1 w))).
  now apply WriteBinlog_keeps_flag.
Qed.

Lemma skip_counter_is_a_flag_witness :
  skipIsFlag
    (runCalls [call_SetIgnoreError true;
               call_WriteBinlog
                 {| Data := sampleBinlog;
                    Client := Some (overlappedClient (sampleInfo grpcTooLarge) grpcTooLarge) |} 1;
               call_WriteBinlog (sampleInfo grpcTooLarge) 1;
               call_DisableSkipBinlogFlag;
               call_WriteBinlog (sampleInfo grpcTooLarge) 1]
       (closedWorld 0)).
Proof.
  apply skip_counter_is_a_flag.
  - assert (Hq : forall text, clientKeeps skipIsFlag (sampleInfo text))
      by (intros text; apply quiet_keeps; intros d w'; reflexivity).
    apply Forall_cons; [exact I|].
    apply Forall_cons; [apply overlapped_keeps_flag, Hq|].
    apply Forall_cons; [apply Hq|].
    apply Forall_cons; [exact I|].
    apply Forall_cons; [apply Hq | apply Forall_nil].
  - now left.
Defined.

(** X4.  If error happens once, writing stops: after [SetIgnoreError(true)],
    when the first write of a sequence fails at the relay, that write and all
    the later ones return nil, the relay has been called that one time only,
    every event has been counted as a critical error, and the skip counter is
    1. *)
Theorem first_ignored_failure_stops_writing (info : BinlogInfo) (rest : list BinlogInfo)
        (cid : Z) (w0 : World) (c : PumpsClient) (e : gostring) :
  skipBinlog w0 = 0 ->
  Client info = Some c ->
  pumps_WriteBinlog c (Data info) (snd (SetIgnoreError true w0))
    = (Some e, snd (SetIgnoreError true w0)) ->
  WriteBinlogs (info :: rest) cid (snd (SetIgnoreError true w0))
  = (repeat None (S (List.length rest)),
     {| skipBinlog := 1;
        ignoreError := 1;
        CriticalErrorCounter := CriticalErrorCounter w0 + Z.of_nat (S (List.length rest));
        pumpCalls := Data info :: pumpCalls w0 |}).
Proof.
  intros Hskip Hc Hcall. cbn [WriteBinlogs]. unfold bind.
  rewrite (WriteBinlog_closed info cid c (snd (SetIgnoreError true w0))
             (snd (SetIgnoreError true w0)) (Some e) Hskip Hc Hcall).
  cbn [SetIgnoreError StoreUint32 store snd ignoreError Z.eqb Pos.eqb].
  unfold CompareAndSwapUint32.
  cbn [load addCritical recordCall skipBinlog ignoreError CriticalErrorCounter pumpCalls
       store snd].
  rewrite Hskip. cbn [Z.eqb snd].
  rewrite WriteBinlogs_open by (cbn; lia).
  unfold ret, addCritical. cbn [skipBinlog ignoreError CriticalErrorCounter pumpCalls repeat].
  replace (CriticalErrorCounter w0 + 1 + Z.of_nat (List.length rest))
    with (CriticalErrorCounter w0 + Z.of_nat (S (List.length rest))) by lia.
  reflexivity.
Qed.

Lemma first_ignored_failure_stops_writing_witness :
  WriteBinlogs [sampleInfo grpcTooLarge; sampleInfo grpcTooLarge;
                {| Data := sampleBinlog; Client := None |}] 1
    (snd (SetIgnoreError true (closedWorld 0)))
  = ([None; None; None],
     {| skipBinlog := 1; ignoreError := 1; CriticalErrorCounter := 3;
        pumpCalls := [sampleBinlog] |}).
Proof.
  apply (first_ignored_failure_stops_writing (sampleInfo grpcTooLarge)
           [sampleInfo grpcTooLarge; {| Data := sampleBinlog; Client := None |}] 1
           (closedWorld 0) (failingClient grpcTooLarge) grpcTooLarge);
    reflexivity.
Defined.

Lemma WriteBinlogs_never_trip (infos : list BinlogInfo) (cid : Z) :
  Forall hasQuietClient infos ->
  forall w,
    skipBinlog w = 0 -> ignoreError w = 0 ->
    let (results, w') := WriteBinlogs infos cid w in
    w' = {| skipBinlog := 0; ignoreError := 0;
            CriticalErrorCounter := CriticalErrorCounter w;
            pumpCalls := rev (map Data infos) ++ pumpCalls w |}
    /\ List.length results = List.length infos.
Proof.
  induction 1 as [|info rest (c & Hc & Hq) _ IH]; intros w Hskip Hign.
  - cbn. split; [|reflexivity]. destruct w; cbn in *. now subst.
  - cbn [WriteBinlogs]. unfold bind.
    destruct (pumps_WriteBinlog c (Data info) w) as [err w1] eqn:Hcall.
    assert (w1 = w) by (rewrite <- (Hq (Data info) w), Hcall; reflexivity). subst w1.
    rewrite (WriteBinlog_closed info cid c w w err Hskip Hc Hcall).
    rewrite Hign. cbn [Z.eqb].
    assert (Hnext : forall r,
      let (results, w') :=
        (let (a, w') := (r, recordCall (Data info) w) in
         let (rs, w'') := WriteBinlogs rest cid w' in (a :: rs, w'')) in
      w' = {| skipBinlog := 0; ignoreError := 0;
              CriticalErrorCounter := CriticalErrorCounter w;
              pumpCalls := rev (map Data (info :: rest)) ++ pumpCalls w |}
      /\ List.length results = List.length (info :: rest)).
    { intros r. specialize (IH (recordCall (Data info) w) Hskip Hign).
      destruct (WriteBinlogs rest cid (recordCall (Data info) w)) as [rs w''].
      destruct IH as [-> Hlen]. split; [|cbn; now rewrite Hlen].
      cbn [recordCall pumpCalls CriticalErrorCounter map rev].
      now rewrite <- app_assoc. }
    unfold ret.
    destruct err as [e|]; [|apply Hnext].
    destruct (strings.Contains e tooLarge); apply Hnext.
Qed.

(** X5.  After [SetIgnoreError(false)] relay failures never trip the breaker:
    over any sequence of writes (by events with a client, nothing else
    running meanwhile) the skip counter stays 0, nothing is counted as a
    critical error, and every event reaches the relay, in order. *)
Theorem unignored_failures_never_trip (infos : list BinlogInfo) (cid : Z) (w0 : World) :
  Forall hasQuietClient infos ->
  skipBinlog w0 = 0 ->
  let (results, w') := WriteBinlogs infos cid (snd (SetIgnoreError false w0)) in
  skipBinlog w' = 0
  /\ CriticalErrorCounter w' = CriticalErrorCounter w0
  /\ pumpCalls w' = rev (map Data infos) ++ pumpCalls w0
  /\ List.length results = List.length infos.
Proof.
  intros Hq Hskip.
  pose proof (WriteBinlogs_never_trip infos cid Hq (snd (SetIgnoreError false w0))
                Hskip eq_refl) as H.
  destruct (WriteBinlogs infos cid (snd (SetIgnoreError false w0))) as [rs w'].
  destruct H as [-> Hlen]. cbn. auto.
Qed.

Lemma unignored_failures_never_trip_witness :
  skipBinlog
    (snd (WriteBinlogs [sampleInfo grpcTooLarge; sampleInfo (lit "timeout")] 1
            (snd (SetIgnoreError false (closedWorld 1))))) = 0.
Proof.
  pose proof (unignored_failures_never_trip
                [sampleInfo grpcTooLarge; sampleInfo (lit "timeout")] 1 (closedWorld 1)) as H.
  destruct (WriteBinlogs [sampleInfo grpcTooLarge; sampleInfo (lit "timeout")] 1
              (snd (SetIgnoreError false (closedWorld 1)))) as [rs w'].
  apply H.
  - repeat constructor; eexists; (split; [reflexivity | intros d w; reflexivity]).
  - reflexivity.
Defined.

(** X6.  On an event whose data is there, the earlier revision of
    [WriteBinlog] returns, leaves the same world as the later one and
    returns nil on the same calls; they differ in the errors: the earlier
    one makes the critical error of every relay failure that is not ignored,
    the oversized message included.  On an event whose [Data] is nil the
    earlier revision panics, before the relay is called, when the breaker is
    closed and the event has a client; with the breaker open it counts and
    returns nil, and without client it returns its error. *)
Theorem revisions_compared (info : BinlogInfo) (cid : Z) (w : World) :
  (exists r,
      part_001_write.WriteBinlog (part_001_write.earlier info) cid w = Some r
      /\ snd r = snd (WriteBinlog info cid w)
      /\ (fst r = None <-> fst (WriteBinlog info cid w) = None)
      /\ (forall e,
             fst (WriteBinlog info cid w) = Some (ErrCritical_GenWithStackByArgs e) ->
             fst r = Some (part_001_write.ErrCritical_GenByArgs e))
      /\ (forall c e w1,
             skipBinlog w = 0 -> Client info = Some c ->
             pumps_WriteBinlog c (Data info) w = (Some e, w1) ->
             ignoreError w1 <> 1 ->
             fst r = Some (part_001_write.ErrCritical_GenByArgs e)))
  /\ (forall c,
         skipBinlog w <= 0 ->
         part_001_write.WriteBinlog
           {| part_001_write.Data := None; part_001_write.Client := Some c |} cid w
         = None)
  /\ (forall client,
         0 < skipBinlog w ->
         part_001_write.WriteBinlog
           {| part_001_write.Data := None; part_001_write.Client := client |} cid w
         = Some (None, addCritical 1 w))
  /\ (skipBinlog w <= 0 ->
      part_001_write.WriteBinlog
        {| part_001_write.Data := None; part_001_write.Client := None |} cid w
      = Some (Some (part_001_write.errors_New (lit "pump client is nil")), w)).
Proof.
  split; [|split; [|split]].
  2:{ intros c Hs. unfold part_001_write.WriteBinlog, LoadUint32. cbn [load].
      apply Z.ltb_ge in Hs. now rewrite Hs. }
  2:{ intros client Hs. unfold part_001_write.WriteBinlog, LoadUint32. cbn [load].
      apply Z.ltb_lt in Hs. now rewrite Hs. }
  2:{ intros Hs. unfold part_001_write.WriteBinlog, LoadUint32. cbn [load].
      apply Z.ltb_ge in Hs. now rewrite Hs. }
  unfold part_001_write.WriteBinlog, part_001_write.earlier, part_001_write.writeData,
    WriteBinlog, bind, LoadUint32, Client_WriteBinlog, CriticalErrorCounter_Add, ret.
  cbn [load part_001_write.Data part_001_write.Client].
  destruct (0 <? skipBinlog w) eqn:Hs.
  { eexists. split; [reflexivity|]. cbn [fst snd].
    repeat split; try discriminate; try tauto.
    intros c e w1 H0. rewrite H0 in Hs. discriminate. }
  destruct (Client info) as [c|].
  2:{ eexists. split; [reflexivity|]. cbn [fst snd]. repeat split; discriminate. }
  eexists. split; [reflexivity|].
  assert (Hfourth : forall (X : Prop) (c' : PumpsClient) (e' : gostring) (w1' : World)
                      (r : option gostring * World),
             pumps_WriteBinlog c (Data info) w = r ->
             Some c = Some c' ->
             pumps_WriteBinlog c' (Data info) w = (Some e', w1') ->
             (r = (Some e', w1') -> X) -> X).
  { intros X c' e' w1' r Hr H1 H2 HX. injection H1 as <-. apply HX. congruence. }
  destruct (pumps_WriteBinlog c (Data info) w) as [[e|] w1] eqn:Hcall.
  2:{ cbn [fst snd]. repeat split; try discriminate; try tauto.
      intros c' e' w1' _ H1 H2 _. apply (Hfourth _ c' e' w1' _ eq_refl H1 H2).
      discriminate. }
  change (ignoreError (recordCall (Data info) w1)) with (ignoreError w1).
  destruct (ignoreError w1 =? 1) eqn:E.
  { destruct (CompareAndSwapUint32 _ _ _ _). cbn [fst snd].
    repeat split; try discriminate; try tauto.
    intros c' e' w1' _ H1 H2 H3. apply (Hfourth _ c' e' w1' _ eq_refl H1 H2).
    intros H. injection H as <- <-. apply Z.eqb_eq in E. contradiction. }
  destruct (strings.Contains e (lit "received message larger than max")); cbn [fst snd].
  - repeat split; try discriminate.
    intros c' e' w1' _ H1 H2 _. apply (Hfourth _ c' e' w1' _ eq_refl H1 H2).
    intros H. injection H as <- <-. reflexivity.
  - repeat split; try discriminate.
    + intros e' H. inversion H. reflexivity.
    + intros c' e' w1' _ H1 H2 _. apply (Hfourth _ c' e' w1' _ eq_refl H1 H2).
      intros H. injection H as <- <-. reflexivity.
Qed.

Lemma revisions_compared_witness :
  part_001_write.WriteBinlog (part_001_write.earlier (sampleInfo grpcTooLarge)) 1
    (closedWorld 0)
  = Some (Some (part_001_write.ErrCritical_GenByArgs grpcTooLarge),
          snd (WriteBinlog (sampleInfo grpcTooLarge) 1 (closedWorld 0)))
  /\ fst (WriteBinlog (sampleInfo grpcTooLarge) 1 (closedWorld 0))
     = Some (errors_New (lit "binlog data is too large (" ++ grpcTooLarge ++ lit ")"))
  /\ part_001_write.WriteBinlog
       {| part_001_write.Data := None;
          part_001_write.Client := Some (failingClient grpcTooLarge) |} 1 (closedWorld 0)
     = None.
Proof.
  destruct (revisions_compared (sampleInfo grpcTooLarge) 1 (closedWorld 0))
    as ((r & Hr & Hw & _ & _ & Herr) & Hnil & _).
  split; [|split; [reflexivity|]].
  - rewrite Hr. destruct r as [res w']. cbn [fst snd] in *. rewrite <- Hw.
    rewrite (Herr (failingClient grpcTooLarge) grpcTooLarge (closedWorld 0));
      [reflexivity | reflexivity | reflexivity | reflexivity | discriminate].
  - apply Hnil. discriminate.
Defined.

End CoordinatorFacts.

(** * More of the annotator *)
Module AnnotatorFacts.
Import binloginfo regexp RegexpDefs AnnotatorDefs.
Import StringFacts RegexpFacts Annotator.

(** A closing repetition takes every byte of its class: after the match the
    text ends or goes on with a byte outside the class. *)
Lemma last_repetition_greedy (re : Regexp) (it : item) :
  rep it <> One ->
  forall s n,
    matchHere (re ++ [it]) s = Some n ->
    match skipn n s with
    | c :: _ => cls it c = false
    | [] => True
    end.
Proof.
  intros Hrep.
  assert (Hstar : forall s n,
             matchHere [starItem it] s = Some n ->
             match skipn n s with c :: _ => cls it c = false | [] => True end).
  { induction s as [|c s IH]; intros n H; rewrite matchHere_Star in H by reflexivity.
    - cbn in H. injection H as <-. exact I.
    - cbn [cls starItem] in H. destruct (cls it c) eqn:Ec.
      + destruct (matchHere [starItem it] s) as [k|] eqn:E.
        * injection H as <-. cbn [skipn]. now apply IH.
        * exfalso.
          destruct (star_after (starItem it) [] s eq_refl
                      (ex_intro _ 0 eq_refl) [] (Forall_nil _)) as [m Hm].
          cbn [app] in Hm. congruence.
      + cbn in H. injection H as <-. cbn. exact Ec. }
  assert (Hlast : forall s n,
             matchHere [it] s = Some n ->
             match skipn n s with c :: _ => cls it c = false | [] => True end).
  { intros s n H. destruct (rep it) eqn:Er; [contradiction| |].
    - apply Hstar. destruct it as [p r]. cbn in Er. subst r. exact H.
    - rewrite matchHere_Plus in H by assumption.
      destruct s as [|c s]; [discriminate|].
      destruct (cls it c); [|discriminate].
      destruct (matchHere [starItem it] s) as [k|] eqn:E; [|discriminate].
      injection H as <-. cbn [skipn]. now apply Hstar. }
  induction re as [|it0 re IH]; intros s n H; [now apply Hlast|].
  cbn [app] in H. destruct (rep it0) eqn:Er.
  - rewrite matchHere_One in H by assumption.
    destruct s as [|c s]; [discriminate|].
    destruct (cls it0 c); [|discriminate].
    destruct (matchHere (re ++ [it]) s) as [k|] eqn:E; [|discriminate].
    injection H as <-. cbn [skipn]. now apply IH.
  - destruct (star_split it0 (re ++ [it]) Er s n H) as (k & j & -> & _ & Hrest).
    rewrite Nat.add_comm, <- skipn_skipn. now apply IH.
  - rewrite matchHere_Plus in H by assumption.
    destruct s as [|c s]; [discriminate|].
    destruct (cls it0 c); [|discriminate].
    destruct (matchHere (starItem it0 :: re ++ [it]) s) as [m|] eqn:E; [|discriminate].
    injection H as <-. cbn [skipn].
    destruct (star_split (starItem it0) (re ++ [it]) eq_refl s m E) as (k & j & -> & _ & Hrest).
    rewrite Nat.add_comm, <- skipn_skipn. now apply IH.
Qed.

Section WithTables.
Variable up : gostring -> gostring.

(** X7.  The annotator only inserts: whatever the statement and the rune
    tables, a statement it returns is its input, or its input with the marker
    and the closing of the comment put in at two places, twelve bytes more;
    no byte of the statement is dropped or changed. *)
Theorem annotation_only_inserts (q r : gostring) :
  addSpecialComment up q = Some r ->
  r = q
  \/ exists before inside after,
       q = before ++ inside ++ after
       /\ r = before ++ specialPrefix ++ inside ++ lit " */" ++ after
       /\ List.length r = List.length q + 12.
Proof.
  rewrite addSpecialComment_unfold.
  destruct (strings.Contains q specialPrefix); [intros H; injection H as <-; now left|].
  destruct (regexp.FindStringIndex shardRegexp (strings.ToUpper up q)) as [[lo hi]|];
    [|intros H; injection H as <-; now left].
  unfold slice_to, slice_from, slice.
  destruct ((0 <=? lo) && (lo <=? List.length q)) eqn:E1; [|discriminate].
  destruct ((lo <=? hi) && (hi <=? List.length q)) eqn:E2; [|discriminate].
  destruct ((hi <=? List.length q) && (List.length q <=? List.length q)) eqn:E3;
    [|discriminate].
  apply andb_true_iff in E2 as [Hlo Hhi]. apply Nat.leb_le in Hlo, Hhi.
  destruct (slices_partition q lo hi Hlo Hhi) as (_ & _ & _ & Hq).
  rewrite Nat.sub_0_r. cbn [skipn].
  replace (firstn (List.length q - hi) (skipn hi q)) with (skipn hi q)
    by (rewrite firstn_all2; [reflexivity | rewrite length_skipn; lia]).
  intros H. right.
  exists (firstn lo q), (firstn (hi - lo) (skipn lo q)), (skipn hi q).
  split; [now symmetry|].
  assert (Hr : r = firstn lo q ++ specialPrefix ++ firstn (hi - lo) (skipn lo q)
                     ++ lit " */" ++ skipn hi q)
    by (injection H as H'; symmetry; exact H').
  split; [exact Hr|].
  pose proof (f_equal (@List.length ascii) Hq) as HL.
  rewrite Hr. rewrite !length_app in *.
  change (List.length specialPrefix) with 9. change (List.length (lit " */")) with 3.
  lia.
Qed.


(** X8.  On an ASCII statement without the marker that holds a clause, the
    comment takes in the whole number of the first clause: the statement is
    returned with the marker before that clause and the comment closed after
    its last digit, so the byte after the comment, if there is one, is not a
    digit. *)
Theorem whole_number_inside_comment (q : gostring) :
  strings.isASCII q = true ->
  strings.Contains q specialPrefix = false ->
  (exists a text b, q = a ++ text ++ b /\ isClause text) ->
  exists before text after,
    q = before ++ text ++ after
    /\ isClause text
    /\ addSpecialComment up q
       = Some (before ++ specialPrefix ++ text ++ lit " */" ++ after)
    /\ match after with
       | c :: _ => class_d c = false
       | [] => True
       end.
Proof.
  intros Hascii Hmark (a & t & b & Hq0 & Hc0).
  rewrite addSpecialComment_unfold, Hmark, ToUpper_ascii by assumption.
  destruct (regexp.FindStringIndex shardRegexp (map strings.upperByte q))
    as [[lo hi]|] eqn:Efind.
  - apply findFrom_some in Efind as (i & n & Hlo & -> & Hi & Hm & _).
    cbn in Hlo. subst i. rewrite length_map in Hi.
    pose proof (matchHere_le _ _ _ Hm) as Hn.
    rewrite length_skipn, length_map in Hn.
    destruct (slices_partition q lo (lo + n)) as (-> & -> & -> & Hq); [lia..|].
    replace (lo + n - lo) with n in * by lia.
    exists (firstn lo q), (firstn n (skipn lo q)), (skipn (lo + n) q).
    split; [now symmetry|]. split; [|split; [reflexivity|]].
    + apply isClause_matches. rewrite <- firstn_map, <- skipn_map.
      now apply matchHere_sound.
    + change shardRegexp with
        ((map litItem (lit "SHARD_ROW_ID_BITS")
            ++ [ {| cls := class_s; rep := Star |};
                 {| cls := Ascii.eqb "="; rep := One |};
                 {| cls := class_s; rep := Star |} ])
           ++ [ {| cls := class_d; rep := Plus |} ]) in Hm.
      apply last_repetition_greedy in Hm; [|discriminate].
      rewrite skipn_skipn, Nat.add_comm, skipn_map in Hm.
      destruct (skipn (lo + n) q) as [|c rest]; [exact I|].
      cbn [map cls] in Hm. now rewrite upperByte_class_d in Hm.
  - exfalso. destruct (clause_found a t b Hc0) as [m Hm].
    rewrite <- Hq0 in Hm.
    rewrite (findFrom_none _ _ _ Efind) in Hm. discriminate.
Qed.

(** X9.  The option holds what the last [SetDDLBinlog] attached: a second
    call with a client replaces the event of the first and touches no other
    option; and attaching the annotated query again (as a retry of the job
    does) leaves every option as the first call set it. *)
Theorem SetDDLBinlog_last_call_wins (c1 c2 : PumpsClient) (txn : Transaction)
        (job1 job2 : Z) (q1 q2 q1' q2' : gostring) :
  addSpecialComment up q1 = Some q1' ->
  addSpecialComment up q2 = Some q2' ->
  exists txn1 txn2 txn1',
    SetDDLBinlog up (Some c1) txn job1 q1 = Some txn1
    /\ SetDDLBinlog up (Some c2) txn1 job2 q2 = Some txn2
    /\ options txn2 kv_BinlogInfo = Some (val_BinlogInfo (ddlInfo (Some c2) job2 q2'))
    /\ (forall o, o <> kv_BinlogInfo -> options txn2 o = options txn o)
    /\ SetDDLBinlog up (Some c1) txn1 job1 q1' = Some txn1'
    /\ (forall o, options txn1' o = options txn1 o).
Proof.
  intros H1 H2.
  assert (H1' : addSpecialComment up q1' = Some q1').
  { destruct (addSpecialComment_result up q1 q1' H1) as [-> | Hm];
      [exact H1 | now apply addSpecialComment_marked]. }
  unfold SetDDLBinlog. rewrite H1, H2, H1'.
  eexists. eexists. eexists.
  split; [reflexivity|]. split; [reflexivity|]. split; [reflexivity|].
  split; [|split; [reflexivity|]].
  - intros o Ho. destruct o; [contradiction | reflexivity].
  - intros o. destruct o; reflexivity.
Qed.
End WithTables.

Lemma annotation_only_inserts_witness :
  lit "ALTER TABLE t /*!90000 SHARD_ROW_ID_BITS=4 */" = lit "ALTER TABLE t SHARD_ROW_ID_BITS=4"
  \/ exists before inside after,
       lit "ALTER TABLE t SHARD_ROW_ID_BITS=4" = before ++ inside ++ after
       /\ lit "ALTER TABLE t /*!90000 SHARD_ROW_ID_BITS=4 */"
          = before ++ specialPrefix ++ inside ++ lit " */" ++ after
       /\ List.length (lit "ALTER TABLE t /*!90000 SHARD_ROW_ID_BITS=4 */")
          = List.length (lit "ALTER TABLE t SHARD_ROW_ID_BITS=4") + 12.
Proof.
  apply (annotation_only_inserts unicode.mapToUpper (lit "ALTER TABLE t SHARD_ROW_ID_BITS=4")
           (lit "ALTER TABLE t /*!90000 SHARD_ROW_ID_BITS=4 */")).
  rewrite addSpecialComment_unfold. vm_compute. reflexivity.
Defined.

Lemma whole_number_inside_comment_witness :
  exists before text after,
    lit "alter table t shard_row_id_bits = 45, comment='x'" = before ++ text ++ after
    /\ isClause text
    /\ addSpecialComment unicode.mapToUpper
         (lit "alter table t shard_row_id_bits = 45, comment='x'")
       = Some (before ++ specialPrefix ++ text ++ lit " */" ++ after)
    /\ match after with
       | c :: _ => class_d c = false
       | [] => True
       end.
Proof.
  apply (whole_number_inside_comment unicode.mapToUpper
           (lit "alter table t shard_row_id_bits = 45, comment='x'")).
  - vm_compute. reflexivity.
  - vm_compute. reflexivity.
  - exists (lit "alter table t "), (lit "shard_row_id_bits = 45"), (lit ", comment='x'").
    split; [reflexivity|].
    apply (isClause_intro (lit "shard_row_id_bits") (lit " ") (lit " ") (lit "45"));
      [reflexivity | repeat constructor | repeat constructor | repeat constructor
      | discriminate].
Defined.

Lemma SetDDLBinlog_last_call_wins_witness :
  exists txn1 txn2 txn1',
    SetDDLBinlog unicode.mapToUpper (Some emptyClient) emptyTransaction 1
      (lit "ALTER TABLE t SHARD_ROW_ID_BITS=4") = Some txn1
    /\ SetDDLBinlog unicode.mapToUpper (Some emptyClient) txn1 2 (lit "drop table t")
       = Some txn2
    /\ options txn2 kv_BinlogInfo
       = Some (val_BinlogInfo (ddlInfo (Some emptyClient) 2 (lit "drop table t")))
    /\ (forall o, o <> kv_BinlogInfo -> options txn2 o = options emptyTransaction o)
    /\ SetDDLBinlog unicode.mapToUpper (Some emptyClient) txn1 1
         (lit "ALTER TABLE t /*!90000 SHARD_ROW_ID_BITS=4 */") = Some txn1'
    /\ (forall o, options txn1' o = options txn1 o).
Proof.
  apply (SetDDLBinlog_last_call_wins unicode.mapToUpper emptyClient emptyClient
           emptyTransaction 1 2 (lit "ALTER TABLE t SHARD_ROW_ID_BITS=4")
           (lit "drop table t")).
  - vm_compute. reflexivity.
  - vm_compute. reflexivity.
Defined.

(** The witness of [annotate_ascii_statement]: a statement with two clauses,
    of which the first is annotated. *)
Lemma annotate_ascii_statement_witness :
  exists before text after,
    lit "alter table t shard_row_id_bits=4, SHARD_ROW_ID_BITS = 5"
    = before ++ text ++ after
    /\ isClause text
    /\ (forall a' text' b',
          lit "alter table t shard_row_id_bits=4, SHARD_ROW_ID_BITS = 5"
          = a' ++ text' ++ b' ->
          isClause text' -> List.length before <= List.length a')
    /\ addSpecialComment unicode.mapToUpper
         (lit "alter table t shard_row_id_bits=4, SHARD_ROW_ID_BITS = 5")
       = Some (before ++ specialPrefix ++ text ++ lit " */" ++ after).
Proof.
  destruct (annotate_ascii_statement unicode.mapToUpper
              (lit "alter table t shard_row_id_bits=4, SHARD_ROW_ID_BITS = 5"))
    as [Hsome _].
  - vm_compute. reflexivity.
  - vm_compute. reflexivity.
  - apply Hsome.
    exists (lit "alter table t "), (lit "shard_row_id_bits=4"),
      (lit ", SHARD_ROW_ID_BITS = 5").
    split; [reflexivity|].
    apply (isClause_intro (lit "shard_row_id_bits") [] [] (lit "4"));
      [reflexivity | constructor | constructor | repeat constructor | discriminate].
Defined.

End AnnotatorFacts.

(** * The timeout over a sequence of settings *)
Module TimeoutFacts.
Import part_001 TimeoutMore.
Local Open Scope Z_scope.

Lemma SetGRPCTimeout_step (t : Z) (w : World) :
  snd (SetGRPCTimeout t w)
  = if 300 * time.Millisecond <=? t
    then {| binlogWriteTimeout := t; skipBinlog := skipBinlog w;
            ignoreError := ignoreError w |}
    else w.
Proof.
  unfold SetGRPCTimeout.
  destruct (t <? 300 * time.Millisecond) eqn:E.
  - apply Z.ltb_lt in E.
    destruct (300 * time.Millisecond <=? t) eqn:E'; [apply Z.leb_le in E'; lia|].
    reflexivity.
  - apply Z.ltb_ge in E. apply Z.leb_le in E. now rewrite E.
Qed.

Lemma last_cons_default (t d : Z) (l : list Z) : last (t :: l) d = last l t.
Proof.
  revert t d. induction l as [|x l IH]; intros t d; [reflexivity|].
  change (last (t :: x :: l) d) with (last (x :: l) d).
  rewrite IH. symmetry. apply IH.
Qed.

Lemma accepted_valid (timeouts : list Z) (d : Z) :
  300 * time.Millisecond <= d ->
  300 * time.Millisecond <= last (accepted timeouts) d.
Proof.
  intros Hd.
  assert (H : Forall (fun t => 300 * time.Millisecond <= t) (accepted timeouts)).
  { unfold accepted. apply Forall_forall. intros t Ht.
    apply filter_In in Ht as [_ Ht]. now apply Z.leb_le. }
  induction H as [|t l Ht Hl IH]; [exact Hd|].
  cbn [last]. destruct l; [exact Ht | exact IH].
Qed.

(** X10.  However often and with whatever values [SetGRPCTimeout] is called,
    the write timeout is the last value of at least 300 milliseconds that was
    passed, or the one it had if there was none; so a timeout that is at
    least 300 milliseconds, as the initial 15 seconds are, never falls below
    them.  The other variables are not touched. *)
Theorem timeout_never_invalid (timeouts : list Z) (w : World) :
  binlogWriteTimeout (SetGRPCTimeouts timeouts w)
  = last (accepted timeouts) (binlogWriteTimeout w)
  /\ (300 * time.Millisecond <= binlogWriteTimeout w ->
      300 * time.Millisecond <= binlogWriteTimeout (SetGRPCTimeouts timeouts w))
  /\ skipBinlog (SetGRPCTimeouts timeouts w) = skipBinlog w
  /\ ignoreError (SetGRPCTimeouts timeouts w) = ignoreError w.
Proof.
  assert (Hmain : forall ts w0,
             binlogWriteTimeout (SetGRPCTimeouts ts w0)
             = last (accepted ts) (binlogWriteTimeout w0)
             /\ skipBinlog (SetGRPCTimeouts ts w0) = skipBinlog w0
             /\ ignoreError (SetGRPCTimeouts ts w0) = ignoreError w0).
  { induction ts as [|t rest IH]; intros w0; [cbn; auto|].
    cbn [SetGRPCTimeouts accepted filter]. rewrite SetGRPCTimeout_step.
    fold (accepted rest).
    destruct (300 * time.Millisecond <=? t).
    - destruct (IH {| binlogWriteTimeout := t; skipBinlog := skipBinlog w0;
                      ignoreError := ignoreError w0 |}) as (-> & -> & ->).
      cbn [binlogWriteTimeout skipBinlog ignoreError].
      repeat split. symmetry. apply last_cons_default.
    - apply IH. }
  destruct (Hmain timeouts w) as (H1 & H2 & H3).
  repeat split; try assumption.
  intros Hw. rewrite H1. now apply accepted_valid.
Qed.

Lemma timeout_never_invalid_witness :
  300 * time.Millisecond
  <= binlogWriteTimeout
       (SetGRPCTimeouts [2 * time.Second; 0; 299 * time.Millisecond; -5] initialWorld).
Proof.
  apply (timeout_never_invalid [2 * time.Second; 0; 299 * time.Millisecond; -5]
           initialWorld).
  discriminate.
Defined.

End TimeoutFacts.

(** * The shared client handle *)
Module HandleFacts.
Import binloginfo pumpshandle HandleDefs.
Local Open Scope handle_scope.

Lemma withLock_same (s : Store) : withLock (pumpsClientLock s) s = s.
Proof. now destruct s. Qed.

(** Reading the handle needs the write lock to be free, and puts the read
    locks back as they were. *)
Lemma GetPumpsClient_result (s : Store) :
  GetPumpsClient s
  = if writer (pumpsClientLock s) then None else Some (pumpsClient s, s).
Proof.
  unfold GetPumpsClient, hbind, hret, RLock, RUnlock.
  destruct s as [c [n wr] g k i]. cbn. destruct wr; reflexivity.
Qed.

(** Replacing the handle needs every lock to be free. *)
Lemma SetPumpsClient_result (c : option PumpsClient) (s : Store) :
  SetPumpsClient c s
  = match readers (pumpsClientLock s), writer (pumpsClientLock s) with
    | O, false => Some (tt, withClient c s)
    | _, _ => None
    end.
Proof.
  unfold SetPumpsClient, hbind, Lock, Unlock.
  destruct s as [c0 [n wr] g k i]. cbn. destruct wr; [destruct n; reflexivity|].
  destruct n; reflexivity.
Qed.

(** X11.  With the lock free, what [SetPumpsClient] stores is what
    [GetPumpsClient] returns next, the last of two stores wins, and both
    leave the lock free and the rest of the store alone.  [SetPumpsClient]
    cannot go on while a read lock is held, nor [GetPumpsClient] while the
    write lock is. *)
Theorem handle_set_then_get (c1 c2 : option PumpsClient) (s : Store) :
  (pumpsClientLock s = unlocked ->
   (SetPumpsClient c1 ;;; GetPumpsClient) s = Some (c1, withClient c1 s)
   /\ (SetPumpsClient c1 ;;; SetPumpsClient c2 ;;; GetPumpsClient) s
      = Some (c2, withClient c2 s)
   /\ pumpsClientLock (withClient c2 s) = unlocked)
  /\ (readers (pumpsClientLock s) <> 0%nat -> SetPumpsClient c1 s = None)
  /\ (writer (pumpsClientLock s) = true ->
      SetPumpsClient c1 s = None /\ GetPumpsClient s = None).
Proof.
  split; [|split].
  - intros Hl. unfold hbind.
    rewrite !SetPumpsClient_result, Hl. cbn [readers writer unlocked].
    rewrite GetPumpsClient_result, SetPumpsClient_result.
    cbn [withClient pumpsClientLock]. rewrite Hl. cbn [readers writer unlocked].
    rewrite GetPumpsClient_result. cbn [withClient pumpsClientLock].
    rewrite Hl. cbn. auto.
  - intros Hr. rewrite SetPumpsClient_result.
    destruct (readers (pumpsClientLock s)); [contradiction | reflexivity].
  - intros Hw. rewrite SetPumpsClient_result, GetPumpsClient_result, Hw.
    split; [destruct (readers (pumpsClientLock s))|]; reflexivity.
Qed.

Lemma handle_set_then_get_witness :
  (SetPumpsClient (Some AnnotatorDefs.emptyClient) ;;; GetPumpsClient) freeStore
  = Some (Some AnnotatorDefs.emptyClient,
          withClient (Some AnnotatorDefs.emptyClient) freeStore).
Proof.
  apply (handle_set_then_get (Some AnnotatorDefs.emptyClient) None freeStore).
  reflexivity.
Defined.

Section Collaborators.
Variable globalConfig : Config.
Variable ParseDuration : gostring -> Z.
Variable NewPumpsClient :
  gostring -> Z -> SecurityOption -> option PumpsClient * option gostring.
Variable NewLocalPumpsClient :
  gostring -> gostring -> Z -> SecurityOption -> option PumpsClient * option gostring.
Variable InitLogger : Config -> option gostring.
Variable GetSysVar : gostring -> SysVar.
Variable TiDBLogBin : gostring.
Variable LogBin : gostring.
Variable ScopeSession : Z.

Local Abbreviation getOrCreate :=
  (GetOrCreatePumpsClient globalConfig ParseDuration NewPumpsClient NewLocalPumpsClient
     InitLogger).
Local Abbreviation made :=
  (constructorResult globalConfig ParseDuration NewPumpsClient NewLocalPumpsClient).

(** [GetOrCreatePumpsClient] from a store with the lock free, case by case. *)
Lemma GetOrCreatePumpsClient_result (s : Store) :
  pumpsClientLock s = unlocked ->
  getOrCreate s =
    match pumpsClient s with
    | Some c => Some (Some c, s)
    | None =>
        let s1 := {| pumpsClient := None; pumpsClientLock := unlocked;
                     ProcessGeneralLog := ProcessGeneralLog s;
                     constructed := S (constructed s);
                     loggerInits := loggerInits s |} in
        match snd made with
        | Some _ => Some (None, s1)
        | None =>
            let s2 := {| pumpsClient := None; pumpsClientLock := unlocked;
                         ProcessGeneralLog := ProcessGeneralLog s;
                         constructed := S (constructed s);
                         loggerInits := S (loggerInits s) |} in
            match InitLogger globalConfig with
            | Some _ => Some (None, s2)
            | None => Some (fst made, withClient (fst made) s2)
            end
        end
    end.
Proof.
  intros Hl. unfold GetOrCreatePumpsClient, hbind.
  rewrite GetPumpsClient_result, Hl. cbn [writer unlocked].
  destruct s as [c l g k i]. cbn in Hl. subst l.
  destruct c as [c|]; [reflexivity|].
  unfold made, CreatePumpsClient, RLock, RUnlock, callInitLogger, hret.
  cbn [pumpsClient pumpsClientLock ProcessGeneralLog constructed loggerInits
       readers writer unlocked withLock fst snd freeStore].
  destruct (if (List.length (Binlog_BinlogSocket globalConfig) =? 0)%nat
            then NewPumpsClient _ _ _ else NewLocalPumpsClient _ _ _ _) as [cl [e|]];
    cbn [fst snd]; [reflexivity|].
  destruct (InitLogger globalConfig); [reflexivity|].
  rewrite SetPumpsClient_result. reflexivity.
Qed.

(** X12.  With the lock free, [GetOrCreatePumpsClient] always returns, with
    the lock free again, and what it returns is the handle the store holds
    afterwards.  A handle that is there is returned as it is, nothing
    constructed and the store untouched. *)
Theorem get_or_create_returns_the_stored_handle (s : Store) :
  pumpsClientLock s = unlocked ->
  exists r s',
    getOrCreate s = Some (r, s')
    /\ pumpsClientLock s' = unlocked
    /\ pumpsClient s' = r
    /\ ProcessGeneralLog s' = ProcessGeneralLog s
    /\ (forall c, pumpsClient s = Some c -> r = Some c /\ s' = s).
Proof.
  intros Hl. rewrite GetOrCreatePumpsClient_result by assumption.
  destruct (pumpsClient s) as [c|] eqn:Hc.
  - exists (Some c), s. repeat split; auto; congruence.
  - cbv zeta. destruct (snd made).
    + eexists. eexists. split; [reflexivity|]. repeat split; discriminate.
    + destruct (InitLogger globalConfig).
      * eexists. eexists. split; [reflexivity|]. repeat split; discriminate.
      * eexists. eexists. split; [reflexivity|]. repeat split; discriminate.
Qed.

(** X13.  The client is made at most once: when [GetOrCreatePumpsClient] has
    returned a client, the next call returns it again without a call to a
    constructor and leaves the store as it is.  A failure is not kept: when
    it returns nil from a store without handle, the store still has none,
    one more construction has been tried, and the logger was set up only if
    the constructor gave no error. *)
Theorem client_is_created_once (s s' : Store) (r : option PumpsClient) :
  pumpsClientLock s = unlocked ->
  getOrCreate s = Some (r, s') ->
  (forall c, r = Some c -> getOrCreate s' = Some (Some c, s'))
  /\ (r = None -> pumpsClient s = None ->
      pumpsClient s' = None
      /\ constructed s' = S (constructed s)
      /\ (snd made <> None -> loggerInits s' = loggerInits s)).
Proof.
  intros Hl Hres. rewrite GetOrCreatePumpsClient_result in Hres by assumption.
  destruct (pumpsClient s) as [c0|] eqn:Hc.
  - injection Hres as <- <-. split; [|discriminate].
    intros c [= <-]. rewrite GetOrCreatePumpsClient_result by assumption.
    now rewrite Hc.
  - cbv zeta in Hres. destruct (snd made).
    + injection Hres as <- <-. split; [discriminate|]. intros _ _. repeat split.
    + destruct (InitLogger globalConfig).
      * injection Hres as <- <-. split; [discriminate|]. intros _ _.
        split; [reflexivity|]. split; [reflexivity|].
        intros Hne. now contradiction Hne.
      * injection Hres as <- <-. split.
        { intros c Hr. rewrite GetOrCreatePumpsClient_result by reflexivity.
          cbn [withClient pumpsClient]. now rewrite Hr. }
        { intros Hr _. split; [exact Hr|]. split; [reflexivity|].
          intros Hne. now contradiction Hne. }
Qed.

(** X14.  [GetPumpsClientByLogBin] asks for the client only when a scope
    masked with [ScopeSession] equals 1.  If [ScopeSession] is a flag above
    the lowest bit, no mask equals 1: the call returns nil for every value of
    the two variables, sets nothing and constructs nothing. *)
Theorem by_log_bin_needs_bit_zero (s : Store) :
  Z.testbit ScopeSession 0 = false ->
  GetPumpsClientByLogBin globalConfig ParseDuration NewPumpsClient NewLocalPumpsClient
    InitLogger GetSysVar TiDBLogBin LogBin ScopeSession s
  = Some (None, s).
Proof.
  intros Hbit. unfold GetPumpsClientByLogBin.
  assert (Hmask : forall x, (Z.land x ScopeSession =? 1)%Z = false).
  { intros x. apply Z.eqb_neq. intros H.
    assert (Hb : Z.testbit (Z.land x ScopeSession) 0 = true) by now rewrite H.
    rewrite Z.land_spec, Hbit, andb_false_r in Hb. discriminate. }
  rewrite !Hmask. cbn [andb]. rewrite andb_false_r. reflexivity.
Qed.

End Collaborators.

Lemma get_or_create_returns_the_stored_handle_witness :
  exists r s',
    sampleGetOrCreate freeStore = Some (r, s')
    /\ pumpsClientLock s' = unlocked
    /\ pumpsClient s' = r
    /\ ProcessGeneralLog s' = ProcessGeneralLog freeStore
    /\ (forall c, pumpsClient freeStore = Some c -> r = Some c /\ s' = freeStore).
Proof.
  apply (get_or_create_returns_the_stored_handle sampleConfig (fun _ => 15000000000%Z)
           (fun _ _ _ => (Some AnnotatorDefs.emptyClient, None))
           (fun _ _ _ _ => (None, Some (lit "no socket")))
           (fun _ => None) freeStore).
  reflexivity.
Defined.

Lemma client_is_created_once_witness :
  sampleGetOrCreate
    {| pumpsClient := Some AnnotatorDefs.emptyClient; pumpsClientLock := unlocked;
       ProcessGeneralLog := 0; constructed := 1; loggerInits := 1 |}
  = Some (Some AnnotatorDefs.emptyClient,
          {| pumpsClient := Some AnnotatorDefs.emptyClient; pumpsClientLock := unlocked;
             ProcessGeneralLog := 0; constructed := 1; loggerInits := 1 |}).
Proof.
  destruct (client_is_created_once sampleConfig (fun _ => 15000000000%Z)
              (fun _ _ _ => (Some AnnotatorDefs.emptyClient, None))
              (fun _ _ _ _ => (None, Some (lit "no socket")))
              (fun _ => None) freeStore
              {| pumpsClient := Some AnnotatorDefs.emptyClient; pumpsClientLock := unlocked;
                 ProcessGeneralLog := 0; constructed := 1; loggerInits := 1 |}
              (Some AnnotatorDefs.emptyClient) eq_refl eq_refl) as [Hagain _].
  exact (Hagain AnnotatorDefs.emptyClient eq_refl).
Defined.

Lemma by_log_bin_needs_bit_zero_witness :
  GetPumpsClientByLogBin sampleConfig (fun _ => 15000000000%Z)
    (fun _ _ _ => (Some AnnotatorDefs.emptyClient, None))
    (fun _ _ _ _ => (None, Some (lit "no socket")))
    (fun _ => None)
    (fun _ => {| Scope := 3; Value := lit "1" |}) (lit "tidb_log_bin") (lit "log_bin") 2
    freeStore
  = Some (None, freeStore).
Proof.
  apply by_log_bin_needs_bit_zero. reflexivity.
Defined.

End HandleFacts.

(** * The prewrite value of a session *)
Module PrewriteFacts.
Import prewrite.
Local Open Scope Z_scope.

(** X15.  [GetPrewriteValue] never replaces a prewrite value that the
    context holds, and without [createIfNotExists] it never changes the
    context.  With it, a context that holds none gets a fresh value with the
    schema version of the transaction and no mutation.  After a call with
    the flag, asking again, with or without it, returns the same value and
    changes nothing; a call repeated with the same flag does the same as the
    first; the schema version of the context is never changed. *)
Theorem prewrite_value_is_kept (ctx : Context) (create : bool) :
  (forall p, TxnCtx_Binlog ctx = slot_PrewriteValue p ->
             GetPrewriteValue ctx create = (p, ctx))
  /\ snd (GetPrewriteValue ctx false) = ctx
  /\ ((forall p, TxnCtx_Binlog ctx <> slot_PrewriteValue p) ->
      fst (GetPrewriteValue ctx false) = None
      /\ fst (GetPrewriteValue ctx true)
         = Some {| SchemaVersion := TxnCtx_SchemaVersion ctx; Mutations := [] |})
  /\ (forall again,
         GetPrewriteValue (snd (GetPrewriteValue ctx true)) again
         = GetPrewriteValue ctx true)
  /\ GetPrewriteValue (snd (GetPrewriteValue ctx create)) create
     = GetPrewriteValue ctx create
  /\ TxnCtx_SchemaVersion (snd (GetPrewriteValue ctx create)) = TxnCtx_SchemaVersion ctx.
Proof.
  unfold GetPrewriteValue. destruct ctx as [slot ver]. cbn [TxnCtx_Binlog TxnCtx_SchemaVersion].
  split; [|split; [|split; [|split; [|split]]]].
  - intros p ->. reflexivity.
  - destruct slot; reflexivity.
  - intros Hno. destruct slot as [|p|]; [auto | exfalso; now apply (Hno p) | auto].
  - intros again. destruct slot as [|p|], again; reflexivity.
  - destruct slot as [|p|], create; reflexivity.
  - destruct slot as [|p|], create; reflexivity.
Qed.

Lemma prewrite_value_is_kept_witness :
  GetPrewriteValue
    {| TxnCtx_Binlog := slot_PrewriteValue
                          (Some {| SchemaVersion := 7; Mutations := [lit "m"] |});
       TxnCtx_SchemaVersion := 9 |} true
  = (Some {| SchemaVersion := 7; Mutations := [lit "m"] |},
     {| TxnCtx_Binlog := slot_PrewriteValue
                           (Some {| SchemaVersion := 7; Mutations := [lit "m"] |});
        TxnCtx_SchemaVersion := 9 |}).
Proof.
  destruct (prewrite_value_is_kept
              {| TxnCtx_Binlog := slot_PrewriteValue
                                    (Some {| SchemaVersion := 7; Mutations := [lit "m"] |});
                 TxnCtx_SchemaVersion := 9 |} true) as [Hkept _].
  exact (Hkept _ eq_refl).
Defined.

End PrewriteFacts.

(** * More on the address validator *)
Module ValidatorFacts.
Import utils ValidatorDefs ValidatorMore StringFacts AddressValidator.

(** [url.parse] fills the opaque part or the host, never both. *)
Lemma parse_fills_one (rawurl : gostring) (u : url.URL) :
  url.parse rawurl = OK u -> url.Opaque u = [] \/ url.Host u = [].
Proof.
  intros H. unfold url.parse in H.
  repeat match type of H with
         | context [if ?b then _ else _] => destruct b
         | context [match ?x with _ => _ end] => destruct x eqn:?
         end;
    try discriminate; injection H as <-; cbn; auto.
Qed.

Lemma Parse_fills_one_part (rawurl : gostring) (u : url.URL) :
  url.Parse rawurl = OK u -> url.Opaque u = [] \/ url.Host u = [].
Proof.
  unfold url.Parse. destruct (url.split rawurl "#" true) as [r frag].
  destruct (url.parse r) as [v|e] eqn:E; [|discriminate].
  apply parse_fills_one in E.
  destruct frag; [now intros [= <-]|].
  destruct (url.unescape _ _); [|discriminate].
  now intros [= <-].
Qed.

Lemma gostring_eqb_nil (s : gostring) : gostring_eqb s [] = false <-> s <> [].
Proof.
  split.
  - intros H ->. discriminate.
  - intros H. destruct (gostring_eqb s []) eqn:E; [|reflexivity].
    apply gostring_eqb_eq in E. contradiction.
Qed.

(** The text of a URI that has a scheme and a host, and no opaque part,
    starts with the scheme and [://]. *)
Lemma String_scheme_host (u : url.URL) :
  url.Scheme u <> [] -> url.Opaque u = [] -> url.Host u <> [] ->
  exists rest, url.String u = url.Scheme u ++ lit "://" ++ rest.
Proof.
  intros Hs Ho Hh. unfold url.String.
  rewrite Ho. apply gostring_eqb_nil in Hs, Hh. rewrite Hs, Hh.
  cbn [negb orb gostring_eqb url.isSome].
  change (gostring_eqb [] []) with true. cbn [negb].
  set (auth := match url.User u with
               | Some ui => url.Userinfo_String ui ++ lit "@"
               | None => []
               end ++ url.escape (url.Host u) url.encodeHost).
  set (path := url.EscapedPath u).
  assert (Hb : exists r,
    (if negb (gostring_eqb path []) && negb (strings.HasPrefix path (lit "/")) && true
     then ((url.Scheme u ++ lit ":") ++ lit "//" ++ auth) ++ lit "/"
     else (url.Scheme u ++ lit ":") ++ lit "//" ++ auth)
    = url.Scheme u ++ lit "://" ++ r).
  { destruct (negb (gostring_eqb path []) && negb (strings.HasPrefix path (lit "/")) && true).
    - exists (auth ++ lit "/"). now rewrite <- !app_assoc.
    - exists auth. now rewrite <- !app_assoc. }
  destruct Hb as [r ->].
  assert (Hc : match url.Scheme u ++ lit "://" ++ r with
               | [] => match strings.Index path (lit ":") with
                       | Some i => if strings.Contains (firstn i path) (lit "/")
                                   then url.Scheme u ++ lit "://" ++ r else lit "./"
                       | None => url.Scheme u ++ lit "://" ++ r
                       end
               | _ :: _ => url.Scheme u ++ lit "://" ++ r
               end = url.Scheme u ++ lit "://" ++ r).
  { destruct (url.Scheme u); [discriminate | reflexivity]. }
  rewrite Hc.
  destruct (url.ForceQuery u || negb (gostring_eqb (url.RawQuery u) []));
    destruct (negb (gostring_eqb (url.Fragment u) []));
    rewrite <- ?app_assoc; eexists; reflexivity.
Qed.

(** What a candidate that passes has gone through. *)
Lemma parseOne_ok (str a : gostring) :
  parseOne str = OK a ->
  exists u hp,
    url.Parse (normalize str) = OK u
    /\ allowedScheme (url.Scheme u) = true
    /\ net.SplitHostPort (url.Host u) = OK hp
    /\ url.Path u = []
    /\ a = url.String u.
Proof.
  rewrite parseOne_unfold.
  destruct (url.Parse (normalize str)) as [u|e]; [|discriminate].
  destruct (allowedScheme (url.Scheme u)) eqn:Hs; [|discriminate]. cbn [negb].
  destruct (net.SplitHostPort (url.Host u)) as [hp|why] eqn:Hhp; [|discriminate].
  destruct (gostring_eqb (url.Path u) []) eqn:Hp; [|discriminate]. cbn [negb].
  intros [= <-]. apply gostring_eqb_eq in Hp. now exists u, hp.
Qed.

Lemma parseOne_schemeQualified (str a : gostring) :
  parseOne str = OK a -> schemeQualified a.
Proof.
  intros H. apply parseOne_ok in H as (u & hp & Hparse & Hs & Hhp & _ & ->).
  assert (Hhost : url.Host u <> []).
  { intros E. rewrite E in Hhp. discriminate. }
  assert (Hscheme : url.Scheme u <> []).
  { intros E. rewrite E in Hs. discriminate. }
  destruct (Parse_fills_one_part _ _ Hparse) as [Ho|Hno]; [|contradiction].
  destruct (String_scheme_host u Hscheme Ho Hhost) as [rest Hrest].
  exists (url.Scheme u), rest. now split.
Qed.

(** X16.  Every address that [ParseHostPortAddr] returns starts with one of
    the schemes http, https, unix and unixs, followed by [://]; there is one
    address for each piece between the commas of the input, so a list is
    never empty. *)
Theorem returned_addresses_are_scheme_qualified (s : gostring) (addrs : list gostring) :
  ParseHostPortAddr s = OK addrs ->
  Forall schemeQualified addrs
  /\ List.length addrs = S (strings.Count s ",").
Proof.
  unfold ParseHostPortAddr. intros H.
  pose proof (parseLoop_ok _ _ H) as Hall.
  split.
  - clear H. induction Hall as [|str a strs addrs Hone _ IH]; constructor.
    + now apply parseOne_schemeQualified in Hone.
    + exact IH.
  - rewrite <- (Forall2_length Hall). clear.
    induction s as [|c s IH]; [reflexivity|].
    cbn [strings.Split]. unfold strings.Count in *. cbn [filter].
    rewrite (Ascii.eqb_sym "," c).
    destruct (Ascii.eqb c ","); cbn [List.length]; [now rewrite IH|].
    destruct (strings.Split s ","); cbn [List.length] in *; [discriminate | exact IH].
Qed.

Lemma returned_addresses_are_scheme_qualified_witness :
  Forall schemeQualified [lit "http://pd1:2379"; lit "https://pd2:2379"]
  /\ List.length [lit "http://pd1:2379"; lit "https://pd2:2379"]
     = S (strings.Count (lit "pd1:2379, https://pd2:2379") ",").
Proof.
  apply (returned_addresses_are_scheme_qualified (lit "pd1:2379, https://pd2:2379")).
  vm_compute. reflexivity.
Defined.


Lemma uriByte_facts (c : ascii) :
  uriByte c = true ->
  (byte_val c <? 128)%N = true
  /\ strings.isSpace1 c = false
  /\ Forall (fun x => Ascii.eqb c x = false) (lit "#?%,").
Proof.
  all_bytes c; intros _; repeat split; repeat constructor.
Qed.

Lemma uri_differs (s : gostring) (x : ascii) :
  Forall (fun c => uriByte c = true) s -> In x (lit "#?%,") -> differs x s.
Proof.
  intros Hs Hx. unfold differs. eapply Forall_impl; [|exact Hs].
  intros c Hc. cbn beta in Hc. apply uriByte_facts in Hc as (_ & _ & Hall).
  rewrite Forall_forall in Hall. now apply Hall.
Qed.

Lemma addr_uri (s : gostring) :
  Forall (fun c => addrByte c = true) s -> Forall (fun c => uriByte c = true) s.
Proof.
  intros H. eapply Forall_impl; [|exact H].
  intros c Hc. unfold uriByte. cbn beta in Hc. now rewrite Hc.
Qed.

Lemma TrimSpace_uri (s : gostring) :
  Forall (fun c => uriByte c = true) s -> strings.TrimSpace s = s.
Proof.
  intros Hs. unfold strings.TrimSpace.
  destruct s as [|c s]; [reflexivity|].
  assert (Hc : uriByte c = true) by now inversion Hs.
  apply uriByte_facts in Hc as (Hlow & Hsp & _).
  rewrite TrimLeftSpace_plain by assumption.
  destruct (rev (c :: s)) as [|d r] eqn:E.
  - apply (f_equal (@List.length _)) in E. rewrite length_rev in E. discriminate.
  - assert (Hd : uriByte d = true).
    { rewrite Forall_forall in Hs. apply Hs. apply in_rev. rewrite E. now left. }
    apply uriByte_facts in Hd as (Hlow' & Hsp' & _).
    rewrite TrimRightSpace_rev_plain by assumption.
    now rewrite <- E, rev_involutive.
Qed.

Lemma Index_byte_first (x : ascii) (a b : gostring) :
  differs x a -> strings.Index (a ++ x :: b) [x] = Some (List.length a).
Proof.
  induction 1 as [|c a Hc _ IH].
  - cbn. now rewrite Ascii.eqb_refl.
  - cbn [app strings.Index strings.HasPrefix List.length].
    rewrite Hc. cbn [andb]. now rewrite IH.
Qed.

(** In a path, every byte but the per cent sign stands for itself. *)
Lemma unescape_path_plain (s : gostring) :
  differs "%" s -> url.unescape s url.encodePath = OK s.
Proof.
  induction 1 as [|c s Hc _ IH]; [reflexivity|].
  cbn [url.unescape url.isHostMode url.isQueryComponent andb]. rewrite Hc, IH.
  destruct (Ascii.eqb c "+") eqn:E; [|reflexivity].
  apply Ascii.eqb_eq in E. now subst c.
Qed.

Lemma web_scheme_bytes (scheme : gostring) :
  webScheme scheme -> Forall (fun c => uriByte c = true) (scheme ++ lit "://").
Proof. intros [-> | ->]; repeat constructor. Qed.

Lemma web_scheme_allowed (scheme : gostring) :
  webScheme scheme -> allowedScheme scheme = true.
Proof. now intros [-> | ->]. Qed.

Lemma web_scheme_text (scheme rest : gostring) :
  webScheme scheme -> strings.Contains (scheme ++ rest) (lit "http") = true.
Proof.
  intros [-> | ->].
  - exact (Contains_app [] (lit "http") rest).
  - exact (Contains_app [] (lit "http") (lit "s" ++ rest)).
Qed.

Lemma split_none (s : gostring) (c : ascii) (cutc : bool) :
  differs c s -> url.split s c cutc = (s, []).
Proof. intros H. unfold url.split. now rewrite Index_byte_none. Qed.

Lemma split_first (a b : gostring) (c : ascii) :
  differs c a -> url.split (a ++ c :: b) c false = (a, c :: b).
Proof.
  intros H. unfold url.split. rewrite Index_byte_first by assumption.
  rewrite firstn_app, Nat.sub_diag, firstn_all, app_nil_r.
  rewrite skipn_app, Nat.sub_diag, skipn_all. reflexivity.
Qed.

Ltac parse_web pre sch hp path :=
  unfold url.Parse;
  rewrite (split_none (pre ++ hp ++ path) "#" true) by assumption;
  unfold url.parse;
  change (gostring_eqb (pre ++ hp ++ path) (lit "*")) with false;
  change (url.getscheme (pre ++ hp ++ path)) with
    (@OK url.urlerror _ (sch, lit "//" ++ hp ++ path));
  cbv iota beta;
  rewrite (Count_byte_none "?" (lit "//" ++ hp ++ path)) by assumption;
  cbn [Nat.eqb]; rewrite andb_false_r;
  rewrite (split_none (lit "//" ++ hp ++ path) "?" true) by assumption;
  cbv iota beta;
  change (strings.HasPrefix (lit "//" ++ hp ++ path) (lit "/")) with true;
  change (strings.HasPrefix (lit "//" ++ hp ++ path) (lit "//")) with true;
  change (map strings.lowerByte sch) with sch;
  change (gostring_eqb sch []) with false;
  cbn [negb andb orb];
  change (skipn 2 (lit "//" ++ hp ++ path)) with (hp ++ path).

(** The URI that a web scheme, a plain host:port and a path parse to: the
    path is empty, or a slash and bytes of a host:port or slashes. *)
Lemma Parse_web (scheme hp path : gostring) :
  webScheme scheme ->
  Forall (fun c => addrByte c = true) hp ->
  (path = [] \/ exists seg, path = "/"%char :: seg /\ Forall (fun c => uriByte c = true) seg) ->
  exists raw,
    url.Parse (scheme ++ lit "://" ++ hp ++ path) =
      OK {| url.Scheme := scheme; url.Opaque := []; url.User := None;
            url.Host := hp; url.Path := path; url.RawPath := raw;
            url.ForceQuery := false; url.RawQuery := []; url.Fragment := [] |}
    /\ (path = [] -> raw = []).
Proof.
  intros Hsch Hhp Hpath.
  assert (Hd : forall x, In x (lit "#?/@[]%+,") -> differs x hp)
    by (intros x Hx; now apply addr_differs).
  assert (Hdp : forall x, In x (lit "#?%,") -> differs x path).
  { intros x Hx. destruct Hpath as [-> | (seg & -> & Hseg)]; [constructor|].
    apply uri_differs; [|assumption]. constructor; [reflexivity | assumption]. }
  assert (Hsplit : url.split (hp ++ path) "/" false = (hp, path)).
  { destruct Hpath as [-> | (seg & -> & Hseg)].
    - rewrite app_nil_r. apply split_none, Hd. cbn; tauto.
    - apply split_first, Hd. cbn; tauto. }
  assert (Hun : url.unescape path url.encodePath = OK path)
    by (apply unescape_path_plain, Hdp; cbn; tauto).
  assert (Hrest : forall x, In x (lit "#?") -> differs x (hp ++ path)).
  { intros x Hx. apply differs_app; [apply Hd | apply Hdp]; cbn in *; tauto. }
  assert (Hq : differs "?" (lit "//" ++ hp ++ path)).
  { apply differs_app; [repeat constructor | apply Hrest; cbn; tauto]. }
  assert (Hauth : url.parseAuthority hp = OK (None, hp)).
  { unfold url.parseAuthority. change (lit "@") with ["@"%char].
    rewrite (LastIndex_byte_none "@" hp) by (apply Hd; cbn; tauto).
    unfold url.parseHost. rewrite HasPrefix_bracket by assumption.
    now rewrite unescape_host_plain by assumption. }
  exists (if gostring_eqb path (url.escape path url.encodePath) then [] else path).
  split; [|now intros ->].
  destruct Hsch as [-> | ->].
  - change (lit "http" ++ lit "://" ++ hp ++ path) with (lit "http://" ++ hp ++ path).
    assert (Hh : differs "#" (lit "http://" ++ hp ++ path)).
    { apply differs_app; [repeat constructor | apply Hrest; cbn; tauto]. }
    parse_web (lit "http://") (lit "http") hp path.
    rewrite Hsplit, Hauth, Hun. reflexivity.
  - change (lit "https" ++ lit "://" ++ hp ++ path) with (lit "https://" ++ hp ++ path).
    assert (Hh : differs "#" (lit "https://" ++ hp ++ path)).
    { apply differs_app; [repeat constructor | apply Hrest; cbn; tauto]. }
    parse_web (lit "https://") (lit "https") hp path.
    rewrite Hsplit, Hauth, Hun. reflexivity.
Qed.

Lemma String_web_plain (scheme hp : gostring) :
  webScheme scheme -> hp <> [] ->
  Forall (fun c => addrByte c = true) hp ->
  url.String {| url.Scheme := scheme; url.Opaque := []; url.User := None;
                url.Host := hp; url.Path := []; url.RawPath := [];
                url.ForceQuery := false; url.RawQuery := []; url.Fragment := [] |}
  = scheme ++ lit "://" ++ hp.
Proof.
  intros Hsch Hne Hhp. unfold url.String, url.EscapedPath.
  cbn [url.Scheme url.Opaque url.User url.Host url.Path url.RawPath url.ForceQuery
       url.RawQuery url.Fragment].
  rewrite escape_host_plain by assumption.
  destruct hp as [|c hp]; [contradiction|].
  destruct Hsch as [-> | ->]; cbn; now rewrite app_nil_r.
Qed.

Lemma normalize_web (scheme rest : gostring) :
  webScheme scheme -> Forall (fun c => uriByte c = true) rest ->
  normalize (scheme ++ lit "://" ++ rest) = scheme ++ lit "://" ++ rest.
Proof.
  intros Hsch Hrest. unfold normalize.
  rewrite TrimSpace_uri.
  - now rewrite web_scheme_text.
  - rewrite app_assoc. apply Forall_app. split; [now apply web_scheme_bytes | assumption].
Qed.

Lemma normalize_bare (w : gostring) :
  Forall (fun c => uriByte c = true) w -> strings.Contains w (lit "http") = false ->
  normalize w = lit "http://" ++ w.
Proof. intros Hw Hno. unfold normalize. now rewrite TrimSpace_uri, Hno. Qed.

Lemma path_bytes (path : gostring) :
  path = [] \/ (exists seg, path = "/"%char :: seg /\ Forall (fun c => uriByte c = true) seg) ->
  Forall (fun c => uriByte c = true) path.
Proof.
  intros [-> | (seg & -> & Hseg)]; constructor; [reflexivity | assumption].
Qed.

(** The checks on a candidate that is, once trimmed and given its scheme, a
    web scheme, a plain host:port and a path. *)
Lemma parseOne_web (scheme hp path str : gostring) :
  webScheme scheme ->
  Forall (fun c => addrByte c = true) hp ->
  (path = [] \/ exists seg, path = "/"%char :: seg /\ Forall (fun c => uriByte c = true) seg) ->
  normalize str = scheme ++ lit "://" ++ hp ++ path ->
  parseOne str =
    match net.SplitHostPort hp with
    | Err _ => Err (invalidHostPort (normalize str))
    | OK _ =>
        match path with
        | [] => OK (scheme ++ lit "://" ++ hp)
        | _ :: _ => Err (unexpectedPath (normalize str))
        end
    end.
Proof.
  intros Hsch Hhp Hpath Hnorm.
  destruct (Parse_web scheme hp path Hsch Hhp Hpath) as (raw & Hparse & Hraw).
  rewrite parseOne_unfold, Hnorm, Hparse.
  cbn [url.Scheme url.Host url.Path]. rewrite web_scheme_allowed by assumption.
  cbn [negb].
  destruct (net.SplitHostPort hp) as [r|why] eqn:Hsplit; [|reflexivity].
  destruct path as [|c path]; [|reflexivity].
  cbn [gostring_eqb negb]. change (gostring_eqb [] []) with true. cbn [negb].
  rewrite (Hraw eq_refl), String_web_plain; [reflexivity | assumption | | assumption].
  intros ->. discriminate.
Qed.

Lemma ParseHostPortAddr_one (w : gostring) :
  differs "," w ->
  ParseHostPortAddr w =
    match parseOne w with
    | OK a => OK [a]
    | Err e => Err e
    end.
Proof.
  intros Hw. unfold ParseHostPortAddr. rewrite Split_one by assumption.
  rewrite parseLoop_cons. cbn [parseLoop]. reflexivity.
Qed.

Lemma web_uri (scheme rest : gostring) :
  webScheme scheme -> Forall (fun c => uriByte c = true) rest ->
  Forall (fun c => uriByte c = true) (scheme ++ lit "://" ++ rest).
Proof.
  intros Hsch Hrest. rewrite app_assoc. apply Forall_app.
  split; [now apply web_scheme_bytes | assumption].
Qed.

Lemma host_bytes (host : gostring) :
  Forall (fun c => hostByte c = true) host ->
  Forall (fun c => addrByte c = true) host /\ differs ":" host.
Proof.
  intros Hh. split; eapply Forall_impl; try exact Hh; intros c Hc; now apply hostByte_facts.
Qed.

(** X17.  A plain host:port that already carries the scheme http or https
    is accepted and returned byte for byte. *)
Theorem web_candidate_is_kept (scheme host port : gostring) :
  webScheme scheme ->
  Forall (fun c => hostByte c = true) host ->
  Forall (fun c => url.isDigit c = true) port ->
  ParseHostPortAddr (scheme ++ lit "://" ++ host ++ lit ":" ++ port)
  = OK [scheme ++ lit "://" ++ host ++ lit ":" ++ port].
Proof.
  intros Hsch Hh Hp.
  destruct (host_port_bytes host port Hh Hp) as (Hall & _ & _).
  pose proof (web_uri scheme _ Hsch (addr_uri _ Hall)) as Huri.
  rewrite ParseHostPortAddr_one by (apply uri_differs; [assumption | cbn; tauto]).
  rewrite (parseOne_web scheme (host ++ lit ":" ++ port) []); try assumption.
  - now rewrite SplitHostPort_plain.
  - now left.
  - rewrite app_nil_r. apply normalize_web; [assumption | now apply addr_uri].
Qed.

Lemma web_candidate_is_kept_witness :
  ParseHostPortAddr (lit "https" ++ lit "://" ++ lit "pd-1.tidb" ++ lit ":" ++ lit "2379")
  = OK [lit "https" ++ lit "://" ++ lit "pd-1.tidb" ++ lit ":" ++ lit "2379"].
Proof.
  apply web_candidate_is_kept.
  - now right.
  - repeat constructor.
  - repeat constructor.
Defined.

Lemma endpoint_no_comma (c : candidate) :
  plainCandidate c -> differs "," (endpoint c).
Proof.
  intros (_ & Hh & Hp & _).
  destruct (host_port_bytes _ _ Hh Hp) as (Hall & _ & _).
  apply uri_differs; [|cbn; tauto].
  exact (web_uri (lit "http") _ (or_introl eq_refl) (addr_uri _ Hall)).
Qed.

Lemma parseOne_endpoint (c : candidate) :
  plainCandidate c -> parseOne (endpoint c) = OK (endpoint c).
Proof.
  intros (_ & Hh & Hp & _).
  destruct (host_port_bytes _ _ Hh Hp) as (Hall & _ & _).
  unfold endpoint.
  change (lit "http://" ++ hostport c) with (lit "http" ++ lit "://" ++ hostport c).
  rewrite (parseOne_web (lit "http") (hostport c) []); try assumption.
  - unfold hostport. now rewrite SplitHostPort_plain.
  - now left.
  - now left.
  - rewrite app_nil_r. apply normalize_web; [now left | now apply addr_uri].
Qed.

(** X18.  What [ParseHostPortAddr] returns for a list of plain host:port
    candidates is a fixed point: joined by commas and validated again, the
    addresses come back as they are. *)
Theorem returned_list_is_fixed_point (cands : list candidate) :
  cands <> [] ->
  Forall plainCandidate cands ->
  exists addrs,
    ParseHostPortAddr (joinComma (map written cands)) = OK addrs
    /\ ParseHostPortAddr (joinComma addrs) = OK addrs.
Proof.
  intros Hne Hall. exists (map endpoint cands). split.
  - unfold ParseHostPortAddr. rewrite Split_joinComma.
    + now apply parseLoop_map.
    + destruct cands; [contradiction | discriminate].
    + apply Forall_map. eapply Forall_impl; [|exact Hall].
      intros c. apply written_no_comma.
  - unfold ParseHostPortAddr. rewrite Split_joinComma.
    + clear Hne. induction Hall as [|c cands Hc _ IH]; [reflexivity|].
      cbn [map]. rewrite parseLoop_cons, parseOne_endpoint, IH by assumption.
      reflexivity.
    + destruct cands; [contradiction | discriminate].
    + apply Forall_map. eapply Forall_impl; [|exact Hall].
      intros c. apply endpoint_no_comma.
Qed.

Lemma returned_list_is_fixed_point_witness :
  exists addrs,
    ParseHostPortAddr
      (joinComma (map written
         [ {| lead := lit " "; chost := lit "pd1"; cport := lit "2379"; trail := [] |};
           {| lead := []; chost := lit "10.0.0.2"; cport := lit "2379"; trail := lit " " |} ]))
    = OK addrs
    /\ ParseHostPortAddr (joinComma addrs) = OK addrs.
Proof.
  apply (returned_list_is_fixed_point
           [ {| lead := lit " "; chost := lit "pd1"; cport := lit "2379"; trail := [] |};
             {| lead := []; chost := lit "10.0.0.2"; cport := lit "2379"; trail := lit " " |} ]).
  - discriminate.
  - apply Forall_cons; [|apply Forall_cons; [|apply Forall_nil]].
    + split; [repeat constructor|]. split; [repeat constructor|].
      split; [repeat constructor|]. split; [repeat constructor | reflexivity].
    + split; [repeat constructor|]. split; [repeat constructor|].
      split; [repeat constructor|]. split; [repeat constructor | reflexivity].
Defined.

(** The witness of [plain_candidates_get_http]: two candidates with white
    space around them. *)
Lemma plain_candidates_get_http_witness :
  ParseHostPortAddr (lit " pd1:2379,10.0.0.2:2379 ")
  = OK [lit "http://pd1:2379"; lit "http://10.0.0.2:2379"].
Proof.
  apply (plain_candidates_get_http
           [ {| lead := lit " "; chost := lit "pd1"; cport := lit "2379"; trail := [] |};
             {| lead := []; chost := lit "10.0.0.2"; cport := lit "2379"; trail := lit " " |} ]).
  - discriminate.
  - apply Forall_cons; [|apply Forall_cons; [|apply Forall_nil]].
    + split; [repeat constructor|]. split; [repeat constructor|].
      split; [repeat constructor|]. split; [repeat constructor | reflexivity].
    + split; [repeat constructor|]. split; [repeat constructor|].
      split; [repeat constructor|]. split; [repeat constructor | reflexivity].
Defined.

(** X19.  A host without a port is rejected for its host:port form, with or
    without a scheme, and the message names the candidate as it was parsed:
    with the scheme http before it if it had none. *)
Theorem missing_port_is_rejected (scheme host : gostring) :
  Forall (fun c => hostByte c = true) host ->
  (webScheme scheme ->
   ParseHostPortAddr (scheme ++ lit "://" ++ host)
   = Err (invalidHostPort (scheme ++ lit "://" ++ host)))
  /\ (strings.Contains host (lit "http") = false ->
      ParseHostPortAddr host = Err (invalidHostPort (lit "http://" ++ host))).
Proof.
  intros Hh. destruct (host_bytes host Hh) as [Hall Hcolon].
  assert (Hsplit : net.SplitHostPort host = Err net.missingPort).
  { unfold net.SplitHostPort. change (lit ":") with [":"%char].
    now rewrite LastIndex_byte_none. }
  split.
  - intros Hsch.
    pose proof (web_uri scheme _ Hsch (addr_uri _ Hall)) as Huri.
    rewrite ParseHostPortAddr_one by (apply uri_differs; [assumption | cbn; tauto]).
    rewrite (parseOne_web scheme host []); try assumption.
    + rewrite Hsplit. now rewrite normalize_web by (try apply addr_uri; assumption).
    + now left.
    + rewrite app_nil_r. apply normalize_web; [assumption | now apply addr_uri].
  - intros Hno.
    rewrite ParseHostPortAddr_one by (apply addr_differs; [assumption | cbn; tauto]).
    rewrite (parseOne_web (lit "http") host []); try assumption.
    + rewrite Hsplit. now rewrite normalize_bare by (try apply addr_uri; assumption).
    + now left.
    + now left.
    + rewrite app_nil_r. now apply normalize_bare; [apply addr_uri|].
Qed.

Lemma missing_port_is_rejected_witness :
  ParseHostPortAddr (lit "127.0.0.1") = Err (invalidHostPort (lit "http://" ++ lit "127.0.0.1")).
Proof.
  destruct (missing_port_is_rejected (lit "http") (lit "127.0.0.1")) as [_ Hbare].
  - repeat constructor.
  - apply Hbare. vm_compute. reflexivity.
Defined.

(** X20.  A plain host:port followed by a path, be it only a slash, is
    rejected for the path, with or without a scheme; without one the message
    names the candidate with the scheme http before it. *)
Theorem path_is_rejected (scheme host port seg : gostring) :
  Forall (fun c => hostByte c = true) host ->
  Forall (fun c => url.isDigit c = true) port ->
  Forall (fun c => uriByte c = true) seg ->
  (webScheme scheme ->
   ParseHostPortAddr (scheme ++ lit "://" ++ (host ++ lit ":" ++ port) ++ lit "/" ++ seg)
   = Err (unexpectedPath (scheme ++ lit "://" ++ (host ++ lit ":" ++ port) ++ lit "/" ++ seg)))
  /\ (strings.Contains ((host ++ lit ":" ++ port) ++ lit "/" ++ seg) (lit "http") = false ->
      ParseHostPortAddr ((host ++ lit ":" ++ port) ++ lit "/" ++ seg)
      = Err (unexpectedPath (lit "http://" ++ (host ++ lit ":" ++ port) ++ lit "/" ++ seg))).
Proof.
  intros Hh Hp Hseg.
  destruct (host_port_bytes host port Hh Hp) as (Hall & _ & _).
  assert (Hpath : lit "/" ++ seg = [] \/
                  exists seg', lit "/" ++ seg = "/"%char :: seg'
                               /\ Forall (fun c => uriByte c = true) seg')
    by (right; now exists seg).
  assert (Hbody : Forall (fun c => uriByte c = true)
                    ((host ++ lit ":" ++ port) ++ lit "/" ++ seg)).
  { apply Forall_app. split; [now apply addr_uri | now apply path_bytes]. }
  split.
  - intros Hsch.
    pose proof (web_uri scheme _ Hsch Hbody) as Huri.
    rewrite ParseHostPortAddr_one by (apply uri_differs; [assumption | cbn; tauto]).
    rewrite (parseOne_web scheme (host ++ lit ":" ++ port) (lit "/" ++ seg));
      try assumption.
    + rewrite (normalize_web scheme _ Hsch Hbody).
      rewrite SplitHostPort_plain by assumption. reflexivity.
    + now apply normalize_web.
  - intros Hno.
    rewrite ParseHostPortAddr_one by (apply uri_differs; [assumption | cbn; tauto]).
    rewrite (parseOne_web (lit "http") (host ++ lit ":" ++ port) (lit "/" ++ seg));
      try assumption.
    + rewrite (normalize_bare _ Hbody Hno).
      rewrite SplitHostPort_plain by assumption. reflexivity.
    + now left.
    + now apply normalize_bare.
Qed.

Lemma path_is_rejected_witness :
  ParseHostPortAddr (lit "http" ++ lit "://" ++ (lit "127.0.0.1" ++ lit ":" ++ lit "2379")
                       ++ lit "/" ++ [])
  = Err (unexpectedPath (lit "http" ++ lit "://" ++ (lit "127.0.0.1" ++ lit ":" ++ lit "2379")
                           ++ lit "/" ++ [])).
Proof.
  destruct (path_is_rejected (lit "http") (lit "127.0.0.1") (lit "2379") []) as [Hweb _].
  - repeat constructor.
  - repeat constructor.
  - constructor.
  - apply Hweb. now left.
Defined.

End ValidatorFacts.
